(** * js-ogc: the tile cache and LOD compositing engine of [WmsMapType]

    A shallow embedding of [src/wmsmaptype.ts]: the sparse four-level image
    cache (zoom, y, x, LOD), the mipmap search [findNearestLod], the
    larger-tile resolver [tileFromLarger], the recursive smaller-tile
    compositor [compositeFromSmaller], the content assembler
    [createTileContent] / [getTileContent] and the active-tile registry
    ([getTile], [releaseTile], [refreshTiles]), together with the
    asynchronous decode completions as steps of a transition system.

    Of the request itself, the [url] setter, the pixel size that
    [getTileUrl] sends and [xyzToBounds] (its doubles kept abstract) are
    embedded after the engine.  Not embedded: the query string that
    [getTileUrl] assembles, which the cache and the compositor never read,
    and the [style.position] that [createTileContent] sets on the layers
    it returns.

    Conventions.
    - A JavaScript number that the code uses as an integer is a [Z]
      (integers in the range that a double represents exactly); the bit
      operators [<<] and [>>] go through 32-bit two's complement as the
      language prescribes ([shl], [sar]).
    - [undefined] is [None].  An object reference (an image, a canvas) is
      always truthy, so [if (x)] on an optional reference is a match on the
      option.
    - A DOM element is a handle; [createElement] draws a fresh handle from
      a counter kept in the state. *)

From stdpp Require Import base option list gmap.
From Stdlib Require Import ZArith Lia Wf_nat.

Local Open Scope Z_scope.

(** ** Numbers *)

(** [ToInt32]: reduction modulo 2^32 into the signed range. *)
Definition toInt32 (z : Z) : Z := (z + 2 ^ 31) `mod` 2 ^ 32 - 2 ^ 31.

(** [a << k]: both operands go through 32 bits, the count modulo 32. *)
Definition shl (a k : Z) : Z := toInt32 (Z.shiftl (toInt32 a) (k `mod` 32)).

(** [a >> k]: sign-propagating right shift. *)
Definition sar (a k : Z) : Z := Z.shiftr (toInt32 a) (k `mod` 32).

(** ** Geometry *)

Record Point := mkPoint { px : Z; py : Z }.

Record Rect := mkRect { rx : Z; ry : Z; rw : Z; rh : Z }.

Global Instance Point_eq_dec : EqDecision Point.
Proof. solve_decision. Defined.

Global Instance Rect_eq_dec : EqDecision Rect.
Proof. solve_decision. Defined.

(** ** Images and mipmaps *)

(** A DOM element handle. *)
Abbreviation Handle := nat.

(** An [HTMLImageElement]. *)
Abbreviation Image := Handle.

(** A mipmap is the sparse array [HTMLImageElement[]] indexed by LOD: a
    list whose holes are [None].  Only images are ever stored in it. *)
Abbreviation Mipmap := (list (option Image)).

(** [mipmap?.[lod]] for a number [lod]: a negative index is no array
    element (nothing is ever stored under one, see [fetch_lod_nonneg]). *)
Definition mipmapGet (mipmap : Mipmap) (lod : Z) : option Image :=
  if lod <? 0 then None else mjoin (mipmap !! Z.to_nat lod).

(** [mipmap[lod] = image] for an index [lod]: inside the array the slot is
    replaced, past its end the array grows and the gap stays empty. *)
Definition mipmapSet (mipmap : Mipmap) (lod : nat) (image : Image) : Mipmap :=
  if (lod <? length mipmap)%nat
  then <[lod := Some image]> mipmap
  else mipmap ++ replicate (lod - length mipmap)%nat None ++ [Some image].

(** [Array.prototype.forEach]: ascending index order, holes skipped; the
    callback receives the element and its index. *)
Fixpoint forEachFrom {A} (body : A → Image → nat → A) (i : nat)
    (arr : Mipmap) (acc : A) : A :=
  match arr with
  | [] => acc
  | None :: rest => forEachFrom body (S i) rest acc
  | Some image :: rest => forEachFrom body (S i) rest (body acc image i)
  end.

Definition forEach {A} (body : A → Image → nat → A) (arr : Mipmap) (acc : A) : A :=
  forEachFrom body 0 arr acc.

(** [difference >= bestDifference] where [bestDifference] may be
    [undefined]: the comparison with [undefined] is false. *)
Definition geUndef (difference : Z) (bestDifference : option Z) : bool :=
  match bestDifference with
  | Some b => b <=? difference
  | None => false
  end.

(** The callback of [findNearestLod]; the accumulator is the pair of the
    closure variables [bestImage], [bestDifference]. *)
Definition nearestStep (targetLod : Z) (acc : option Image * option Z)
    (image : Image) (lod : nat) : option Image * option Z :=
  let difference := Z.abs (Z.of_nat lod - targetLod) in
  if negb (geUndef difference acc.2)
  then (Some image, Some difference)
  else acc.

Definition findNearestLod (mipmap : Mipmap) (targetLod : Z)
    (betterThan : option Z) : option Image * option Z :=
  forEach (nearestStep targetLod) mipmap (None, betterThan).

(** *** Vocabulary for the mipmap search *)

(** The image a mipmap holds at LOD [lod], if any. *)
Definition entry (mipmap : Mipmap) (lod : nat) : option Image :=
  mjoin (mipmap !! lod).

(** Distance of LOD [lod] from the target. *)
Definition lodDistance (targetLod : Z) (lod : nat) : Z :=
  Z.abs (Z.of_nat lod - targetLod).

(** A difference [d] beats the optional bound: strictly below it, or no
    bound at all. *)
Definition eligible (betterThan : option Z) (d : Z) : Prop :=
  match betterThan with
  | Some b => d < b
  | None => True
  end.

(** ** The cache store *)

(** [imageCache : HTMLImageElement[][][][]], indexed by zoom, y and x; the
    innermost array is the mipmap of the cell.  The three outer levels are
    only ever read with [?.] and grown with [??=], so each is a finite map
    from the index to the nested array. *)
Abbreviation Cache := (gmap Z (gmap Z (gmap Z Mipmap))).

(** [this.imageCache[zoom]?.[y]?.[x]] *)
Definition cacheMipmap (cache : Cache) (zoom y x : Z) : option Mipmap :=
  match cache !! zoom with
  | Some rows =>
      match rows !! y with
      | Some cols => cols !! x
      | None => None
      end
  | None => None
  end.

(** [this.imageCache[zoom]?.[y]?.[x]?.[lod]] *)
Definition cacheGet (cache : Cache) (zoom y x lod : Z) : option Image :=
  cacheMipmap cache zoom y x ≫= (λ mipmap, mipmapGet mipmap lod).

(** [(((this.imageCache[zoom] ??= [])[y] ??= [])[x] ??= [])[lod] = image]:
    the three outer levels are created when missing, the innermost slot is
    assigned. *)
Definition cacheStore (cache : Cache) (zoom y x : Z) (lod : nat)
    (image : Image) : Cache :=
  let rows := default ∅ (cache !! zoom) in
  let cols := default ∅ (rows !! y) in
  let mipmap := default [] (cols !! x) in
  <[zoom := <[y := <[x := mipmapSet mipmap lod image]> cols]> rows]> cache.

(** ** Drawing surfaces *)

(** One call [drawImage(image, dx, dy, dw, dh)]. *)
Record DrawOp := mkDraw { dImage : Image; dRect : Rect }.

(** The part of [CanvasRenderingContext2D] the engine uses. *)
Class CanvasRenderingContext2D (C : Type) :=
  drawImage : C → Image → Rect → C.

(** A context as the list of the draws made on it, oldest first. *)
Global Instance drawLog : CanvasRenderingContext2D (list DrawOp) :=
  λ canvas image r, canvas ++ [mkDraw image r].

(** An [HTMLCanvasElement]: its handle, its width = height, and what was
    drawn on it. *)
Record Canvas := mkCanvas { cHandle : Handle; cSize : Z; cDraws : list DrawOp }.

(** ** Larger-tile resolver: the search loop of [tileFromLarger] *)

(** The local [best]. *)
Record Best := mkBest { bImage : Image; bX : Z; bY : Z; bLevelsAbove : Z }.

(** One iteration of the [for] loop; the accumulator is
    ([bestDifference], [best]). *)
Definition largerStep (cache : Cache) (zoom : Z) (coord : Point) (lod : Z)
    (acc : option Z * option Best) (levelsAbove : Z) : option Z * option Best :=
  let mipZoom := zoom - levelsAbove in
  let mipCoord := mkPoint (sar (px coord) levelsAbove) (sar (py coord) levelsAbove) in
  match cacheMipmap cache mipZoom (py mipCoord) (px mipCoord) with
  | None => acc
  | Some mipmap =>
      let '(candidate, bestDifference) :=
        findNearestLod mipmap (lod + levelsAbove) acc.1 in
      match candidate with
      | Some image =>
          (bestDifference, Some (mkBest image (px mipCoord) (py mipCoord) levelsAbove))
      | None => (bestDifference, acc.2)
      end
  end.

(** The values [levelsAbove] takes:
    [for (levelsAbove = 0; zoom - levelsAbove >= 0; ++levelsAbove)]. *)
Definition levelsAboveRange (zoom : Z) : list Z :=
  Z.of_nat <$> seq 0 (Z.to_nat (zoom + 1)).

Definition largerSearch (cache : Cache) (zoom : Z) (coord : Point) (lod : Z)
    : option Z * option Best :=
  foldl (largerStep cache zoom coord lod) (None, None) (levelsAboveRange zoom).

(** The destination of the single [drawImage] of [tileFromLarger]: the
    whole ancestor image, scaled to [ds] x [ds], placed at the offset of
    the target cell. *)
Definition largerRect (tileSize : Z) (coord : Point) (best : Best) : Rect :=
  let ds := shl tileSize (bLevelsAbove best) in
  mkRect ((shl (bX best) (bLevelsAbove best) - px coord) * tileSize)
         ((shl (bY best) (bLevelsAbove best) - py coord) * tileSize)
         ds ds.

(** ** Smaller-tile compositor *)

(** JavaScript truthiness of a number used as a condition ([i ? a : b]). *)
Definition truthy (n : Z) : bool := negb (n =? 0).

(** The local [cc]: the child cell of quadrant ([i], [j]). *)
Definition quadrantCoord (coord : Point) (i j : Z) : Point :=
  mkPoint (shl (px coord) 1 + i) (shl (py coord) 1 + j).

(** The local [cd]: the destination rectangle of quadrant ([i], [j]). *)
Definition quadrantRect (drect : Rect) (i j : Z) : Rect :=
  mkRect
    (if truthy i then rx drect + sar (rw drect) 1 else rx drect)
    (if truthy j then ry drect + sar (rh drect) 1 else ry drect)
    (if truthy i then rw drect - sar (rw drect) 1 else sar (rw drect) 1)
    (if truthy j then rh drect - sar (rh drect) 1 else sar (rh drect) 1).

(** The proxy lookup of one quadrant: [proxy] and [nextBetterThan].  With
    no mipmap at the cell both keep their initial values; otherwise they
    are what [findNearestLod] returns for the caller's bound (a defined
    bound comes back defined, see [findNearestLod_bound_defined]). *)
Definition proxyLookup (mipmap : option Mipmap) (lod proxyBetterThan : Z)
    : option Image * Z :=
  match mipmap with
  | None => (None, proxyBetterThan)
  | Some mipmap =>
      match findNearestLod mipmap lod (Some proxyBetterThan) with
      | (proxy, Some nextBetterThan) => (proxy, nextBetterThan)
      | (proxy, None) => (proxy, proxyBetterThan)
      end
  end.

(** The four loop iterations in execution order, as ([j], [i]). *)
Definition quadrants : list (Z * Z) := [(0, 0); (0, 1); (1, 0); (1, 1)].

(** Left fold whose body may fail. *)
Fixpoint foldOpt {A B} (f : A → B → option A) (acc : A) (l : list B) : option A :=
  match l with
  | [] => Some acc
  | b :: l' =>
      match f acc b with
      | Some acc' => foldOpt f acc' l'
      | None => None
      end
  end.

Section Compositor.
Context {C : Type} `{!CanvasRenderingContext2D C}.

(** The shape of a recursive call of [compositeFromSmaller]: canvas, coord,
    drect, zoom, lod, proxyBetterThan. *)
Definition Self : Type := C → Point → Rect → Z → Z → Z → option (bool * C).

(** The body of the inner loop for quadrant ([i], [j]); the accumulator is
    ([complete], the canvas), [self] stands for the recursive call. *)
Definition quadrantBody (self : Self) (cache : Cache) (coord : Point)
    (drect : Rect) (zoom lod proxyBetterThan : Z)
    (acc : bool * C) (ji : Z * Z) : option (bool * C) :=
  let '(complete, canvas) := acc in
  let '(j, i) := ji in
  let cc := quadrantCoord coord i j in
  let cd := quadrantRect drect i j in
  let mipmap := cacheMipmap cache zoom (py cc) (px cc) in
  match mipmap ≫= (λ m : Mipmap, mipmapGet m lod) with
  | Some child => Some (complete, drawImage canvas child cd)
  | None =>
      let '(proxy, nextBetterThan) := proxyLookup mipmap lod proxyBetterThan in
      let canvas :=
        match proxy with
        | Some proxy => drawImage canvas proxy cd
        | None => canvas
        end in
      match self canvas cc cd (zoom + 1) (lod - 1) nextBetterThan with
      | Some (sub, canvas) => Some (if sub then complete else false, canvas)
      | None => None
      end
  end.

(** The body of [compositeFromSmaller] with its recursive calls going to
    [self]. *)
Definition compositeBody (self : Self) (cache : Cache) (canvas : C)
    (coord : Point) (drect : Rect) (zoom lod proxyBetterThan : Z)
    : option (bool * C) :=
  if lod + proxyBetterThan <? 0 then Some (false, canvas)
  else foldOpt (quadrantBody self cache coord drect zoom lod proxyBetterThan)
         (true, canvas) quadrants.

(** [compositeFromSmaller] with a bound on the recursion depth; [None]
    only when the bound is hit. *)
Fixpoint compositeFromSmaller_fuel (fuel : nat) (cache : Cache) (canvas : C)
    (coord : Point) (drect : Rect) (zoom lod proxyBetterThan : Z)
    : option (bool * C) :=
  match fuel with
  | O => None
  | S fuel' =>
      compositeBody (compositeFromSmaller_fuel fuel' cache) cache canvas
        coord drect zoom lod proxyBetterThan
  end.

(** Recursion depth that always suffices ([compositeFromSmaller_fuel_enough]). *)
Definition compositeDepth (lod proxyBetterThan : Z) : nat :=
  S (Z.to_nat (lod + proxyBetterThan + 1)).

Definition compositeFromSmaller (cache : Cache) (canvas : C) (coord : Point)
    (drect : Rect) (zoom lod proxyBetterThan : Z) : option (bool * C) :=
  compositeFromSmaller_fuel (compositeDepth lod proxyBetterThan) cache canvas
    coord drect zoom lod proxyBetterThan.

End Compositor.

(** *** Observing one activation of the compositor

    Run on a recording context with a recording [self], the body of
    [compositeFromSmaller] lists what a single activation does: the draws
    it makes itself and the recursive calls it issues, in order. *)

Inductive Probe :=
  | ProbeDraw (image : Image) (r : Rect)
  | ProbeCall (coord : Point) (drect : Rect) (zoom lod proxyBetterThan : Z).

Global Instance probeLog : CanvasRenderingContext2D (list Probe) :=
  λ canvas image r, canvas ++ [ProbeDraw image r].

(** A stand-in for the recursive call that records its arguments. *)
Definition probeSelf : @Self (list Probe) :=
  λ canvas coord drect zoom lod proxyBetterThan,
    Some (true, canvas ++ [ProbeCall coord drect zoom lod proxyBetterThan]).

Definition activation (cache : Cache) (coord : Point) (drect : Rect)
    (zoom lod proxyBetterThan : Z) : list Probe :=
  match compositeBody probeSelf cache [] coord drect zoom lod proxyBetterThan with
  | Some (_, log) => log
  | None => []
  end.

(** The arguments (coord, drect, zoom, lod, proxyBetterThan) of the
    recursive calls of one activation. *)
Definition CallArgs : Type := Point * Rect * Z * Z * Z.

Definition callsIn (log : list Probe) : list CallArgs :=
  omap (λ p, match p with
             | ProbeCall coord drect zoom lod b => Some (coord, drect, zoom, lod, b)
             | ProbeDraw _ _ => None
             end) log.

Definition recursiveCalls (cache : Cache) (coord : Point) (drect : Rect)
    (zoom lod proxyBetterThan : Z) : list CallArgs :=
  callsIn (activation cache coord drect zoom lod proxyBetterThan).

(** The recursive call issued for the quadrant whose child cell is [cc]. *)
Definition callFor (cc : Point) (calls : list CallArgs) : list CallArgs :=
  filter (λ c : CallArgs, c.1.1.1.1 = cc) calls.

(** ** The map type and its environment *)

(** [TileParams] *)
Record TileParams := mkTileParams { tpCoord : Point; tpZoom : Z }.

(** An image whose [decode()] promise is still pending, with what its
    continuation will store: [imageCache[zoom][coord.y][coord.x][lod] = image]. *)
Record Fetch := mkFetch { fZoom : Z; fCoord : Point; fLod : Z; fImage : Image }.

(** The fields of a [WmsMapType] that the tile engine uses, the handle
    counter of the owner document and the pending decodes. *)
Record State := mkState {
  tileSize : Z;
  levelOfDetail : Z;
  maxOversample : Z;
  imageCache : Cache;
  activeTiles : list (Handle * TileParams);
  nextHandle : Handle;
  pending : list Fetch
}.

Definition setImageCache (cache : Cache) (st : State) : State :=
  mkState (tileSize st) (levelOfDetail st) (maxOversample st) cache
    (activeTiles st) (nextHandle st) (pending st).

Definition setActiveTiles (tiles : list (Handle * TileParams)) (st : State) : State :=
  mkState (tileSize st) (levelOfDetail st) (maxOversample st) (imageCache st)
    tiles (nextHandle st) (pending st).

Definition setNextHandle (h : Handle) (st : State) : State :=
  mkState (tileSize st) (levelOfDetail st) (maxOversample st) (imageCache st)
    (activeTiles st) h (pending st).

Definition setPending (fetches : list Fetch) (st : State) : State :=
  mkState (tileSize st) (levelOfDetail st) (maxOversample st) (imageCache st)
    (activeTiles st) (nextHandle st) fetches.

Definition setLevelOfDetail (v : Z) (st : State) : State :=
  mkState (tileSize st) v (maxOversample st) (imageCache st)
    (activeTiles st) (nextHandle st) (pending st).

Definition setMaxOversample (v : Z) (st : State) : State :=
  mkState (tileSize st) (levelOfDetail st) v (imageCache st)
    (activeTiles st) (nextHandle st) (pending st).

(** The constructor, with its defaults for the three engine options. *)
Definition newWmsMapType (tileSize levelOfDetail maxOversample : option Z) : State :=
  mkState (default 256 tileSize) (default 0 levelOfDetail)
    (default 2 maxOversample) ∅ [] 0%nat [].

(** [ownerDocument.createElement(...)] *)
Definition createElement (st : State) : Handle * State :=
  (nextHandle st, setNextHandle (S (nextHandle st)) st).

(** A member of [TileContent]; [NullEl] is the [null] that the type of
    [tileFromLarger]'s result lets through (no content ever holds it, see
    [tileFromLarger_defined]). *)
Inductive Element :=
  | ImageEl (image : Image)
  | CanvasEl (canvas : Canvas)
  | NullEl.

Definition nullable (canvas : option Canvas) : Element :=
  match canvas with
  | Some canvas => CanvasEl canvas
  | None => NullEl
  end.

(** [tileFromLarger]: returns [[canvas, bestDifference]] or
    [[null, undefined]]. *)
Definition tileFromLarger (zoom : Z) (coord : Point) (lod : Z) (st : State)
    : (option Canvas * option Z) * State :=
  match largerSearch (imageCache st) zoom coord lod with
  | (bestDifference, Some best) =>
      let '(canvas, st) := createElement st in
      ((Some (mkCanvas canvas (tileSize st)
                (drawImage [] (bImage best) (largerRect (tileSize st) coord best))),
        bestDifference), st)
  | (_, None) => ((None, None), st)
  end.

(** [tileFromSmaller]: the canvas takes [_tileSize] as width and height,
    which the destination rectangle reads back (a canvas dimension is a
    non-negative 32-bit integer; [_tileSize] is taken to be one). *)
Definition tileFromSmaller (zoom : Z) (coord : Point) (lod proxyBetterThan : Z)
    (st : State) : option ((Canvas * bool) * State) :=
  let '(canvas, st) := createElement st in
  let size := tileSize st in
  match compositeFromSmaller (imageCache st) [] coord (mkRect 0 0 size size)
          (zoom + 1) (lod - 1) proxyBetterThan with
  | Some (complete, draws) => Some ((mkCanvas canvas size draws, complete), st)
  | None => None
  end.

(** [fetchTile]: a new [img] element whose [src] is the tile URL. *)
Definition fetchTile (zoom : Z) (coord : Point) (lod : Z) (st : State)
    : Image * State :=
  createElement st.

(** [difference == 0] for a possibly undefined [difference]. *)
Definition isZero (difference : option Z) : bool :=
  match difference with
  | Some d => d =? 0
  | None => false
  end.

(** [difference || fallback]: [undefined] and [0] are falsy. *)
Definition orElse (difference : option Z) (fallback : Z) : Z :=
  match difference with
  | Some d => if d =? 0 then fallback else d
  | None => fallback
  end.

(** [createTileContent]; the last case starts the fetch, and
    [image.decode().then(...)] leaves the image pending with the cell its
    continuation will write. *)
Definition createTileContent (coord : Point) (zoom lod : Z) (st : State)
    : option (list Element * State) :=
  let '((fromLarger, difference), st) := tileFromLarger zoom coord lod st in
  if isZero difference then Some ([nullable fromLarger], st)
  else
    match tileFromSmaller zoom coord lod
            (orElse difference (maxOversample st + 1)) st with
    | None => None
    | Some ((fromSmaller, complete), st) =>
        if complete : bool then Some ([CanvasEl fromSmaller], st)
        else
          let '(image, st) := fetchTile zoom coord lod st in
          let content :=
            match fromLarger with
            | Some canvas => [CanvasEl canvas]
            | None => []
            end ++ [CanvasEl fromSmaller; ImageEl image] in
          Some (content, setPending (pending st ++ [mkFetch zoom coord lod image]) st)
    end.

(** [Math.max(Math.min(this.levelOfDetail - zoom, this.maxOversample), 0)] *)
Definition targetLod (st : State) (zoom : Z) : Z :=
  Z.max (Z.min (levelOfDetail st - zoom) (maxOversample st)) 0.

Definition getTileContent (coord : Point) (zoom : Z) (st : State)
    : option (list Element * State) :=
  let lod := targetLod st zoom in
  match cacheGet (imageCache st) zoom (py coord) (px coord) lod with
  | Some cached => Some ([ImageEl cached], st)
  | None => createTileContent coord zoom lod st
  end.

(** [Map.prototype.set] on an insertion-ordered map. *)
Fixpoint mapSet {V} (key : Handle) (v : V) (m : list (Handle * V)) : list (Handle * V) :=
  match m with
  | [] => [(key, v)]
  | (k, w) :: m' => if decide (k = key) then (k, v) :: m' else (k, w) :: mapSet key v m'
  end.

(** [getTile]: the wrapping [div] and the content appended to it. *)
Definition getTile (coord : Point) (zoom : Z) (st : State)
    : option ((Handle * list Element) * State) :=
  let '(div, st) := createElement st in
  match getTileContent coord zoom st with
  | Some (content, st) =>
      Some ((div, content),
            setActiveTiles (mapSet div (mkTileParams coord zoom) (activeTiles st)) st)
  | None => None
  end.

Definition releaseTile (tile : Handle) (st : State) : State :=
  setActiveTiles (filter (λ e : Handle * TileParams, e.1 ≠ tile) (activeTiles st)) st.

(** [refreshTiles]: the new children of every registered [div]. *)
Definition refreshTiles (st : State) : option (list (Handle * list Element) * State) :=
  foldOpt
    (λ (acc : list (Handle * list Element) * State) (e : Handle * TileParams),
       match getTileContent (tpCoord e.2) (tpZoom e.2) acc.2 with
       | Some (content, st') => Some (acc.1 ++ [(e.1, content)], st')
       | None => None
       end)
    ([], st) (activeTiles st).

(** The continuation of [image.decode()] for the [k]-th pending image. *)
Definition decodeFulfilled (k : nat) (st : State) : option State :=
  match pending st !! k with
  | Some f =>
      Some (setPending (delete k (pending st))
              (setImageCache
                 (cacheStore (imageCache st) (fZoom f) (py (fCoord f))
                    (px (fCoord f)) (Z.to_nat (fLod f)) (fImage f)) st))
  | None => None
  end.

(** A rejected [decode()] has no handler: the image is dropped. *)
Definition decodeRejected (k : nat) (st : State) : option State :=
  match pending st !! k with
  | Some _ => Some (setPending (delete k (pending st)) st)
  | None => None
  end.

(** ** The engine as a transition system *)

Inductive Event :=
  | GetTile (coord : Point) (zoom : Z)
  | GetTileContent (coord : Point) (zoom : Z)
  | ReleaseTile (tile : Handle)
  | RefreshTiles
  | SetLevelOfDetail (v : Z)
  | SetMaxOversample (v : Z)
  | DecodeFulfilled (k : nat)
  | DecodeRejected (k : nat).

Definition step (st : State) (ev : Event) : option State :=
  match ev with
  | GetTile coord zoom => snd <$> getTile coord zoom st
  | GetTileContent coord zoom => snd <$> getTileContent coord zoom st
  | ReleaseTile tile => Some (releaseTile tile st)
  | RefreshTiles => snd <$> refreshTiles st
  | SetLevelOfDetail v => Some (setLevelOfDetail v st)
  | SetMaxOversample v => Some (setMaxOversample v st)
  | DecodeFulfilled k => decodeFulfilled k st
  | DecodeRejected k => decodeRejected k st
  end.

Definition run (st : State) (evs : list Event) : option State :=
  foldOpt step st evs.

(** ** Vocabulary for the geometry claims *)

(** The pixel ([x], [y]) lies in the rectangle. *)
Definition inRect (r : Rect) (x y : Z) : Prop :=
  rx r ≤ x < rx r + rw r ∧ ry r ≤ y < ry r + rh r.

(** A value fits a signed 32-bit integer. *)
Definition int32 (z : Z) : Prop := - 2 ^ 31 ≤ z < 2 ^ 31.

(** ** Vocabulary for the compositor claims *)

(** [self'] answers wherever [self] does, with the same answer. *)
Definition selfExtends {C} (self self' : @Self C) : Prop :=
  ∀ canvas coord drect zoom lod b r,
    self canvas coord drect zoom lod b = Some r →
    self' canvas coord drect zoom lod b = Some r.

(** The completeness answer of [self] does not depend on the canvas it
    draws on. *)
Definition canvasBlind {C} (self : @Self C) : Prop :=
  ∀ canvas canvas' coord drect zoom lod b,
    fst <$> self canvas coord drect zoom lod b
    = fst <$> self canvas' coord drect zoom lod b.

(** What the iteration for quadrant ([i], [j]) adds to the log of an
    activation ([quadrantBody_probe]). *)
Definition quadrantProbe (cache : Cache) (coord : Point) (drect : Rect)
    (zoom lod proxyBetterThan : Z) (ji : Z * Z) : list Probe :=
  let cc := quadrantCoord coord ji.2 ji.1 in
  let cd := quadrantRect drect ji.2 ji.1 in
  let mipmap := cacheMipmap cache zoom (py cc) (px cc) in
  match mipmap ≫= (λ m : Mipmap, mipmapGet m lod) with
  | Some child => [ProbeDraw child cd]
  | None =>
      match (proxyLookup mipmap lod proxyBetterThan).1 with
      | Some proxy => [ProbeDraw proxy cd]
      | None => []
      end ++ [ProbeCall cc cd (zoom + 1) (lod - 1)
                (proxyLookup mipmap lod proxyBetterThan).2]
  end.

(** The destination rectangle of a log entry. *)
Definition probeRect (p : Probe) : Rect :=
  match p with
  | ProbeDraw _ r => r
  | ProbeCall _ r _ _ _ => r
  end.

(** [callee] is one of the recursive calls that the activation [caller]
    issues. *)
Definition issues (cache : Cache) (callee caller : CallArgs) : Prop :=
  callee ∈ recursiveCalls cache caller.1.1.1.1 caller.1.1.1.2 caller.1.1.2
             caller.1.2 caller.2.

(** The measure of the recursion. *)
Definition measure (call : CallArgs) : Z := call.1.2 + call.2.

(** The cell [cc] of zoom level [zoom] is covered by exact hits for LOD
    [lod]: it holds an image at that LOD itself, or each of its four
    children is covered one zoom level finer and one LOD lower.  The
    leaves of a derivation are exact cache hits. *)
Inductive Covered (cache : Cache) : Point → Z → Z → Prop :=
  | Covered_exact cc zoom lod :
      is_Some (cacheGet cache zoom (py cc) (px cc) lod) →
      Covered cache cc zoom lod
  | Covered_split cc zoom lod :
      (∀ j i, (j, i) ∈ quadrants →
         Covered cache (quadrantCoord cc i j) (zoom + 1) (lod - 1)) →
      Covered cache cc zoom lod.

(** The outcome of the iteration for quadrant ([i], [j]), given as
    [ji] = ([j], [i]): an exact hit at the child cell, or else a complete
    recursive composite over it. *)
Definition quadrantComplete {C} (self : @Self C) (cache : Cache) (coord : Point)
    (drect : Rect) (zoom lod proxyBetterThan : Z) (ji : Z * Z) : Prop :=
  let cc := quadrantCoord coord ji.2 ji.1 in
  is_Some (cacheGet cache zoom (py cc) (px cc) lod)
  ∨ ∃ cv cv', self cv cc (quadrantRect drect ji.2 ji.1) (zoom + 1) (lod - 1)
                (proxyLookup (cacheMipmap cache zoom (py cc) (px cc)) lod
                   proxyBetterThan).2
              = Some (true, cv').

(** ** Vocabulary for the engine claims *)

(** The states the engine can be in: a freshly constructed map type, then
    any sequence of calls, option changes and decode completions. *)
Inductive reachable : State → Prop :=
  | reachable_new tileSize levelOfDetail maxOversample :
      reachable (newWmsMapType tileSize levelOfDetail maxOversample)
  | reachable_step st ev st' :
      reachable st → step st ev = Some st' → reachable st'.

(** [st'] differs from [st] at most by elements created and by fetches
    started, each for a non-negative LOD: the cache, the options and the
    registry are the same. *)
Definition quiet (st st' : State) : Prop :=
  imageCache st' = imageCache st
  ∧ tileSize st' = tileSize st
  ∧ levelOfDetail st' = levelOfDetail st
  ∧ maxOversample st' = maxOversample st
  ∧ activeTiles st' = activeTiles st
  ∧ ∃ fetches, pending st' = pending st ++ fetches
               ∧ Forall (λ f, 0 ≤ fLod f) fetches.

(** ** Vocabulary for the larger-tile claims *)

(** What the search loop of [tileFromLarger] maintains about [best]: it
    names an ancestor level between 0 and [zoom], the ancestor cell of
    [coord] at that level, and an image that the cache holds for that
    cell at some LOD. *)
Definition bestOk (cache : Cache) (zoom : Z) (coord : Point) (best : option Best) : Prop :=
  match best with
  | None => True
  | Some best =>
      0 ≤ bLevelsAbove best ≤ zoom
      ∧ bX best = sar (px coord) (bLevelsAbove best)
      ∧ bY best = sar (py coord) (bLevelsAbove best)
      ∧ ∃ l : nat,
          cacheGet cache (zoom - bLevelsAbove best) (bY best) (bX best) (Z.of_nat l)
          = Some (bImage best)
  end.

(** ** Example data *)

(** The cache after storing the given (zoom, y, x, lod, image) entries in
    order. *)
Definition cacheOf (entries : list (Z * Z * Z * nat * Image)) : Cache :=
  foldl (λ cache '(zoom, y, x, lod, image), cacheStore cache zoom y x lod image)
    ∅ entries.

(** Zoom 1 holds LOD 1 for three of the four cells; the fourth, (0, 0), is
    missing, but its four children at zoom 2 hold LOD 0. *)
Definition cacheThreeAndFour : Cache :=
  cacheOf [(1, 0, 1, 1%nat, 21%nat); (1, 1, 0, 1%nat, 22%nat); (1, 1, 1, 1%nat, 23%nat);
           (2, 0, 0, 0%nat, 31%nat); (2, 0, 1, 0%nat, 32%nat);
           (2, 1, 0, 0%nat, 33%nat); (2, 1, 1, 0%nat, 34%nat)].

(** Two caches that agree on the cell (zoom 1, y 0, x 0), which holds
    LOD 2 only, and differ on its sibling (zoom 1, y 0, x 1). *)
Definition cacheLeft : Cache := cacheOf [(1, 0, 0, 2%nat, 10%nat)].

Definition cacheLeftRight : Cache :=
  cacheOf [(1, 0, 0, 2%nat, 10%nat); (1, 0, 1, 0%nat, 11%nat)].

(** A default map type whose cache holds LOD 0 of the cell (zoom 5, y 3,
    x 7). *)
Definition stateWithTile : State :=
  setImageCache (cacheOf [(5, 3, 7, 0%nat, 9%nat)]) (newWmsMapType None None None).

(** A map type with [levelOfDetail = 2] after the tile (zoom 0, (0, 0)) was
    requested and its image, fetched at LOD 2, was decoded. *)
Definition stateWithAncestor : option State :=
  run (newWmsMapType None (Some 2) None)
    [GetTile (mkPoint 0 0) 0; DecodeFulfilled 0%nat].

(** A default map type after the tile (zoom 0, (0, 0)) was requested twice
    and the image of the first request was decoded; the image of the second
    request is still pending. *)
Definition stateOneOfTwoDecoded : State :=
  default (newWmsMapType None None None)
    (run (newWmsMapType None None None)
       [GetTile (mkPoint 0 0) 0; GetTile (mkPoint 0 0) 0; DecodeFulfilled 0%nat]).

(** A map type with [levelOfDetail = 1] after the tile (zoom 0, (0, 0)) was
    requested and its image (handle 2), fetched at LOD 1, was decoded. *)
Definition stateWithCoarseTile : State :=
  default (newWmsMapType None (Some 1) None)
    (run (newWmsMapType None (Some 1) None)
       [GetTile (mkPoint 0 0) 0; DecodeFulfilled 0%nat]).

(** ** Tactics *)

(** The four cases of a membership in [quadrants], once unfolded. *)
Ltac quadrant_cases H :=
  destruct H as [H|[H|[H|H]]]; inversion H; subst; clear H.

(** * The request, and further vocabulary *)

(** ** The [url] property *)

(** A JavaScript string, as the list of its UTF-16 code units. *)
Abbreviation JsString := (list N).

(** ["?"] *)
Definition questionMark : JsString := [63%N].

(** [value.slice(-1)]: the last code unit, or the empty string. *)
Definition sliceLast (value : JsString) : JsString :=
  match last value with
  | Some unit => [unit]
  | None => []
  end.

(** [set url(value)]: the value that ends up in [_url]. *)
Definition setUrl (value : JsString) : JsString :=
  if decide (sliceLast value ≠ questionMark) then value ++ questionMark else value.

(** ** Vocabulary for the larger-tile search *)

(** The image that the ancestor cell of [coord], [levelsAbove] levels up,
    holds at LOD [l]. *)
Definition ancestorEntry (cache : Cache) (zoom : Z) (coord : Point)
    (levelsAbove : Z) (l : nat) : option Image :=
  cacheGet cache (zoom - levelsAbove) (sar (py coord) levelsAbove)
    (sar (px coord) levelsAbove) (Z.of_nat l).

(** The difference [tileFromLarger] computes for an ancestor entry: its
    LOD against [lod + levelsAbove]. *)
Definition ancestorDifference (lod levelsAbove : Z) (l : nat) : Z :=
  lodDistance (lod + levelsAbove) l.

(** The order in which the search prefers ancestor entries, given as
    ([levelsAbove], LOD): smaller difference first, then the nearer
    ancestor, then the lower LOD. *)
Definition preferred (lod : Z) (c c' : Z * nat) : Prop :=
  ancestorDifference lod c.1 c.2 < ancestorDifference lod c'.1 c'.2
  ∨ (ancestorDifference lod c.1 c.2 = ancestorDifference lod c'.1 c'.2
     ∧ (c.1 < c'.1 ∨ (c.1 = c'.1 ∧ (c.2 ≤ c'.2)%nat))).

(** The state of the search loop after the levels below [upto]: nothing
    found and no entry there, or the most preferred entry of those
    levels. *)
Definition searched (cache : Cache) (zoom : Z) (coord : Point) (lod upto : Z)
    (acc : option Z * option Best) : Prop :=
  match acc with
  | (None, None) =>
      ∀ levelsAbove l, 0 ≤ levelsAbove < upto →
        ancestorEntry cache zoom coord levelsAbove l = None
  | (Some difference, Some best) =>
      0 ≤ bLevelsAbove best < upto
      ∧ bX best = sar (px coord) (bLevelsAbove best)
      ∧ bY best = sar (py coord) (bLevelsAbove best)
      ∧ ∃ l : nat,
          ancestorEntry cache zoom coord (bLevelsAbove best) l = Some (bImage best)
          ∧ difference = ancestorDifference lod (bLevelsAbove best) l
          ∧ ∀ levelsAbove l' image, 0 ≤ levelsAbove < upto →
              ancestorEntry cache zoom coord levelsAbove l' = Some image →
              preferred lod (bLevelsAbove best, l) (levelsAbove, l')
  | _ => False
  end.

(** ** Vocabulary for the compositor's draws *)

(** The rectangle [r] has a non-negative size and lies inside [outer]. *)
Definition insideRect (r outer : Rect) : Prop :=
  0 ≤ rw r ∧ 0 ≤ rh r
  ∧ rx outer ≤ rx r ∧ rx r + rw r ≤ rx outer + rw outer
  ∧ ry outer ≤ ry r ∧ ry r + rh r ≤ ry outer + rh outer.

(** The cache holds [image] in a cell of a zoom level from [zoom] to
    [upto]. *)
Definition cachedFrom (cache : Cache) (zoom upto : Z) (image : Image) : Prop :=
  ∃ zoom' y x lod, zoom ≤ zoom' ≤ upto ∧ cacheGet cache zoom' y x lod = Some image.

(** What a composite adds to the canvas: [canvas'] is [canvas] followed by
    draws of cached images of the zoom levels [zoom] to [upto], each
    inside [drect]. *)
Definition paintsInside (cache : Cache) (drect : Rect) (zoom upto : Z)
    (canvas canvas' : list DrawOp) : Prop :=
  ∃ draws,
    canvas' = canvas ++ draws
    ∧ Forall (λ d, insideRect (dRect d) drect ∧ cachedFrom cache zoom upto (dImage d)) draws.

(** ** Vocabulary for the engine's misses *)

(** The cache alone can show the tile at LOD [lod]: the cell holds it, or
    an ancestor cell (at level 0 the cell itself, with its coordinates as
    32-bit integers) holds the LOD that matches it exactly
    ([lod + levelsAbove]), or its four children are covered by exact hits
    one zoom level finer and one LOD lower. *)
Definition servedFromCache (cache : Cache) (coord : Point) (zoom lod : Z) : Prop :=
  is_Some (cacheGet cache zoom (py coord) (px coord) lod)
  ∨ (∃ levelsAbove, 0 ≤ levelsAbove ≤ zoom
       ∧ is_Some (cacheGet cache (zoom - levelsAbove) (sar (py coord) levelsAbove)
                    (sar (px coord) levelsAbove) (lod + levelsAbove)))
  ∨ (∀ j i, (j, i) ∈ quadrants →
       Covered cache (quadrantCoord coord i j) (zoom + 1) (lod - 1)).

(** ** Vocabulary for runs of the engine *)

(** The event is not an assignment to [levelOfDetail] or [maxOversample]. *)
Definition keepsOptions (ev : Event) : bool :=
  match ev with
  | SetLevelOfDetail _ | SetMaxOversample _ => false
  | _ => true
  end.

(** A default map type after the content of the tile (zoom 0, (0, 0)) was
    requested: a blank composite (handle 0) is shown and the image
    (handle 1) is pending. *)
Definition stateRequested : State :=
  default (newWmsMapType None None None)
    (run (newWmsMapType None None None) [GetTileContent (mkPoint 0 0) 0]).

(** [stateRequested] after the tile (zoom 1, (1, 0)) was requested as well. *)
Definition stateRequestedNext : State :=
  default stateRequested (run stateRequested [GetTile (mkPoint 1 0) 1]).

(** ** Vocabulary for elements and their handles *)

(** What a request does to the state: it creates elements, so the handle
    counter grows, and it may start fetches, each with an image created
    meanwhile, no image twice, and for the LOD requested for its zoom
    level.  Everything else stays. *)
Definition started (st st' : State) : Prop :=
  ∃ (h : Handle) (fetches : list Fetch),
    st' = setPending (pending st ++ fetches) (setNextHandle h st)
    ∧ (nextHandle st ≤ h)%nat
    ∧ NoDup (fImage <$> fetches)
    ∧ Forall (λ f, (nextHandle st ≤ fImage f < h)%nat
                   ∧ fLod f = targetLod st (fZoom f)) fetches.

(** The registered [div]s and the images still loading. *)
Definition divs (st : State) : list Handle := (activeTiles st).*1.

Definition loading (st : State) : list Image := fImage <$> pending st.

(** The cache holds [image] somewhere. *)
Definition cached (cache : Cache) (image : Image) : Prop :=
  ∃ zoom y x lod, cacheGet cache zoom y x lod = Some image.

(** Elements are created once and used once: the registered [div]s and the
    loading images are pairwise different elements created earlier, a
    cached image was created earlier and is neither of those, and no image
    is cached in two places. *)
Definition handlesOk (st : State) : Prop :=
  NoDup (divs st ++ loading st)
  ∧ Forall (λ h, (h < nextHandle st)%nat) (divs st ++ loading st)
  ∧ (∀ image, cached (imageCache st) image →
       (image < nextHandle st)%nat ∧ image ∉ divs st ++ loading st)
  ∧ (∀ zoom y x lod zoom' y' x' lod' image,
       cacheGet (imageCache st) zoom y x lod = Some image →
       cacheGet (imageCache st) zoom' y' x' lod' = Some image →
       zoom = zoom' ∧ y = y' ∧ x = x' ∧ lod = lod').

(** ** Vocabulary for the registry *)

(** The image that the cache holds for a registered tile at the LOD
    requested for its zoom level now. *)
Definition cachedTile (st : State) (params : TileParams) : option Image :=
  cacheGet (imageCache st) (tpZoom params) (py (tpCoord params)) (px (tpCoord params))
    (targetLod st (tpZoom params)).

(** A default map type after its first tile, (zoom 0, (0, 0)), was
    requested: the [div] has handle 0, the blank composite handle 1, and
    the image (handle 2) is pending. *)
Definition stateFirstTile : State :=
  default (newWmsMapType None None None)
    (run (newWmsMapType None None None) [GetTile (mkPoint 0 0) 0]).

(** ** Vocabulary for the LODs in use *)

(** Every cached image and every loading image belongs to the LOD that
    is requested for its zoom level now. *)
Definition lodsCurrent (st : State) : Prop :=
  (∀ zoom y x lod image,
     cacheGet (imageCache st) zoom y x lod = Some image → lod = targetLod st zoom)
  ∧ Forall (λ f, fLod f = targetLod st (fZoom f)) (pending st).

(** ** The tile request *)

(** [tileSizeParam] of [getTileUrl], before [String(...)]: the number
    [this._tileSize << lod] that is sent as [width] and [height]. *)
Definition tileSizeParam (st : State) (lod : Z) : Z := shl (tileSize st) lod.

(** A map type with [levelOfDetail = 5] and the defaults otherwise. *)
Definition stateDetailed : State := newWmsMapType None (Some 5) None.

(** [xyzToBounds].  The coordinates, the zoom level and the tile size are
    integers; the bounds are doubles, which are kept abstract here: [F]
    with the operations of the source, whatever their rounding. *)
Section Bounds.
Context {F : Type}.
Variable ofZ : Z → F.
Variables fadd fsub fmul fdiv : F → F → F.
Variable fneg : F → F.
Variable EPSG_3857_EXTENT : F.

Definition ORIG_X : F := fneg EPSG_3857_EXTENT.

Definition ORIG_Y : F := EPSG_3857_EXTENT.

(** [1 << zoom + 7] *)
Definition boundsDivisor (zoom : Z) : Z := shl 1 (zoom + 7).

Definition xyzToBounds (x y zoom tileSize : Z) : list F :=
  let wmsTileSize :=
    fdiv (fmul EPSG_3857_EXTENT (ofZ tileSize)) (ofZ (boundsDivisor zoom)) in
  let minx := fadd ORIG_X (fmul (ofZ x) wmsTileSize) in
  let maxx := fadd ORIG_X (fmul (ofZ (x + 1)) wmsTileSize) in
  let miny := fsub ORIG_Y (fmul (ofZ (y + 1)) wmsTileSize) in
  let maxy := fsub ORIG_Y (fmul (ofZ y) wmsTileSize) in
  [minx; miny; maxx; maxy].

End Bounds.

(** [stateWithTile] after the content of the tile (zoom 6, (14, 6)), a
    child of the cached tile, was requested. *)
Definition stateWithTileChild : State :=
  default stateWithTile (run stateWithTile [GetTileContent (mkPoint 14 6) 6]).

(** * Properties *)

(** ** Mipmap search *)

Lemma entry_nil (lod : nat) : entry [] lod = None.
Proof. reflexivity. Qed.

Lemma entry_cons_0 (slot : option Image) (rest : Mipmap) : entry (slot :: rest) 0 = slot.
Proof. unfold entry. simpl. by destruct slot. Qed.

Lemma entry_cons_S (slot : option Image) (rest : Mipmap) (k : nat) :
  entry (slot :: rest) (S k) = entry rest k.
Proof. reflexivity. Qed.

Lemma geUndef_false_eligible (d : Z) (b : option Z) :
  geUndef d b = false ↔ eligible b d.
Proof.
  destruct b as [b|]; simpl; [|done].
  rewrite Z.leb_gt. done.
Qed.

(** The state of the scan after the slots of [arr], which sit at the
    indices [i], [i+1], ... of the mipmap: either nothing in [arr] beat the
    running bound, or the pair is the first nearest slot of [arr]. *)
Lemma forEachFrom_nearest (targetLod : Z) (arr : Mipmap) :
  ∀ (i : nat) (bestImage : option Image) (bestDifference : option Z),
    let r := forEachFrom (nearestStep targetLod) i arr (bestImage, bestDifference) in
    (r = (bestImage, bestDifference)
     ∧ ∀ (k : nat) image, entry arr k = Some image →
         ¬ eligible bestDifference (lodDistance targetLod (i + k)))
    ∨ (∃ (k : nat) image,
         entry arr k = Some image
         ∧ r = (Some image, Some (lodDistance targetLod (i + k)))
         ∧ eligible bestDifference (lodDistance targetLod (i + k))
         ∧ ∀ (k' : nat) image', entry arr k' = Some image' →
             eligible bestDifference (lodDistance targetLod (i + k')) →
             lodDistance targetLod (i + k) < lodDistance targetLod (i + k')
             ∨ (lodDistance targetLod (i + k) = lodDistance targetLod (i + k')
                ∧ (k ≤ k')%nat)).
Proof.
  induction arr as [|slot rest IH]; intros i bestImage bestDifference; simpl.
  - left. split; [done|]. intros k image Hk. by rewrite entry_nil in Hk.
  - destruct slot as [image0|].
    + (* a populated slot at index i *)
      assert (Hstep : nearestStep targetLod (bestImage, bestDifference) image0 i
                = if geUndef (lodDistance targetLod (i + 0)) bestDifference
                  then (bestImage, bestDifference)
                  else (Some image0, Some (lodDistance targetLod (i + 0)))).
      { unfold nearestStep, lodDistance. simpl.
        replace (Z.of_nat (i + 0)) with (Z.of_nat i) by lia.
        by destruct (geUndef _ _). }
      rewrite Hstep. clear Hstep.
      destruct (geUndef (lodDistance targetLod (i + 0)) bestDifference) eqn:Hge.
      * (* not better: the pair is kept *)
        assert (Hnot : ¬ eligible bestDifference (lodDistance targetLod (i + 0))).
        { rewrite <- geUndef_false_eligible. by rewrite Hge. }
        destruct (IH (S i) bestImage bestDifference) as [[Hr Hall]|(k & image & Hk & Hr & Hel & Hmin)].
        -- left. split; [done|]. intros [|k] image Hk.
           ++ done.
           ++ rewrite entry_cons_S in Hk. specialize (Hall k image Hk).
              by replace (i + S k)%nat with (S i + k)%nat by lia.
        -- right. exists (S k), image. rewrite entry_cons_S.
           replace (i + S k)%nat with (S i + k)%nat by lia.
           split_and!; [done..|].
           intros [|k'] image' Hk' Hel'; [done|].
           rewrite entry_cons_S in Hk'.
           replace (i + S k')%nat with (S i + k')%nat in * by lia.
           destruct (Hmin k' image' Hk' Hel') as [?|[? ?]]; [by left|right; split; [done|lia]].
      * (* strictly better, or no bound yet: the slot is taken *)
        assert (Hel0 : eligible bestDifference (lodDistance targetLod (i + 0))).
        { by rewrite <- geUndef_false_eligible. }
        destruct (IH (S i) (Some image0) (Some (lodDistance targetLod (i + 0))))
          as [[Hr Hall]|(k & image & Hk & Hr & Hel & Hmin)].
        -- right. exists 0%nat, image0. rewrite entry_cons_0.
           split_and!; [done..|].
           intros [|k'] image' Hk' Hel'; [right; split; [done|lia]|].
           rewrite entry_cons_S in Hk'. specialize (Hall k' image' Hk').
           unfold eligible in Hall. replace (i + S k')%nat with (S i + k')%nat by lia.
           assert (lodDistance targetLod (i + 0) ≤ lodDistance targetLod (S i + k')) by lia.
           destruct (decide (lodDistance targetLod (i + 0) = lodDistance targetLod (S i + k')));
             [right; split; [done|lia]|left; lia].
        -- right. exists (S k), image. rewrite entry_cons_S.
           replace (i + S k)%nat with (S i + k)%nat by lia.
           unfold eligible in Hel.
           split_and!; [done|done| |].
           { destruct bestDifference as [b|]; unfold eligible in *; [lia|done]. }
           intros [|k'] image' Hk' Hel'; [left; lia|].
           rewrite entry_cons_S in Hk'.
           replace (i + S k')%nat with (S i + k')%nat in * by lia.
           destruct (decide (lodDistance targetLod (S i + k') < lodDistance targetLod (i + 0))) as [Hlt|Hge'].
           ++ destruct (Hmin k' image' Hk' Hlt) as [?|[? ?]]; [by left|right; split; [done|lia]].
           ++ left. lia.
    + (* a hole *)
      destruct (IH (S i) bestImage bestDifference) as [[Hr Hall]|(k & image & Hk & Hr & Hel & Hmin)].
      * left. split; [done|]. intros [|k] image Hk; [done|].
        rewrite entry_cons_S in Hk. specialize (Hall k image Hk).
        by replace (i + S k)%nat with (S i + k)%nat by lia.
      * right. exists (S k), image. rewrite entry_cons_S.
        replace (i + S k)%nat with (S i + k)%nat by lia.
        split_and!; [done..|].
        intros [|k'] image' Hk' Hel'; [done|].
        rewrite entry_cons_S in Hk'.
        replace (i + S k')%nat with (S i + k')%nat in * by lia.
        destruct (Hmin k' image' Hk' Hel') as [?|[? ?]]; [by left|right; split; [done|lia]].
Qed.

(** C6: [findNearestLod] returns the populated entry nearest to the target
    LOD among those whose difference is strictly below [betterThan] (all of
    them when [betterThan] is undefined), the lowest LOD among equally near
    ones, together with that difference; when no entry qualifies it returns
    [undefined] and [betterThan] unchanged.  For the mipmap
    [{0: imgA, 3: imgB}] and target 2 it returns [imgB] with difference 1. *)
Theorem findNearestLod_nearest (mipmap : Mipmap) (targetLod : Z)
    (betterThan : option Z) (imgA imgB : Image) :
  match findNearestLod mipmap targetLod betterThan with
  | (Some image, difference) =>
      ∃ lod : nat,
        entry mipmap lod = Some image
        ∧ difference = Some (lodDistance targetLod lod)
        ∧ eligible betterThan (lodDistance targetLod lod)
        ∧ ∀ (lod' : nat) image', entry mipmap lod' = Some image' →
            eligible betterThan (lodDistance targetLod lod') →
            lodDistance targetLod lod < lodDistance targetLod lod'
            ∨ (lodDistance targetLod lod = lodDistance targetLod lod'
               ∧ (lod ≤ lod')%nat)
  | (None, difference) =>
      difference = betterThan
      ∧ ∀ (lod' : nat) image', entry mipmap lod' = Some image' →
          ¬ eligible betterThan (lodDistance targetLod lod')
  end
  ∧ findNearestLod [Some imgA; None; None; Some imgB] 2 None = (Some imgB, Some 1).
Proof.
  split; [|reflexivity].
  unfold findNearestLod, forEach.
  destruct (forEachFrom_nearest targetLod mipmap 0 None betterThan)
    as [[Hr Hall]|(k & image & Hk & Hr & Hel & Hmin)]; simpl in *.
  - rewrite Hr. split; [done|]. intros lod' image' Hk'. exact (Hall lod' image' Hk').
  - rewrite Hr. exists k. split_and!; [done..|]. intros lod' image' Hk' Hel'.
    exact (Hmin lod' image' Hk' Hel').
Qed.

(** ** Smaller-tile compositor: termination *)

(** A defined bound comes back defined and never larger; when a proxy is
    returned the new bound is its difference, non-negative and strictly
    smaller. *)
Lemma findNearestLod_bound_defined (mipmap : Mipmap) (targetLod b : Z) :
  ∃ (proxy : option Image) (b' : Z),
    findNearestLod mipmap targetLod (Some b) = (proxy, Some b')
    ∧ b' ≤ b
    ∧ (proxy = None → b' = b)
    ∧ (is_Some proxy → 0 ≤ b' < b).
Proof.
  unfold findNearestLod, forEach.
  destruct (forEachFrom_nearest targetLod mipmap 0 None (Some b))
    as [[Hr _]|(k & image & _ & Hr & Hel & _)]; cbv zeta in Hr; rewrite Hr.
  - exists None, b. split_and!; [done|lia|done|]. by intros [? ?].
  - unfold eligible in Hel. eexists _, _. split; [done|].
    unfold lodDistance in *. split_and!; [lia|done|lia].
Qed.

Lemma proxyLookup_le (mipmap : option Mipmap) (lod b : Z) :
  (proxyLookup mipmap lod b).2 ≤ b.
Proof.
  unfold proxyLookup. destruct mipmap as [m|]; simpl; [|lia].
  destruct (findNearestLod_bound_defined m lod b) as (proxy & b' & -> & Hle & _).
  simpl. lia.
Qed.

Section CompositorFacts.
Context {C : Type} `{!CanvasRenderingContext2D C}.

Lemma quadrantBody_mono (self self' : @Self C) cache coord drect zoom lod b acc ji r :
  selfExtends self self' →
  quadrantBody self cache coord drect zoom lod b acc ji = Some r →
  quadrantBody self' cache coord drect zoom lod b acc ji = Some r.
Proof.
  intros Hext. unfold quadrantBody. destruct acc as [complete canvas], ji as [j i].
  destruct (_ ≫= _); [done|].
  destruct (proxyLookup _ _ _) as [proxy nb].
  destruct (self _ _ _ _ _ _) as [[sub cv]|] eqn:Hself; [|done].
  by rewrite (Hext _ _ _ _ _ _ _ Hself).
Qed.

Lemma foldOpt_mono {A B} (f g : A → B → option A) (l : list B) :
  (∀ a b r, f a b = Some r → g a b = Some r) →
  ∀ acc r, foldOpt f acc l = Some r → foldOpt g acc l = Some r.
Proof.
  intros Hfg. induction l as [|b l IH]; intros acc r; simpl; [done|].
  destruct (f acc b) as [acc'|] eqn:Hf; [|done].
  rewrite (Hfg _ _ _ Hf). apply IH.
Qed.

Lemma compositeBody_mono (self self' : @Self C) cache canvas coord drect zoom lod b r :
  selfExtends self self' →
  compositeBody self cache canvas coord drect zoom lod b = Some r →
  compositeBody self' cache canvas coord drect zoom lod b = Some r.
Proof.
  intros Hext. unfold compositeBody. destruct (_ <? _); [done|].
  apply foldOpt_mono. intros acc ji r'. by apply quadrantBody_mono.
Qed.

(** More fuel never changes an answer. *)
Lemma compositeFromSmaller_fuel_mono (n m : nat) cache :
  (n ≤ m)%nat →
  selfExtends (compositeFromSmaller_fuel n cache) (compositeFromSmaller_fuel m cache).
Proof.
  revert m. induction n as [|n IH]; intros m Hnm canvas coord drect zoom lod b r; [done|].
  destruct m as [|m]; [lia|]. simpl.
  apply compositeBody_mono. apply IH. lia.
Qed.

Lemma foldOpt_is_Some {A B} (f : A → B → option A) (l : list B) :
  (∀ a b, b ∈ l → is_Some (f a b)) → ∀ acc, is_Some (foldOpt f acc l).
Proof.
  induction l as [|b l IH]; intros Hf acc; simpl; [done|].
  destruct (Hf acc b) as [acc' ->]; [left|]. apply IH. intros a b' Hb'. apply Hf. by right.
Qed.

(** The depth [compositeDepth] suffices. *)
Lemma compositeFromSmaller_fuel_enough (fuel : nat) cache :
  ∀ (canvas : C) coord drect zoom lod b,
    (compositeDepth lod b ≤ fuel)%nat →
    is_Some (compositeFromSmaller_fuel fuel cache canvas coord drect zoom lod b).
Proof.
  induction fuel as [|fuel IH]; intros canvas coord drect zoom lod b Hfuel.
  - unfold compositeDepth in Hfuel. lia.
  - simpl. unfold compositeBody. destruct (Z.ltb_spec (lod + b) 0) as [Hneg|Hpos]; [done|].
    apply foldOpt_is_Some. intros [complete cv] [j i] _. unfold quadrantBody.
    destruct (_ ≫= _); [done|].
    pose proof (proxyLookup_le
      (cacheMipmap cache zoom (py (quadrantCoord coord i j)) (px (quadrantCoord coord i j)))
      lod b) as Hle.
    destruct (proxyLookup _ _ _) as [proxy nb]. simpl in Hle.
    destruct (IH (match proxy with Some p => drawImage cv p (quadrantRect drect i j) | None => cv end)
                (quadrantCoord coord i j) (quadrantRect drect i j) (zoom + 1) (lod - 1) nb)
      as [[sub cv'] ->]; [|done].
    unfold compositeDepth in *. lia.
Qed.

End CompositorFacts.

Section CompositorUnfold.
Context {C : Type} `{!CanvasRenderingContext2D C}.

Lemma foldOpt_ext {A B} (f g : A → B → option A) (l : list B) :
  (∀ a b, b ∈ l → f a b = g a b) → ∀ acc, foldOpt f acc l = foldOpt g acc l.
Proof.
  induction l as [|b l IH]; intros Hfg acc; simpl; [done|].
  rewrite (Hfg acc b); [|left]. destruct (g acc b) as [acc1|]; [|done].
  apply IH. intros a b' Hb'. apply Hfg. by right.
Qed.

(** The body consults [self] only past the guard, one zoom level finer,
    one LOD lower and under a bound that is not larger. *)
Lemma compositeBody_ext (self self' : @Self C) cache canvas coord drect zoom lod b :
  (∀ cv cc cd nb, nb ≤ b → 0 ≤ lod + b →
     self cv cc cd (zoom + 1) (lod - 1) nb = self' cv cc cd (zoom + 1) (lod - 1) nb) →
  compositeBody self cache canvas coord drect zoom lod b
  = compositeBody self' cache canvas coord drect zoom lod b.
Proof.
  intros Hext. unfold compositeBody.
  destruct (Z.ltb_spec (lod + b) 0) as [Hneg|Hpos]; [done|].
  apply foldOpt_ext. intros [complete cv] [j i] _. unfold quadrantBody.
  destruct (_ ≫= _); [done|].
  pose proof (proxyLookup_le
    (cacheMipmap cache zoom (py (quadrantCoord coord i j)) (px (quadrantCoord coord i j)))
    lod b) as Hle.
  destruct (proxyLookup _ _ _) as [proxy nb]. simpl in Hle.
  by rewrite Hext.
Qed.

(** With enough fuel the answer is the one of [compositeFromSmaller]. *)
Lemma compositeFromSmaller_fuel_eq (fuel : nat) cache (canvas : C) coord drect zoom lod b :
  (compositeDepth lod b ≤ fuel)%nat →
  compositeFromSmaller_fuel fuel cache canvas coord drect zoom lod b
  = compositeFromSmaller cache canvas coord drect zoom lod b.
Proof.
  intros Hfuel. unfold compositeFromSmaller.
  destruct (compositeFromSmaller_fuel_enough (compositeDepth lod b) cache
              canvas coord drect zoom lod b) as [r Hr]; [done|].
  rewrite Hr. by apply (compositeFromSmaller_fuel_mono _ _ cache Hfuel).
Qed.

(** The recursion equation of [compositeFromSmaller]. *)
Lemma compositeFromSmaller_unfold cache (canvas : C) coord drect zoom lod b :
  compositeFromSmaller cache canvas coord drect zoom lod b
  = compositeBody (compositeFromSmaller cache) cache canvas coord drect zoom lod b.
Proof.
  unfold compositeFromSmaller at 1.
  change (compositeFromSmaller_fuel (compositeDepth lod b) cache canvas coord drect zoom lod b)
    with (compositeBody (compositeFromSmaller_fuel (Z.to_nat (lod + b + 1)) cache)
            cache canvas coord drect zoom lod b).
  apply compositeBody_ext. intros cv cc cd nb Hle Hpos.
  apply compositeFromSmaller_fuel_eq. unfold compositeDepth. lia.
Qed.

Lemma compositeFromSmaller_is_Some cache (canvas : C) coord drect zoom lod b :
  is_Some (compositeFromSmaller cache canvas coord drect zoom lod b).
Proof. by apply compositeFromSmaller_fuel_enough. Qed.

End CompositorUnfold.

(** *** The log of one activation *)

Lemma quadrantBody_probe cache coord drect zoom lod b complete log ji :
  quadrantBody probeSelf cache coord drect zoom lod b (complete, log) ji
  = Some (complete, log ++ quadrantProbe cache coord drect zoom lod b ji).
Proof.
  unfold quadrantBody, quadrantProbe. destruct ji as [j i]. simpl.
  destruct (_ ≫= _); [done|].
  destruct (proxyLookup _ _ _) as [[proxy|] nb]; simpl; unfold probeSelf, drawImage, probeLog.
  - by rewrite <- app_assoc.
  - done.
Qed.

Lemma foldOpt_probe cache coord drect zoom lod b (qs : list (Z * Z)) :
  ∀ complete log,
    foldOpt (quadrantBody probeSelf cache coord drect zoom lod b) (complete, log) qs
    = Some (complete, log ++ concat (quadrantProbe cache coord drect zoom lod b <$> qs)).
Proof.
  induction qs as [|q qs IH]; intros complete log.
  - simpl. by rewrite app_nil_r.
  - rewrite fmap_cons. cbn [foldOpt concat].
    rewrite quadrantBody_probe, IH. by rewrite <- app_assoc.
Qed.

Lemma activation_eq cache coord drect zoom lod b :
  activation cache coord drect zoom lod b
  = if lod + b <? 0 then []
    else concat (quadrantProbe cache coord drect zoom lod b <$> quadrants).
Proof.
  unfold activation, compositeBody. destruct (_ <? _); [done|].
  by rewrite foldOpt_probe.
Qed.

(** The recursive call, if any, that the iteration for one quadrant issues. *)
Lemma callsIn_quadrantProbe cache coord drect zoom lod b (ji : Z * Z) :
  callsIn (quadrantProbe cache coord drect zoom lod b ji)
  = let cc := quadrantCoord coord ji.2 ji.1 in
    let mipmap := cacheMipmap cache zoom (py cc) (px cc) in
    match mipmap ≫= (λ m : Mipmap, mipmapGet m lod) with
    | Some _ => []
    | None => [(cc, quadrantRect drect ji.2 ji.1, zoom + 1, lod - 1,
                (proxyLookup mipmap lod b).2)]
    end.
Proof.
  unfold quadrantProbe, callsIn. simpl. destruct (_ ≫= _); [done|].
  by destruct ((proxyLookup _ _ _).1).
Qed.

Lemma callsIn_app (l1 l2 : list Probe) : callsIn (l1 ++ l2) = callsIn l1 ++ callsIn l2.
Proof. unfold callsIn. apply omap_app. Qed.

Lemma recursiveCalls_eq cache coord drect zoom lod b :
  recursiveCalls cache coord drect zoom lod b
  = if lod + b <? 0 then []
    else concat ((λ ji, callsIn (quadrantProbe cache coord drect zoom lod b ji)) <$> quadrants).
Proof.
  unfold recursiveCalls. rewrite activation_eq. destruct (_ <? _); [done|].
  unfold quadrants. simpl. by rewrite !callsIn_app, !app_nil_r.
Qed.

Lemma recursiveCalls_elem cache coord drect zoom lod b (call : CallArgs) :
  call ∈ recursiveCalls cache coord drect zoom lod b →
  0 ≤ lod + b
  ∧ ∃ j i, (j, i) ∈ quadrants
      ∧ let cc := quadrantCoord coord i j in
        let mipmap := cacheMipmap cache zoom (py cc) (px cc) in
        cacheGet cache zoom (py cc) (px cc) lod = None
        ∧ call = (cc, quadrantRect drect i j, zoom + 1, lod - 1,
                  (proxyLookup mipmap lod b).2).
Proof.
  rewrite recursiveCalls_eq. destruct (Z.ltb_spec (lod + b) 0) as [Hneg|Hpos].
  { by intros ?%elem_of_nil. }
  intros H. split; [done|]. revert H. unfold quadrants. cbn [fmap list_fmap concat].
  rewrite app_nil_r, !elem_of_app.
  intros [H|[H|[H|H]]];
    [exists 0, 0|exists 0, 1|exists 1, 0|exists 1, 1];
    (split; [unfold quadrants; rewrite !elem_of_cons; tauto|]);
    rewrite callsIn_quadrantProbe in H; cbn [fst snd] in H; cbv zeta in *;
    unfold cacheGet;
    (destruct (_ ≫= _); [by apply elem_of_nil in H|]);
    by apply list_elem_of_singleton in H.
Qed.

Lemma issues_decreases cache (callee caller : CallArgs) :
  issues cache callee caller →
  callee.1.1.2 = caller.1.1.2 + 1
  ∧ callee.1.2 = caller.1.2 - 1
  ∧ callee.2 ≤ caller.2
  ∧ 0 ≤ measure caller
  ∧ measure callee < measure caller.
Proof.
  destruct caller as [[[[coord drect] zoom] lod] b]. unfold issues, measure. simpl.
  intros (Hpos & j & i & _ & _ & ->)%recursiveCalls_elem. cbn [fst snd].
  pose proof (proxyLookup_le
    (cacheMipmap cache zoom (py (quadrantCoord coord i j)) (px (quadrantCoord coord i j)))
    lod b).
  lia.
Qed.

(** C8: [compositeFromSmaller] terminates.  Below the guard
    ([lod + proxyBetterThan < 0]) it returns [false] without drawing or
    recursing; every recursive call goes one zoom level finer with [lod - 1]
    and a bound no larger than the caller's, so the non-negative measure
    [lod + proxyBetterThan] strictly decreases, the call relation is
    well-founded, and a recursion depth of [compositeDepth] (or any larger
    one) yields the result. *)
Theorem compositeFromSmaller_terminates {C : Type} `{!CanvasRenderingContext2D C}
    (cache : Cache) (canvas : C) (coord : Point) (drect : Rect)
    (zoom lod proxyBetterThan : Z) :
  (∃ r, ∀ fuel : nat, (compositeDepth lod proxyBetterThan ≤ fuel)%nat →
     compositeFromSmaller_fuel fuel cache canvas coord drect zoom lod proxyBetterThan
     = Some r)
  ∧ (lod + proxyBetterThan < 0 →
     compositeFromSmaller_fuel 1 cache canvas coord drect zoom lod proxyBetterThan
     = Some (false, canvas)
     ∧ activation cache coord drect zoom lod proxyBetterThan = [])
  ∧ (∀ callee : CallArgs,
       issues cache callee (coord, drect, zoom, lod, proxyBetterThan) →
       callee.1.1.2 = zoom + 1
       ∧ callee.1.2 = lod - 1
       ∧ callee.2 ≤ proxyBetterThan
       ∧ 0 ≤ lod + proxyBetterThan
       ∧ measure callee < lod + proxyBetterThan)
  ∧ well_founded (issues cache).
Proof.
  split_and!.
  - destruct (compositeFromSmaller_is_Some cache canvas coord drect zoom lod
                proxyBetterThan) as [r Hr].
    exists r. intros fuel Hfuel. by rewrite compositeFromSmaller_fuel_eq.
  - intros Hneg. split.
    + simpl. unfold compositeBody. by destruct (Z.ltb_spec (lod + proxyBetterThan) 0); [|lia].
    + rewrite activation_eq. by destruct (Z.ltb_spec (lod + proxyBetterThan) 0); [|lia].
  - intros callee Hcall. apply issues_decreases in Hcall. unfold measure in *. simpl in *. lia.
  - apply (well_founded_lt_compat _ (λ call, Z.to_nat (measure call + 1))).
    intros callee caller Hcall. apply issues_decreases in Hcall. lia.
Qed.

Lemma quadrantCoord_inj coord i j i' j' :
  quadrantCoord coord i j = quadrantCoord coord i' j' → i = i' ∧ j = j'.
Proof. unfold quadrantCoord. intros [= ? ?]. lia. Qed.

(** The recursive calls of an activation that concern the child cell of
    one quadrant are the ones its own iteration issues. *)
Lemma callFor_quadrant cache coord drect zoom lod b j i :
  (j, i) ∈ quadrants →
  callFor (quadrantCoord coord i j) (recursiveCalls cache coord drect zoom lod b)
  = if lod + b <? 0 then []
    else callsIn (quadrantProbe cache coord drect zoom lod b (j, i)).
Proof.
  intros Hq.
  assert (Hcases : (j, i) = (0, 0) ∨ (j, i) = (0, 1) ∨ (j, i) = (1, 0) ∨ (j, i) = (1, 1)).
  { unfold quadrants in Hq. rewrite !elem_of_cons, elem_of_nil in Hq. tauto. }
  clear Hq. rewrite recursiveCalls_eq. destruct (_ <? _); [done|].
  unfold quadrants. cbn [fmap list_fmap concat]. rewrite app_nil_r.
  unfold callFor. rewrite !filter_app, !callsIn_quadrantProbe. cbn [fst snd]. cbv zeta.
  quadrant_cases Hcases;
    repeat (destruct (_ ≫= _)); rewrite ?filter_nil, ?app_nil_l, ?app_nil_r;
    rewrite ?filter_cons, ?filter_nil; cbn [fst snd];
    repeat case_decide;
    repeat match goal with
           | H : quadrantCoord _ _ _ = quadrantCoord _ _ _ |- _ =>
               apply quadrantCoord_inj in H; destruct H; try lia
           end; try done.
Qed.

Lemma quadrants_cases (j i : Z) :
  (j, i) ∈ quadrants
  ↔ (j, i) = (0, 0) ∨ (j, i) = (0, 1) ∨ (j, i) = (1, 0) ∨ (j, i) = (1, 1).
Proof. unfold quadrants. rewrite !elem_of_cons, elem_of_nil. tauto. Qed.

(** ** 32-bit arithmetic *)

Lemma toInt32_id (z : Z) : int32 z → toInt32 z = z.
Proof. unfold int32, toInt32. intros Hz. rewrite Z.mod_small; lia. Qed.

Lemma sar_div (a k : Z) : int32 a → 0 ≤ k < 32 → sar a k = a `div` 2 ^ k.
Proof.
  intros Ha Hk. unfold sar. rewrite toInt32_id by done.
  rewrite Z.mod_small by lia. apply Z.shiftr_div_pow2. lia.
Qed.

Lemma shl_mul (a k : Z) : int32 a → 0 ≤ k < 32 → int32 (a * 2 ^ k) → shl a k = a * 2 ^ k.
Proof.
  intros Ha Hk Hr. unfold shl. rewrite (toInt32_id a) by done.
  rewrite Z.mod_small by lia. rewrite Z.shiftl_mul_pow2 by lia. by apply toInt32_id.
Qed.

Lemma sar_1_half (w : Z) : 0 ≤ w < 2 ^ 31 → sar w 1 = w `div` 2.
Proof. intros Hw. rewrite sar_div; [done|unfold int32; lia|lia]. Qed.

(** C10: in one activation of [compositeFromSmaller] the recursive call for
    a quadrant, and in particular the bound it passes, is determined by the
    caller's arguments and the mipmap of that quadrant's own child cell:
    two caches that agree on this cell give the same call, whatever the
    sibling cells hold, and the bound is the one of the quadrant's own
    proxy lookup under the caller's bound. *)
Theorem quadrant_bound_independent (cache cache' : Cache) (coord : Point)
    (drect : Rect) (zoom lod proxyBetterThan j i : Z) :
  (j, i) ∈ quadrants →
  cacheMipmap cache zoom (py (quadrantCoord coord i j)) (px (quadrantCoord coord i j))
  = cacheMipmap cache' zoom (py (quadrantCoord coord i j)) (px (quadrantCoord coord i j)) →
  callFor (quadrantCoord coord i j)
    (recursiveCalls cache coord drect zoom lod proxyBetterThan)
  = callFor (quadrantCoord coord i j)
      (recursiveCalls cache' coord drect zoom lod proxyBetterThan)
  ∧ ∀ call : CallArgs,
      call ∈ callFor (quadrantCoord coord i j)
               (recursiveCalls cache coord drect zoom lod proxyBetterThan) →
      call.2 = (proxyLookup
                  (cacheMipmap cache zoom (py (quadrantCoord coord i j))
                     (px (quadrantCoord coord i j)))
                  lod proxyBetterThan).2.
Proof.
  intros Hq Hcell. rewrite !callFor_quadrant by done.
  destruct (_ <? _); [split; [done|by intros call ?%elem_of_nil]|].
  rewrite !callsIn_quadrantProbe. cbn [fst snd]. cbv zeta. rewrite <- Hcell.
  split; [done|]. intros call. destruct (_ ≫= _); [by intros ?%elem_of_nil|].
  by intros ->%list_elem_of_singleton.
Qed.

(** C10 at a concrete input: the recursive call for the top-left quadrant
    is the same whether or not the sibling to its right holds a proxy. *)
Lemma quadrant_bound_independent_witness :
  (0, 0) ∈ quadrants
  ∧ cacheMipmap cacheLeft 1 0 0 = cacheMipmap cacheLeftRight 1 0 0
  ∧ callFor (mkPoint 0 0)
      (recursiveCalls cacheLeft (mkPoint 0 0) (mkRect 0 0 256 256) 1 1 3)
    = callFor (mkPoint 0 0)
        (recursiveCalls cacheLeftRight (mkPoint 0 0) (mkRect 0 0 256 256) 1 1 3)
  ∧ recursiveCalls cacheLeft (mkPoint 0 0) (mkRect 0 0 256 256) 1 1 3
    = [(mkPoint 0 0, mkRect 0 0 128 128, 2, 0, 1);
       (mkPoint 1 0, mkRect 128 0 128 128, 2, 0, 3);
       (mkPoint 0 1, mkRect 0 128 128 128, 2, 0, 3);
       (mkPoint 1 1, mkRect 128 128 128 128, 2, 0, 3)]
  ∧ recursiveCalls cacheLeftRight (mkPoint 0 0) (mkRect 0 0 256 256) 1 1 3
    = [(mkPoint 0 0, mkRect 0 0 128 128, 2, 0, 1);
       (mkPoint 1 0, mkRect 128 0 128 128, 2, 0, 1);
       (mkPoint 0 1, mkRect 0 128 128 128, 2, 0, 3);
       (mkPoint 1 1, mkRect 128 128 128 128, 2, 0, 3)].
Proof.
  assert (Hq : (0, 0) ∈ quadrants) by (apply quadrants_cases; by left).
  assert (Hcell : cacheMipmap cacheLeft 1 (py (quadrantCoord (mkPoint 0 0) 0 0))
                    (px (quadrantCoord (mkPoint 0 0) 0 0))
                  = cacheMipmap cacheLeftRight 1 (py (quadrantCoord (mkPoint 0 0) 0 0))
                      (px (quadrantCoord (mkPoint 0 0) 0 0)))
    by (vm_compute; reflexivity).
  split; [exact Hq|]. split; [exact Hcell|]. split.
  - exact (proj1 (quadrant_bound_independent cacheLeft cacheLeftRight (mkPoint 0 0)
                    (mkRect 0 0 256 256) 1 1 3 0 0 Hq Hcell)).
  - vm_compute. done.
Defined.

(** ** Quadrant geometry *)

(** C5 as stated does not hold for every non-negative integer width and
    height: [>>] works on 32 bits, so for a rectangle 2147483648 wide and
    high [w >> 1] is -1073741824; the top-left quadrant gets a negative
    size, and the bottom-right quadrant starts left of and above the
    parent, so it holds the pixel (-1, -1), which the parent does not. *)
Lemma quadrantRect_wraps_at_32_bits :
  quadrantRect (mkRect 0 0 2147483648 2147483648) 0 0
  = mkRect 0 0 (-1073741824) (-1073741824)
  ∧ quadrantRect (mkRect 0 0 2147483648 2147483648) 1 1
    = mkRect (-1073741824) (-1073741824) 3221225472 3221225472
  ∧ inRect (quadrantRect (mkRect 0 0 2147483648 2147483648) 1 1) (-1) (-1)
  ∧ ¬ inRect (mkRect 0 0 2147483648 2147483648) (-1) (-1).
Proof.
  split; [reflexivity|]. split; [reflexivity|]. split.
  - unfold inRect. vm_compute. done.
  - unfold inRect. simpl. lia.
Qed.

(** C5 (amended): for a destination rectangle whose width and height are
    non-negative integers below 2^31 (as every canvas dimension is), the four
    quadrant rectangles of [compositeFromSmaller] tile it exactly: the
    left and top quadrants get [w >> 1] and [h >> 1] (the halves rounded
    down), the right and bottom ones start at [x + (w >> 1)],
    [y + (h >> 1)] and take the remainder; every pixel of the parent lies
    in some quadrant, every pixel of a quadrant lies in the parent, no
    pixel lies in two; and these are the rectangles that the draws and the
    recursive calls of an activation use. *)
Theorem quadrantRect_partition (drect : Rect) :
  0 ≤ rw drect < 2 ^ 31 →
  0 ≤ rh drect < 2 ^ 31 →
  sar (rw drect) 1 = rw drect `div` 2
  ∧ sar (rh drect) 1 = rh drect `div` 2
  ∧ quadrantRect drect 0 0
    = mkRect (rx drect) (ry drect) (sar (rw drect) 1) (sar (rh drect) 1)
  ∧ quadrantRect drect 1 0
    = mkRect (rx drect + sar (rw drect) 1) (ry drect)
        (rw drect - sar (rw drect) 1) (sar (rh drect) 1)
  ∧ quadrantRect drect 0 1
    = mkRect (rx drect) (ry drect + sar (rh drect) 1)
        (sar (rw drect) 1) (rh drect - sar (rh drect) 1)
  ∧ quadrantRect drect 1 1
    = mkRect (rx drect + sar (rw drect) 1) (ry drect + sar (rh drect) 1)
        (rw drect - sar (rw drect) 1) (rh drect - sar (rh drect) 1)
  ∧ (∀ x y, inRect drect x y
       ↔ ∃ j i, (j, i) ∈ quadrants ∧ inRect (quadrantRect drect i j) x y)
  ∧ (∀ x y j i j' i',
       (j, i) ∈ quadrants → (j', i') ∈ quadrants →
       inRect (quadrantRect drect i j) x y →
       inRect (quadrantRect drect i' j') x y →
       (j, i) = (j', i'))
  ∧ (∀ cache coord zoom lod proxyBetterThan p,
       p ∈ activation cache coord drect zoom lod proxyBetterThan →
       ∃ j i, (j, i) ∈ quadrants ∧ probeRect p = quadrantRect drect i j).
Proof.
  intros Hw Hh.
  pose proof (sar_1_half _ Hw) as Hsw. pose proof (sar_1_half _ Hh) as Hsh.
  pose proof quadrants_cases as Hcases.
  assert (Hhalfw : 0 ≤ rw drect `div` 2 ≤ rw drect).
  { pose proof (Z.div_mod (rw drect) 2). pose proof (Z.mod_pos_bound (rw drect) 2). lia. }
  assert (Hhalfh : 0 ≤ rh drect `div` 2 ≤ rh drect).
  { pose proof (Z.div_mod (rh drect) 2). pose proof (Z.mod_pos_bound (rh drect) 2). lia. }
  assert (H00 : quadrantRect drect 0 0
            = mkRect (rx drect) (ry drect) (rw drect `div` 2) (rh drect `div` 2)).
  { unfold quadrantRect. cbn [truthy Z.eqb negb]. by rewrite Hsw, Hsh. }
  assert (H10 : quadrantRect drect 1 0
            = mkRect (rx drect + rw drect `div` 2) (ry drect)
                (rw drect - rw drect `div` 2) (rh drect `div` 2)).
  { unfold quadrantRect. cbn [truthy Z.eqb negb]. by rewrite Hsw, Hsh. }
  assert (H01 : quadrantRect drect 0 1
            = mkRect (rx drect) (ry drect + rh drect `div` 2)
                (rw drect `div` 2) (rh drect - rh drect `div` 2)).
  { unfold quadrantRect. cbn [truthy Z.eqb negb]. by rewrite Hsw, Hsh. }
  assert (H11 : quadrantRect drect 1 1
            = mkRect (rx drect + rw drect `div` 2) (ry drect + rh drect `div` 2)
                (rw drect - rw drect `div` 2) (rh drect - rh drect `div` 2)).
  { unfold quadrantRect. cbn [truthy Z.eqb negb]. by rewrite Hsw, Hsh. }
  split_and!; try done.
  - intros x y. split.
    + intros [Hx Hy].
      destruct (decide (y < ry drect + rh drect `div` 2)),
               (decide (x < rx drect + rw drect `div` 2));
        [exists 0, 0|exists 0, 1|exists 1, 0|exists 1, 1];
        (split; [apply Hcases; auto|]);
        rewrite ?H00, ?H10, ?H01, ?H11; unfold inRect; cbn [rx ry rw rh]; lia.
    + intros (j & i & Hq & Hin). apply Hcases in Hq.
      quadrant_cases Hq; rewrite ?H00, ?H10, ?H01, ?H11 in Hin;
        unfold inRect in *; cbn [rx ry rw rh] in Hin; lia.
  - intros x y j i j' i' Hq Hq' Hin Hin'. apply Hcases in Hq, Hq'.
    quadrant_cases Hq; quadrant_cases Hq';
      rewrite ?H00, ?H10, ?H01, ?H11 in Hin;
      rewrite ?H00, ?H10, ?H01, ?H11 in Hin';
      unfold inRect in *; cbn [rx ry rw rh] in Hin, Hin'; try done; exfalso; lia.
  - intros cache coord zoom lod b p. rewrite activation_eq.
    destruct (_ <? _); [by intros ?%elem_of_nil|].
    unfold quadrants at 1. cbn [fmap list_fmap concat]. rewrite app_nil_r, !elem_of_app.
    intros [H|[H|[H|H]]];
      [exists 0, 0|exists 0, 1|exists 1, 0|exists 1, 1];
      (split; [apply Hcases; auto|]);
      unfold quadrantProbe in H; cbn [fst snd] in H; cbv zeta in H;
      (destruct (_ ≫= _);
       [by apply list_elem_of_singleton in H as ->|]);
      (destruct ((proxyLookup _ _ _).1); cbn [app] in H;
       [apply elem_of_cons in H as [->|H]; [done|]|];
       by apply list_elem_of_singleton in H as ->).
Qed.

(** C5 at a concrete input: a 255 x 255 rectangle splits into 127 + 128 in
    both axes. *)
Lemma quadrantRect_partition_witness :
  0 ≤ rw (mkRect 0 0 255 255) < 2 ^ 31
  ∧ 0 ≤ rh (mkRect 0 0 255 255) < 2 ^ 31
  ∧ quadrantRect (mkRect 0 0 255 255) 0 0 = mkRect 0 0 127 127
  ∧ quadrantRect (mkRect 0 0 255 255) 1 1 = mkRect 127 127 128 128
  ∧ (∀ x y, inRect (mkRect 0 0 255 255) x y
       ↔ ∃ j i, (j, i) ∈ quadrants ∧ inRect (quadrantRect (mkRect 0 0 255 255) i j) x y).
Proof.
  assert (Hw : 0 ≤ rw (mkRect 0 0 255 255) < 2 ^ 31) by (simpl; lia).
  assert (Hh : 0 ≤ rh (mkRect 0 0 255 255) < 2 ^ 31) by (simpl; lia).
  split; [exact Hw|]. split; [exact Hh|].
  split; [reflexivity|]. split; [reflexivity|].
  exact (proj1 (proj2 (proj2 (proj2 (proj2 (proj2 (proj2
           (quadrantRect_partition (mkRect 0 0 255 255) Hw Hh)))))))).
Defined.

(** ** Smaller-tile compositor: completeness *)

Section CompositorComplete.
Context {C : Type} `{!CanvasRenderingContext2D C}.

Lemma quadrantBody_blind (self : @Self C) cache coord drect zoom lod b complete
    canvas canvas' ji :
  canvasBlind self →
  fst <$> quadrantBody self cache coord drect zoom lod b (complete, canvas) ji
  = fst <$> quadrantBody self cache coord drect zoom lod b (complete, canvas') ji.
Proof.
  intros Hblind. unfold quadrantBody. destruct ji as [j i].
  destruct (_ ≫= _) as [child|]; [done|].
  destruct (proxyLookup _ _ _) as [[proxy|] nb].
  - pose proof (Hblind (drawImage canvas proxy (quadrantRect drect i j))
                  (drawImage canvas' proxy (quadrantRect drect i j))
                  (quadrantCoord coord i j) (quadrantRect drect i j)
                  (zoom + 1) (lod - 1) nb) as Hb.
    do 2 destruct (self _ _ _ _ _ _) as [[? ?]|]; simpl in *; by simplify_eq.
  - pose proof (Hblind canvas canvas'
                  (quadrantCoord coord i j) (quadrantRect drect i j)
                  (zoom + 1) (lod - 1) nb) as Hb.
    do 2 destruct (self _ _ _ _ _ _) as [[? ?]|]; simpl in *; by simplify_eq.
Qed.

Lemma foldOpt_quadrants_blind (self : @Self C) cache coord drect zoom lod b (qs : list (Z * Z)) :
  canvasBlind self →
  ∀ complete canvas canvas',
    fst <$> foldOpt (quadrantBody self cache coord drect zoom lod b) (complete, canvas) qs
    = fst <$> foldOpt (quadrantBody self cache coord drect zoom lod b) (complete, canvas') qs.
Proof.
  intros Hblind. induction qs as [|ji qs IH]; intros complete canvas canvas'; [done|].
  cbn [foldOpt].
  pose proof (quadrantBody_blind self cache coord drect zoom lod b complete
                canvas canvas' ji Hblind) as Hb.
  do 2 destruct (quadrantBody _ _ _ _ _ _ _ _ _) as [[? ?]|]; simpl in Hb; try done.
  injection Hb as ->. apply IH.
Qed.

Lemma compositeBody_blind (self : @Self C) cache :
  canvasBlind self → canvasBlind (compositeBody self cache).
Proof.
  intros Hblind canvas canvas' coord drect zoom lod b. unfold compositeBody.
  destruct (_ <? _); [done|]. by apply foldOpt_quadrants_blind.
Qed.

Lemma compositeFromSmaller_fuel_blind (fuel : nat) cache :
  canvasBlind (compositeFromSmaller_fuel (C := C) fuel cache).
Proof.
  induction fuel as [|fuel IH]; [done|]. simpl.
  intros canvas canvas' coord drect zoom lod b. by apply compositeBody_blind.
Qed.

Lemma compositeFromSmaller_blind cache : canvasBlind (compositeFromSmaller (C := C) cache).
Proof.
  intros canvas canvas' coord drect zoom lod b. apply compositeFromSmaller_fuel_blind.
Qed.

Lemma quadrantBody_complete (self : @Self C) cache coord drect zoom lod b
    complete0 canvas0 ji complete canvas :
  canvasBlind self →
  quadrantBody self cache coord drect zoom lod b (complete0, canvas0) ji
  = Some (complete, canvas) →
  (complete = true
   ↔ complete0 = true ∧ quadrantComplete self cache coord drect zoom lod b ji).
Proof.
  intros Hblind. unfold quadrantBody, quadrantComplete, cacheGet.
  destruct ji as [j i]. cbn [fst snd].
  destruct (_ ≫= _) as [child|] eqn:Hchild.
  - intros [= <- <-]. split; [|tauto]. intros ->. split; [done|]. left. eauto.
  - destruct (proxyLookup _ _ _) as [proxy nb] eqn:Hproxy. cbn [snd].
    destruct (self _ _ _ _ _ _) as [[sub cv]|] eqn:Hself; [|done].
    intros [= <- <-]. split.
    + intros Hc. destruct sub; [|done]. split; [done|]. right. eauto.
    + intros [-> [[child Hc]|(cv1 & cv2 & Hsub)]]; [done|].
      match type of Hself with
      | self ?cv0 ?cc ?cd ?z ?l ?n = _ =>
          pose proof (Hblind cv0 cv1 cc cd z l n) as Hb
      end.
      rewrite Hself, Hsub in Hb. by injection Hb as ->.
Qed.

(** [complete] after the loop is the conjunction of the quadrants'
    outcomes. *)
Lemma foldOpt_quadrants_complete (self : @Self C) cache coord drect zoom lod b
    (qs : list (Z * Z)) :
  canvasBlind self →
  ∀ complete0 canvas0 complete canvas,
    foldOpt (quadrantBody self cache coord drect zoom lod b) (complete0, canvas0) qs
    = Some (complete, canvas) →
    (complete = true
     ↔ complete0 = true
       ∧ ∀ ji, ji ∈ qs → quadrantComplete self cache coord drect zoom lod b ji).
Proof.
  intros Hblind. induction qs as [|ji qs IH]; intros complete0 canvas0 complete canvas.
  { simpl. intros [= -> ->]. split; [|tauto]. split; [done|]. by intros ji ?%elem_of_nil. }
  cbn [foldOpt].
  destruct (quadrantBody _ _ _ _ _ _ _ _ _) as [[complete1 canvas1]|] eqn:Hbody; [|done].
  intros Hfold. rewrite (IH _ _ _ _ Hfold).
  rewrite (quadrantBody_complete _ _ _ _ _ _ _ _ _ _ _ _ Hblind Hbody).
  split.
  - intros [[-> Hji] Hall]. split; [done|].
    intros ji' [->|Hin]%elem_of_cons; [done|by apply Hall].
  - intros [-> Hall]. split; [split; [done|]|].
    + apply Hall. by left.
    + intros ji' Hin. apply Hall. by right.
Qed.

Lemma compositeFromSmaller_fuel_covered (fuel : nat) cache :
  ∀ (canvas : C) coord drect zoom lod b canvas',
    compositeFromSmaller_fuel fuel cache canvas coord drect zoom lod b
    = Some (true, canvas') →
    ∀ j i, (j, i) ∈ quadrants → Covered cache (quadrantCoord coord i j) zoom lod.
Proof.
  induction fuel as [|fuel IH]; intros canvas coord drect zoom lod b canvas'; [done|].
  simpl. unfold compositeBody. destruct (_ <? _); [done|].
  intros Hfold j i Hq.
  apply foldOpt_quadrants_complete in Hfold; [|apply compositeFromSmaller_fuel_blind].
  destruct Hfold as [Hfold _]. destruct (Hfold eq_refl) as [_ Hall].
  destruct (Hall (j, i) Hq) as [Hexact|(cv & cv' & Hsub)].
  - by apply Covered_exact.
  - apply Covered_split. intros j' i' Hq'. by apply (IH _ _ _ _ _ _ _ Hsub).
Qed.

End CompositorComplete.

Lemma Covered_needs_exact cache cc zoom lod :
  Covered cache cc zoom lod →
  (∀ d y x, 0 ≤ d → cacheGet cache (zoom + d) y x (lod - d) = None) →
  False.
Proof.
  induction 1 as [cc zoom lod [image Himage]|cc zoom lod _ IH]; intros Hnone.
  - specialize (Hnone 0 (py cc) (px cc)).
    rewrite Z.add_0_r, Z.sub_0_r in Hnone. rewrite Hnone in Himage; [done|lia].
  - apply (IH 0 0); [by apply quadrants_cases; left|].
    intros d y x Hd. specialize (Hnone (d + 1) y x).
    replace (zoom + 1 + d) with (zoom + (d + 1)) by lia.
    replace (lod - 1 - d) with (lod - (d + 1)) by lia. apply Hnone. lia.
Qed.

(** C4 as stated does not hold: on [cacheThreeAndFour] the composite
    of cell (0, 0) for LOD 1 is complete, although the visited quadrant
    (zoom 1, cell (0, 0)) holds no image at LOD 1 (nor any proxy): it is
    tiled by the four exact hits one level deeper. *)
Lemma compositeFromSmaller_complete_without_exact_quadrant :
  compositeFromSmaller cacheThreeAndFour ([] : list DrawOp) (mkPoint 0 0)
    (mkRect 0 0 256 256) 1 1 3
  = Some (true,
          [mkDraw 31%nat (mkRect 0 0 64 64); mkDraw 32%nat (mkRect 64 0 64 64);
           mkDraw 33%nat (mkRect 0 64 64 64); mkDraw 34%nat (mkRect 64 64 64 64);
           mkDraw 21%nat (mkRect 128 0 128 128);
           mkDraw 22%nat (mkRect 0 128 128 128);
           mkDraw 23%nat (mkRect 128 128 128 128)])
  ∧ cacheGet cacheThreeAndFour 1 0 0 1 = None
  ∧ cacheMipmap cacheThreeAndFour 1 0 0 = None.
Proof. vm_compute. done. Qed.

(** C4 (amended): [compositeFromSmaller] always returns, and [complete] is
    the conjunction of the four quadrants' outcomes past the guard, where
    a quadrant's outcome is true when its child cell holds an image at
    exactly [lod], and otherwise is the outcome of the recursive composite
    over that quadrant (one zoom level finer, one LOD lower, under the
    bound of the quadrant's proxy lookup); a proxy drawn into the quadrant
    does not count.  Hence [complete = true] implies that every quadrant is
    covered by exact hits (the leaves of the recursion are exact cache
    hits), and a cache without any image at the exact LOD of the cells
    below yields [complete = false]. *)
Theorem compositeFromSmaller_complete {C : Type} `{!CanvasRenderingContext2D C}
    (cache : Cache) (canvas : C) (coord : Point) (drect : Rect)
    (zoom lod proxyBetterThan : Z) :
  ∃ complete canvas',
    compositeFromSmaller cache canvas coord drect zoom lod proxyBetterThan
    = Some (complete, canvas')
    ∧ (complete = true
       ↔ 0 ≤ lod + proxyBetterThan
         ∧ ∀ j i, (j, i) ∈ quadrants →
             quadrantComplete (compositeFromSmaller cache) cache coord drect
               zoom lod proxyBetterThan (j, i))
    ∧ (complete = true →
       ∀ j i, (j, i) ∈ quadrants → Covered cache (quadrantCoord coord i j) zoom lod)
    ∧ ((∀ d y x, 0 ≤ d → cacheGet cache (zoom + d) y x (lod - d) = None) →
       complete = false).
Proof.
  destruct (compositeFromSmaller_is_Some cache canvas coord drect zoom lod
              proxyBetterThan) as [[complete canvas'] Hr].
  exists complete, canvas'. split; [done|].
  assert (Hcov : complete = true →
            ∀ j i, (j, i) ∈ quadrants → Covered cache (quadrantCoord coord i j) zoom lod).
  { intros ->. by apply (compositeFromSmaller_fuel_covered _ _ _ _ _ _ _ _ _ Hr). }
  split_and!; [|done|].
  - rewrite compositeFromSmaller_unfold in Hr. unfold compositeBody in Hr.
    destruct (Z.ltb_spec (lod + proxyBetterThan) 0) as [Hneg|Hpos].
    { injection Hr as <- <-. split; [done|]. lia. }
    apply foldOpt_quadrants_complete in Hr; [|apply compositeFromSmaller_blind].
    rewrite Hr. split.
    + intros [_ Hall]. split; [done|]. intros j i. apply Hall.
    + intros [_ Hall]. split; [done|]. intros [j i]. apply Hall.
  - intros Hnone. destruct complete; [|done]. exfalso.
    apply (Covered_needs_exact cache (quadrantCoord coord 0 0) zoom lod); [|done].
    apply Hcov; [done|]. apply quadrants_cases. by left.
Qed.

(** ** The cache store *)

Lemma cacheMipmap_empty zoom y x : cacheMipmap ∅ zoom y x = None.
Proof. unfold cacheMipmap. by rewrite lookup_empty. Qed.

Lemma cacheMipmap_store cache zoom y x lod image zoom' y' x' :
  cacheMipmap (cacheStore cache zoom y x lod image) zoom' y' x'
  = if decide (zoom' = zoom ∧ y' = y ∧ x' = x)
    then Some (mipmapSet (default [] (cacheMipmap cache zoom y x)) lod image)
    else cacheMipmap cache zoom' y' x'.
Proof.
  unfold cacheMipmap, cacheStore.
  destruct (decide (zoom' = zoom)) as [->|Hz].
  - rewrite lookup_insert_eq.
    destruct (decide (y' = y)) as [->|Hy].
    + rewrite lookup_insert_eq.
      destruct (decide (x' = x)) as [->|Hx].
      * rewrite lookup_insert_eq, decide_True by done.
        destruct (cache !! zoom) as [rows|]; simpl; [|by rewrite lookup_empty].
        destruct (rows !! y) as [cols|]; simpl; [done|by rewrite lookup_empty].
      * rewrite lookup_insert_ne, decide_False by (intuition congruence).
        destruct (cache !! zoom) as [rows|]; simpl; [|by rewrite lookup_empty].
        destruct (rows !! y) as [cols|]; simpl; [done|by rewrite lookup_empty].
    + rewrite lookup_insert_ne, decide_False by (intuition congruence).
      destruct (cache !! zoom) as [rows|]; simpl; [done|by rewrite lookup_empty].
  - rewrite lookup_insert_ne, decide_False by (intuition congruence). done.
Qed.

Lemma mipmapGet_set (mipmap : Mipmap) (lod : nat) image (lod' : Z) :
  mipmapGet (mipmapSet mipmap lod image) lod'
  = if decide (lod' = Z.of_nat lod) then Some image else mipmapGet mipmap lod'.
Proof.
  unfold mipmapGet, mipmapSet.
  destruct (Z.ltb_spec lod' 0) as [Hneg|Hpos].
  { rewrite decide_False by lia. done. }
  destruct (Nat.ltb_spec lod (length mipmap)) as [Hin|Hout].
  - destruct (decide (lod' = Z.of_nat lod)) as [->|Hne].
    + rewrite Nat2Z.id, list_lookup_insert_eq by done. done.
    + rewrite list_lookup_insert_ne by lia. done.
  - destruct (decide (lod' = Z.of_nat lod)) as [->|Hne].
    + rewrite Nat2Z.id.
      rewrite lookup_app_r by done. rewrite lookup_app_r by (rewrite length_replicate; lia).
      rewrite length_replicate. by replace (lod - length mipmap - (lod - length mipmap))%nat with 0%nat by lia.
    + destruct (decide (Z.to_nat lod' < length mipmap)%nat) as [Hlt|Hge].
      * by rewrite lookup_app_l.
      * rewrite lookup_app_r by lia. rewrite (lookup_ge_None_2 mipmap) by lia.
        destruct (decide (Z.to_nat lod' < lod)%nat) as [Hlt'|Hge'].
        -- rewrite lookup_app_l by (rewrite length_replicate; lia).
           rewrite lookup_replicate_2 by lia. done.
        -- rewrite lookup_app_r by (rewrite length_replicate; lia).
           rewrite length_replicate. rewrite lookup_ge_None_2; [done|]. simpl. lia.
Qed.

Lemma cacheGet_store cache zoom y x (lod : nat) image zoom' y' x' lod' :
  cacheGet (cacheStore cache zoom y x lod image) zoom' y' x' lod'
  = if decide (zoom' = zoom ∧ y' = y ∧ x' = x ∧ lod' = Z.of_nat lod)
    then Some image
    else cacheGet cache zoom' y' x' lod'.
Proof.
  unfold cacheGet. rewrite cacheMipmap_store.
  destruct (decide (zoom' = zoom ∧ y' = y ∧ x' = x)) as [(-> & -> & ->)|Hne].
  - simpl. rewrite mipmapGet_set.
    destruct (decide (lod' = Z.of_nat lod)) as [->|Hl].
    + by rewrite decide_True.
    + rewrite decide_False by tauto.
      destruct (cacheMipmap cache zoom y x) as [m|]; simpl; [done|].
      unfold mipmapGet. destruct (lod' <? 0); [done|]. by rewrite lookup_nil.
  - rewrite decide_False by tauto. done.
Qed.

(** ** Content assembler *)

Lemma tileFromLarger_frame zoom coord lod st :
  ∃ h, (tileFromLarger zoom coord lod st).2 = setNextHandle h st.
Proof.
  unfold tileFromLarger. destruct (largerSearch _ _ _ _) as [bd [best|]]; simpl.
  - by eexists.
  - exists (nextHandle st). by destruct st.
Qed.

(** A defined difference comes with a canvas: [tileFromLarger] returns
    either both or [[null, undefined]]. *)
Lemma tileFromLarger_defined zoom coord lod st canvas difference st' :
  tileFromLarger zoom coord lod st = ((canvas, Some difference), st') →
  is_Some canvas.
Proof.
  unfold tileFromLarger. destruct (largerSearch _ _ _ _) as [bd [best|]]; [|done].
  intros [= <- _ _]. eauto.
Qed.

Lemma tileFromSmaller_total zoom coord lod b st :
  ∃ draws complete,
    compositeFromSmaller (imageCache st) [] coord
      (mkRect 0 0 (tileSize st) (tileSize st)) (zoom + 1) (lod - 1) b
    = Some (complete, draws)
    ∧ tileFromSmaller zoom coord lod b st
      = Some ((mkCanvas (nextHandle st) (tileSize st) draws, complete),
              setNextHandle (S (nextHandle st)) st).
Proof.
  unfold tileFromSmaller. simpl.
  destruct (compositeFromSmaller_is_Some (imageCache st) ([] : list DrawOp) coord
              (mkRect 0 0 (tileSize st) (tileSize st)) (zoom + 1) (lod - 1) b)
    as [[complete draws] Hr].
  exists draws, complete. by rewrite Hr.
Qed.

(** What [createTileContent] returns, by the three ways it can end. *)
Lemma createTileContent_cases coord zoom lod st :
  ∃ fromLarger difference h fromSmaller complete,
    tileFromLarger zoom coord lod st = ((fromLarger, difference), setNextHandle h st)
    ∧ tileFromSmaller zoom coord lod (orElse difference (maxOversample st + 1))
        (setNextHandle h st)
      = Some ((fromSmaller, complete), setNextHandle (S h) st)
    ∧ createTileContent coord zoom lod st
      = Some
          (if isZero difference then ([nullable fromLarger], setNextHandle h st)
           else if complete then ([CanvasEl fromSmaller], setNextHandle (S h) st)
           else (match fromLarger with
                 | Some canvas => [CanvasEl canvas]
                 | None => []
                 end ++ [CanvasEl fromSmaller; ImageEl (S h)],
                 setPending (pending st ++ [mkFetch zoom coord lod (S h)])
                   (setNextHandle (S (S h)) st))).
Proof.
  unfold createTileContent.
  destruct (tileFromLarger_frame zoom coord lod st) as [h Hh].
  destruct (tileFromLarger zoom coord lod st) as [[fromLarger difference] st1].
  simpl in Hh. subst st1.
  destruct (tileFromSmaller_total zoom coord lod
              (orElse difference (maxOversample st + 1)) (setNextHandle h st))
    as (draws & complete & _ & Hsmaller).
  exists fromLarger, difference, h, (mkCanvas h (tileSize st) draws), complete.
  split; [done|]. split; [done|].
  destruct (isZero difference); [done|].
  simpl in *. rewrite Hsmaller. by destruct complete.
Qed.

Lemma quiet_refl st : quiet st st.
Proof.
  unfold quiet. split_and!; try done. exists []. by rewrite app_nil_r.
Qed.

Lemma quiet_trans st1 st2 st3 : quiet st1 st2 → quiet st2 st3 → quiet st1 st3.
Proof.
  intros (Hc & Ht & Hl & Hm & Ha & fs & Hp & Hfs) (Hc' & Ht' & Hl' & Hm' & Ha' & fs' & Hp' & Hfs').
  unfold quiet. split_and!; try congruence.
  exists (fs ++ fs'). split; [by rewrite Hp', Hp, app_assoc|by apply Forall_app].
Qed.

Lemma targetLod_nonneg st zoom : 0 ≤ targetLod st zoom.
Proof. unfold targetLod. lia. Qed.

Lemma createTileContent_quiet coord zoom lod st content st' :
  0 ≤ lod →
  createTileContent coord zoom lod st = Some (content, st') → quiet st st'.
Proof.
  intros Hlod.
  destruct (createTileContent_cases coord zoom lod st)
    as (fromLarger & difference & h & fromSmaller & complete & _ & _ & ->).
  destruct (isZero difference); [|destruct complete]; intros [= <- <-];
    unfold quiet; simpl; split_and!; try done.
  - exists []. by rewrite app_nil_r.
  - exists []. by rewrite app_nil_r.
  - eexists. split; [done|]. by apply Forall_singleton.
Qed.

Lemma getTileContent_quiet coord zoom st content st' :
  getTileContent coord zoom st = Some (content, st') → quiet st st'.
Proof.
  unfold getTileContent. destruct (cacheGet _ _ _ _ _).
  - intros [= <- <-]. apply quiet_refl.
  - apply createTileContent_quiet, targetLod_nonneg.
Qed.

Lemma refreshTiles_quiet st r st' :
  refreshTiles st = Some (r, st') → quiet st st'.
Proof.
  unfold refreshTiles.
  assert (Hgen : ∀ tiles acc r st',
    foldOpt
      (λ (acc : list (Handle * list Element) * State) (e : Handle * TileParams),
         match getTileContent (tpCoord e.2) (tpZoom e.2) acc.2 with
         | Some (content, st') => Some (acc.1 ++ [(e.1, content)], st')
         | None => None
         end) acc tiles = Some (r, st') → quiet acc.2 st').
  { induction tiles as [|e tiles IH]; intros acc r0 st0; simpl.
    - intros [= ->]. apply quiet_refl.
    - destruct (getTileContent _ _ _) as [[content st1]|] eqn:Hget; [|done].
      intros Hfold. apply IH in Hfold. simpl in Hfold.
      eapply quiet_trans; [|done]. by eapply getTileContent_quiet. }
  intros Hfold. by apply Hgen in Hfold.
Qed.

(** C2: when the cache holds an image at (zoom, coord.y, coord.x, lod) for
    the target LOD [lod = max(min(levelOfDetail - zoom, maxOversample), 0)],
    [getTileContent] returns that image as its only layer and leaves the
    state as it was: no canvas is created or drawn on and no fetch is
    started. *)
Theorem getTileContent_exact_hit (st : State) (coord : Point) (zoom : Z)
    (cached : Image) :
  cacheGet (imageCache st) zoom (py coord) (px coord) (targetLod st zoom) = Some cached →
  getTileContent coord zoom st = Some ([ImageEl cached], st)
  ∧ targetLod st zoom = Z.max (Z.min (levelOfDetail st - zoom) (maxOversample st)) 0.
Proof. intros Hhit. unfold getTileContent. by rewrite Hhit. Qed.

(** C2 at a concrete input: the cached tile (zoom 5, y 3, x 7) is returned
    as it is. *)
Lemma getTileContent_exact_hit_witness :
  cacheGet (imageCache stateWithTile) 5 3 7 (targetLod stateWithTile 5) = Some 9%nat
  ∧ getTileContent (mkPoint 7 3) 5 stateWithTile = Some ([ImageEl 9%nat], stateWithTile).
Proof.
  assert (Hhit : cacheGet (imageCache stateWithTile) 5 (py (mkPoint 7 3)) (px (mkPoint 7 3))
                   (targetLod stateWithTile 5) = Some 9%nat) by (vm_compute; reflexivity).
  split; [exact Hhit|].
  exact (proj1 (getTileContent_exact_hit stateWithTile (mkPoint 7 3) 5 9%nat Hhit)).
Defined.

(** C3 as stated does not hold: with [levelOfDetail = 2] and the tile
    (zoom 0, (0, 0)) cached at LOD 2, the request for (zoom 1, (0, 0))
    misses the cache at its target LOD 1, yet returns the single crop of
    the ancestor (difference 0) and starts no fetch. *)
Lemma getTileContent_miss_without_fetch :
  (stateWithAncestor ≫= λ st,
     Some (pending st,
           cacheGet (imageCache st) 1 0 0 (targetLod st 1),
           (λ r : list Element * State, (r.1, pending r.2))
             <$> getTileContent (mkPoint 0 0) 1 st))
  = Some ([], None,
          Some ([CanvasEl (mkCanvas 3%nat 256 [mkDraw 2%nat (mkRect 0 0 512 512)])], [])).
Proof. vm_compute. reflexivity. Qed.

(** C3 (amended): on a cache miss [getTileContent] first asks the
    larger-tile resolver and the smaller-tile compositor.  When the
    resolver reports difference 0, or else when the compositor reports a
    complete composite, it returns that single canvas and starts no fetch.
    Otherwise it starts exactly one fetch of the exact tile, returned as
    the last layer, and the completion of that fetch stores the decoded
    image in the cache at (zoom, coord.y, coord.x, lod).  The call itself
    never changes the cache. *)
Theorem getTileContent_miss (st : State) (coord : Point) (zoom : Z) :
  cacheGet (imageCache st) zoom (py coord) (px coord) (targetLod st zoom) = None →
  ∃ fromLarger difference h fromSmaller complete content st',
    tileFromLarger zoom coord (targetLod st zoom) st
    = ((fromLarger, difference), setNextHandle h st)
    ∧ tileFromSmaller zoom coord (targetLod st zoom)
        (orElse difference (maxOversample st + 1)) (setNextHandle h st)
      = Some ((fromSmaller, complete), setNextHandle (S h) st)
    ∧ getTileContent coord zoom st = Some (content, st')
    ∧ imageCache st' = imageCache st
    ∧ if isZero difference
      then content = [nullable fromLarger] ∧ pending st' = pending st
      else if complete
      then content = [CanvasEl fromSmaller] ∧ pending st' = pending st
      else ∃ image st'',
             last content = Some (ImageEl image)
             ∧ pending st' = pending st ++ [mkFetch zoom coord (targetLod st zoom) image]
             ∧ decodeFulfilled (length (pending st)) st' = Some st''
             ∧ cacheGet (imageCache st'') zoom (py coord) (px coord) (targetLod st zoom)
               = Some image.
Proof.
  intros Hmiss. unfold getTileContent. rewrite Hmiss.
  destruct (createTileContent_cases coord zoom (targetLod st zoom) st)
    as (fromLarger & difference & h & fromSmaller & complete & HL & HS & ->).
  exists fromLarger, difference, h, fromSmaller, complete.
  destruct (isZero difference); [|destruct complete].
  - eexists _, _. split_and!; done.
  - eexists _, _. split_and!; done.
  - eexists _, _. split_and!; try done.
    exists (S h). eexists. split_and!.
    + by destruct fromLarger.
    + done.
    + unfold decodeFulfilled. simpl. rewrite lookup_app_r by done.
      by rewrite Nat.sub_diag.
    + simpl. rewrite cacheGet_store, decide_True; [done|].
      pose proof (targetLod_nonneg st zoom). split_and!; try done. lia.
Qed.

(** C3 at a concrete input: the first request on a fresh map type
    misses. *)
Lemma getTileContent_miss_witness :
  cacheGet (imageCache (newWmsMapType None None None)) 0 0 0
    (targetLod (newWmsMapType None None None) 0) = None
  ∧ ∃ fromLarger difference h fromSmaller complete content st',
      tileFromLarger 0 (mkPoint 0 0) (targetLod (newWmsMapType None None None) 0)
        (newWmsMapType None None None)
      = ((fromLarger, difference), setNextHandle h (newWmsMapType None None None))
      ∧ tileFromSmaller 0 (mkPoint 0 0) (targetLod (newWmsMapType None None None) 0)
          (orElse difference (maxOversample (newWmsMapType None None None) + 1))
          (setNextHandle h (newWmsMapType None None None))
        = Some ((fromSmaller, complete), setNextHandle (S h) (newWmsMapType None None None))
      ∧ getTileContent (mkPoint 0 0) 0 (newWmsMapType None None None) = Some (content, st')
      ∧ imageCache st' = imageCache (newWmsMapType None None None)
      ∧ if isZero difference
        then content = [nullable fromLarger]
             ∧ pending st' = pending (newWmsMapType None None None)
        else if complete
        then content = [CanvasEl fromSmaller]
             ∧ pending st' = pending (newWmsMapType None None None)
        else ∃ image st'',
               last content = Some (ImageEl image)
               ∧ pending st'
                 = pending (newWmsMapType None None None)
                   ++ [mkFetch 0 (mkPoint 0 0)
                         (targetLod (newWmsMapType None None None) 0) image]
               ∧ decodeFulfilled (length (pending (newWmsMapType None None None))) st'
                 = Some st''
               ∧ cacheGet (imageCache st'') 0 (py (mkPoint 0 0)) (px (mkPoint 0 0))
                   (targetLod (newWmsMapType None None None) 0)
                 = Some image.
Proof.
  assert (Hmiss : cacheGet (imageCache (newWmsMapType None None None)) 0
                    (py (mkPoint 0 0)) (px (mkPoint 0 0))
                    (targetLod (newWmsMapType None None None) 0) = None)
    by (vm_compute; reflexivity).
  split; [exact Hmiss|].
  exact (getTileContent_miss (newWmsMapType None None None) (mkPoint 0 0) 0 Hmiss).
Defined.

(** *** The empty cache *)

Lemma largerSearch_empty zoom coord lod : largerSearch ∅ zoom coord lod = (None, None).
Proof.
  unfold largerSearch. generalize (levelsAboveRange zoom). intros levels.
  induction levels as [|l levels IH]; [done|]. simpl.
  unfold largerStep at 2. by rewrite cacheMipmap_empty.
Qed.

Lemma quadrantBody_empty {C : Type} `{!CanvasRenderingContext2D C}
    (self : @Self C) coord drect zoom lod b complete canvas j i :
  quadrantBody self ∅ coord drect zoom lod b (complete, canvas) (j, i)
  = match self canvas (quadrantCoord coord i j) (quadrantRect drect i j)
            (zoom + 1) (lod - 1) b with
    | Some (sub, cv) => Some (if sub then complete else false, cv)
    | None => None
    end.
Proof. unfold quadrantBody. by rewrite cacheMipmap_empty. Qed.

Lemma foldOpt_quadrants_empty {C : Type} `{!CanvasRenderingContext2D C}
    (self : @Self C) coord drect zoom lod b (qs : list (Z * Z)) :
  (∀ canvas cc cd z l nb r, self canvas cc cd z l nb = Some r → r = (false, canvas)) →
  ∀ complete canvas r,
    foldOpt (quadrantBody self ∅ coord drect zoom lod b) (complete, canvas) qs = Some r →
    r = (match qs with [] => complete | _ => false end, canvas).
Proof.
  intros Hself. induction qs as [|[j i] qs IH]; intros complete canvas r.
  { by intros [= <-]. }
  cbn [foldOpt]. rewrite quadrantBody_empty.
  destruct (self _ _ _ _ _ _) as [[sub cv]|] eqn:Hs; [|done].
  apply Hself in Hs as [= -> ->]. intros Hfold. apply IH in Hfold as ->.
  by destruct qs.
Qed.

Lemma compositeFromSmaller_fuel_empty {C : Type} `{!CanvasRenderingContext2D C}
    (fuel : nat) :
  ∀ (canvas : C) coord drect zoom lod b r,
    compositeFromSmaller_fuel fuel ∅ canvas coord drect zoom lod b = Some r →
    r = (false, canvas).
Proof.
  induction fuel as [|fuel IH]; intros canvas coord drect zoom lod b r; [done|].
  simpl. unfold compositeBody. destruct (_ <? _); [by intros [= <-]|].
  intros Hfold. by apply foldOpt_quadrants_empty in Hfold.
Qed.

Lemma elem_of_content_not_null (fromLarger : option Canvas) (fromSmaller : Canvas) image :
  NullEl ∉ (match fromLarger with
            | Some canvas => [CanvasEl canvas]
            | None => []
            end ++ [CanvasEl fromSmaller; ImageEl image]).
Proof.
  destruct fromLarger; simpl; rewrite !elem_of_cons, elem_of_nil; intros H;
    repeat destruct H as [H|H]; done.
Qed.

(** [getTileContent] always returns: the result is a list of layers that
    is not empty and holds only drawable elements (no [null]); on the empty
    cache it is a blank composite canvas followed by the image whose fetch
    was just started. *)
Lemma getTileContent_drawable (st : State) (coord : Point) (zoom : Z) :
  ∃ content st',
    getTileContent coord zoom st = Some (content, st')
    ∧ content ≠ []
    ∧ (NullEl ∉ content)
    ∧ (imageCache st = ∅ →
       content = [CanvasEl (mkCanvas (nextHandle st) (tileSize st) []);
                  ImageEl (S (nextHandle st))]
       ∧ pending st'
         = pending st ++ [mkFetch zoom coord (targetLod st zoom) (S (nextHandle st))]).
Proof.
  unfold getTileContent.
  destruct (cacheGet _ _ _ _ _) as [cached|] eqn:Hget.
  { exists [ImageEl cached], st. split_and!; [done|done|..].
    - rewrite list_elem_of_singleton. done.
    - intros Hempty. rewrite Hempty in Hget. unfold cacheGet in Hget.
      by rewrite cacheMipmap_empty in Hget. }
  destruct (createTileContent_cases coord zoom (targetLod st zoom) st)
    as (fromLarger & difference & h & fromSmaller & complete & HL & HS & ->).
  assert (Hempty : imageCache st = ∅ →
            fromLarger = None ∧ difference = None ∧ h = nextHandle st
            ∧ fromSmaller = mkCanvas (nextHandle st) (tileSize st) []
            ∧ complete = false).
  { intros Hempty. unfold tileFromLarger in HL. rewrite Hempty, largerSearch_empty in HL.
    injection HL as <- <- Hh.
    assert (h = nextHandle st) as -> by (by destruct st; injection Hh).
    destruct (tileFromSmaller_total zoom coord (targetLod st zoom)
                (orElse None (maxOversample st + 1)) (setNextHandle (nextHandle st) st))
      as (draws & complete' & Hcomp & Hsmaller).
    rewrite Hsmaller in HS. simpl in Hcomp. rewrite Hempty in Hcomp.
    apply compositeFromSmaller_fuel_empty in Hcomp. by simplify_eq. }
  destruct (isZero difference) eqn:Hzero; [|destruct complete eqn:Hcomplete];
    (eexists _, _; split; [done|]); simpl.
  - split_and!; [done| |].
    + unfold tileFromLarger in HL.
      destruct (largerSearch _ _ _ _) as [bd [best|]]; simplify_eq/=.
      rewrite list_elem_of_singleton. done.
    + intros (_ & -> & _)%Hempty. done.
  - split_and!; [done| |].
    + rewrite list_elem_of_singleton. done.
    + by intros (_ & _ & _ & _ & ?)%Hempty.
  - split_and!.
    + by destruct fromLarger.
    + apply elem_of_content_not_null.
    + intros (-> & _ & -> & -> & _)%Hempty. done.
Qed.

(** ** The engine as a transition system *)

Lemma getTile_quiet coord zoom st r st' :
  getTile coord zoom st = Some (r, st') →
  imageCache st' = imageCache st
  ∧ ∃ fetches, pending st' = pending st ++ fetches ∧ Forall (λ f, 0 ≤ fLod f) fetches.
Proof.
  unfold getTile. simpl.
  destruct (getTileContent _ _ _) as [[content st1]|] eqn:Hget; [|done].
  intros [= <- <-]. apply getTileContent_quiet in Hget as (Hc & _ & _ & _ & _ & Hp).
  simpl in *. done.
Qed.

Lemma getTileContent_is_Some coord zoom st : is_Some (getTileContent coord zoom st).
Proof.
  unfold getTileContent. destruct (cacheGet _ _ _ _ _); [done|].
  destruct (createTileContent_cases coord zoom (targetLod st zoom) st)
    as (fromLarger & difference & h & fromSmaller & complete & _ & _ & ->).
  done.
Qed.

Lemma refreshTiles_is_Some st : is_Some (refreshTiles st).
Proof.
  unfold refreshTiles. apply foldOpt_is_Some. intros [contents st1] [div params] _.
  simpl. by destruct (getTileContent_is_Some (tpCoord params) (tpZoom params) st1)
    as [[content st2] ->].
Qed.

(** Every call goes through in every state; a decode completion needs its
    image to be pending. *)
Lemma step_enabled st ev :
  is_Some (step st ev)
  ↔ match ev with
    | DecodeFulfilled k | DecodeRejected k => (k < length (pending st))%nat
    | _ => True
    end.
Proof.
  destruct ev as [coord zoom|coord zoom|tile| |v|v|k|k]; simpl.
  - unfold getTile. simpl.
    destruct (getTileContent_is_Some coord zoom (setNextHandle (S (nextHandle st)) st))
      as [[content st1] ->]. done.
  - by destruct (getTileContent_is_Some coord zoom st) as [[content st1] ->].
  - done.
  - by destruct (refreshTiles_is_Some st) as [[contents st1] ->].
  - done.
  - done.
  - unfold decodeFulfilled. rewrite <- lookup_lt_is_Some.
    destruct (pending st !! k); split; intros [? ?]; done.
  - unfold decodeRejected. rewrite <- lookup_lt_is_Some.
    destruct (pending st !! k); split; intros [? ?]; done.
Qed.

(** Only a fulfilled decode writes to the cache, and it stores its own
    image at its own cell; every other step leaves the cache alone. *)
Lemma step_cache st ev st' :
  step st ev = Some st' →
  imageCache st'
  = match ev with
    | DecodeFulfilled k =>
        match pending st !! k with
        | Some f =>
            cacheStore (imageCache st) (fZoom f) (py (fCoord f)) (px (fCoord f))
              (Z.to_nat (fLod f)) (fImage f)
        | None => imageCache st
        end
    | _ => imageCache st
    end.
Proof.
  destruct ev as [coord zoom|coord zoom|tile| |v|v|k|k]; simpl.
  - destruct (getTile _ _ _) as [[r st1]|] eqn:Hget; [|done].
    intros [= <-]. by apply getTile_quiet in Hget as [? _].
  - destruct (getTileContent _ _ _) as [[r st1]|] eqn:Hget; [|done].
    intros [= <-]. by apply getTileContent_quiet in Hget as [? _].
  - by intros [= <-].
  - destruct (refreshTiles _) as [[r st1]|] eqn:Hget; [|done].
    intros [= <-]. by apply refreshTiles_quiet in Hget as [? _].
  - by intros [= <-].
  - by intros [= <-].
  - unfold decodeFulfilled. destruct (pending st !! k); [|done]. by intros [= <-].
  - unfold decodeRejected. destruct (pending st !! k); [|done]. by intros [= <-].
Qed.

Lemma step_pending_nonneg st ev st' :
  step st ev = Some st' →
  Forall (λ f, 0 ≤ fLod f) (pending st) →
  Forall (λ f, 0 ≤ fLod f) (pending st').
Proof.
  destruct ev as [coord zoom|coord zoom|tile| |v|v|k|k]; simpl.
  - destruct (getTile _ _ _) as [[r st1]|] eqn:Hget; [|done].
    intros [= <-] Hall. apply getTile_quiet in Hget as [_ (fs & -> & Hfs)].
    by apply Forall_app.
  - destruct (getTileContent _ _ _) as [[r st1]|] eqn:Hget; [|done].
    intros [= <-] Hall.
    apply getTileContent_quiet in Hget as (_ & _ & _ & _ & _ & fs & -> & Hfs).
    by apply Forall_app.
  - by intros [= <-].
  - destruct (refreshTiles _) as [[r st1]|] eqn:Hget; [|done].
    intros [= <-] Hall.
    apply refreshTiles_quiet in Hget as (_ & _ & _ & _ & _ & fs & -> & Hfs).
    by apply Forall_app.
  - by intros [= <-].
  - by intros [= <-].
  - unfold decodeFulfilled. destruct (pending st !! k); [|done].
    intros [= <-] Hall. simpl. by apply Forall_delete.
  - unfold decodeRejected. destruct (pending st !! k); [|done].
    intros [= <-] Hall. simpl. by apply Forall_delete.
Qed.

(** Every pending fetch is for a non-negative LOD, so its completion
    writes an array element of the mipmap. *)
Lemma fetch_lod_nonneg st : reachable st → Forall (λ f, 0 ≤ fLod f) (pending st).
Proof.
  induction 1 as [ts lod mo|st ev st' _ IH Hstep]; [by constructor|].
  by eapply step_pending_nonneg.
Qed.

Lemma run_reachable st evs st' : reachable st → run st evs = Some st' → reachable st'.
Proof.
  unfold run. revert st. induction evs as [|ev evs IH]; intros st Hreach; simpl.
  - by intros [= <-].
  - destruct (step st ev) as [st1|] eqn:Hstep; [|done].
    apply IH. by eapply reachable_step.
Qed.

Lemma step_keeps_populated st ev st' zoom y x lod :
  step st ev = Some st' →
  is_Some (cacheGet (imageCache st) zoom y x lod) →
  is_Some (cacheGet (imageCache st') zoom y x lod).
Proof.
  intros Hstep%step_cache Hsome. rewrite Hstep.
  destruct ev; try done. destruct (pending st !! k) as [f|]; [|done].
  rewrite cacheGet_store. by case_decide.
Qed.

Lemma run_keeps_populated evs : ∀ st st' zoom y x lod,
  run st evs = Some st' →
  is_Some (cacheGet (imageCache st) zoom y x lod) →
  is_Some (cacheGet (imageCache st') zoom y x lod).
Proof.
  unfold run. induction evs as [|ev evs IH]; intros st st' zoom y x lod; simpl.
  - by intros [= <-].
  - destruct (step st ev) as [st1|] eqn:Hstep; [|done].
    intros Hrun Hsome. eapply IH; [done|]. by eapply step_keeps_populated.
Qed.

(** C1 as stated does not hold: when the tile (zoom 0, (0, 0)) is
    requested twice before either image is decoded, both requests miss and
    each starts a fetch; the first completion stores image 2 at
    (0, 0, 0, LOD 0), and the second completion replaces it by image 5. *)
Lemma first_stored_image_overwritten :
  (run (newWmsMapType None None None)
     [GetTile (mkPoint 0 0) 0; GetTile (mkPoint 0 0) 0; DecodeFulfilled 0%nat]
   ≫= λ st, cacheGet (imageCache st) 0 0 0 0) = Some 2%nat
  ∧ (run (newWmsMapType None None None)
       [GetTile (mkPoint 0 0) 0; GetTile (mkPoint 0 0) 0;
        DecodeFulfilled 0%nat; DecodeFulfilled 0%nat]
     ≫= λ st, cacheGet (imageCache st) 0 0 0 0) = Some 5%nat.
Proof. vm_compute. done. Qed.

(** C1 (amended): once an image is stored at a cell (zoom, y, x, lod), the
    cell stays populated through every later sequence of operations, and
    no call ([getTile], [getTileContent], [releaseTile], [refreshTiles], a
    change of options) and no failed decode changes the stored image.  A
    completed decode, however, assigns its own image to its own cell: when
    that is the same (zoom, y, x, lod), the stored image is replaced (the
    last completion wins); any other completion leaves the cell as it
    was. *)
Theorem cache_entry_replaced_only_by_decode (st : State) (zoom y x lod : Z)
    (image : Image) :
  reachable st →
  cacheGet (imageCache st) zoom y x lod = Some image →
  (∀ evs st', run st evs = Some st' →
     is_Some (cacheGet (imageCache st') zoom y x lod))
  ∧ (∀ ev st', step st ev = Some st' →
       cacheGet (imageCache st') zoom y x lod
       = match ev with
         | DecodeFulfilled k =>
             match pending st !! k with
             | Some f =>
                 if decide (fZoom f = zoom ∧ py (fCoord f) = y
                            ∧ px (fCoord f) = x ∧ fLod f = lod)
                 then Some (fImage f)
                 else Some image
             | None => Some image
             end
         | _ => Some image
         end).
Proof.
  intros Hreach Hget. split.
  - intros evs st' Hrun. eapply run_keeps_populated; [done|]. by rewrite Hget.
  - intros ev st' Hstep. rewrite (step_cache _ _ _ Hstep).
    destruct ev; try done. destruct (pending st !! k) as [f|] eqn:Hf; [|done].
    rewrite cacheGet_store, Hget.
    assert (0 ≤ fLod f) as Hlod.
    { apply fetch_lod_nonneg in Hreach. rewrite Forall_lookup in Hreach. by eapply Hreach. }
    rewrite Z2Nat.id by done.
    destruct (decide (zoom = fZoom f ∧ y = py (fCoord f) ∧ x = px (fCoord f) ∧ lod = fLod f))
      as [(-> & -> & -> & ->)|Hne].
    + by rewrite decide_True.
    + rewrite decide_False; [done|]. intros (<- & <- & <- & <-). by apply Hne.
Qed.

(** C1 at a concrete input: with one of two fetches of the same cell
    decoded, the cell stays populated, and the second completion replaces
    image 2 by image 5. *)
Lemma cache_entry_replaced_only_by_decode_witness :
  reachable stateOneOfTwoDecoded
  ∧ cacheGet (imageCache stateOneOfTwoDecoded) 0 0 0 0 = Some 2%nat
  ∧ (∀ evs st', run stateOneOfTwoDecoded evs = Some st' →
       is_Some (cacheGet (imageCache st') 0 0 0 0))
  ∧ (step stateOneOfTwoDecoded (DecodeFulfilled 0%nat)
     ≫= λ st', cacheGet (imageCache st') 0 0 0 0) = Some 5%nat.
Proof.
  assert (Hreach : reachable stateOneOfTwoDecoded).
  { apply (run_reachable (newWmsMapType None None None)
             [GetTile (mkPoint 0 0) 0; GetTile (mkPoint 0 0) 0; DecodeFulfilled 0%nat]).
    - apply reachable_new.
    - vm_compute. reflexivity. }
  assert (Hget : cacheGet (imageCache stateOneOfTwoDecoded) 0 0 0 0 = Some 2%nat)
    by (vm_compute; reflexivity).
  split; [exact Hreach|]. split; [exact Hget|].
  split.
  - exact (proj1 (cache_entry_replaced_only_by_decode stateOneOfTwoDecoded 0 0 0 0 2%nat
                    Hreach Hget)).
  - vm_compute. reflexivity.
Defined.

(** ** Larger-tile resolver *)

Lemma mipmapGet_entry (mipmap : Mipmap) (l : nat) :
  mipmapGet mipmap (Z.of_nat l) = entry mipmap l.
Proof.
  unfold mipmapGet, entry. destruct (Z.ltb_spec (Z.of_nat l) 0); [lia|].
  by rewrite Nat2Z.id.
Qed.

Lemma findNearestLod_candidate (mipmap : Mipmap) targetLod betterThan image difference :
  findNearestLod mipmap targetLod betterThan = (Some image, difference) →
  ∃ l : nat, entry mipmap l = Some image.
Proof.
  unfold findNearestLod, forEach.
  destruct (forEachFrom_nearest targetLod mipmap 0 None betterThan)
    as [[Hr _]|(k & image' & Hk & Hr & _)]; cbv zeta in Hr; rewrite Hr.
  - done.
  - intros [= <- _]. eauto.
Qed.

Lemma largerStep_bestOk cache zoom coord lod acc levelsAbove :
  0 ≤ levelsAbove ≤ zoom →
  bestOk cache zoom coord acc.2 →
  bestOk cache zoom coord (largerStep cache zoom coord lod acc levelsAbove).2.
Proof.
  intros Hla Hacc. unfold largerStep.
  destruct (cacheMipmap _ _ _ _) as [mipmap|] eqn:Hm; [|done].
  destruct (findNearestLod _ _ _) as [[image|] bd] eqn:Hfind; [|done].
  simpl. split_and!; try done; try lia.
  apply findNearestLod_candidate in Hfind as [l Hl]. exists l.
  unfold cacheGet. simpl in Hm. rewrite Hm. simpl. by rewrite mipmapGet_entry.
Qed.

Lemma levelsAboveRange_bounds zoom levelsAbove :
  levelsAbove ∈ levelsAboveRange zoom → 0 ≤ levelsAbove ≤ zoom.
Proof.
  unfold levelsAboveRange. intros (k & -> & Hk)%list_elem_of_fmap.
  apply elem_of_seq in Hk. lia.
Qed.

Lemma largerSearch_bestOk cache zoom coord lod :
  bestOk cache zoom coord (largerSearch cache zoom coord lod).2.
Proof.
  unfold largerSearch.
  assert (Hgen : ∀ levels acc,
            (∀ l, l ∈ levels → 0 ≤ l ≤ zoom) →
            bestOk cache zoom coord acc.2 →
            bestOk cache zoom coord (foldl (largerStep cache zoom coord lod) acc levels).2).
  { induction levels as [|l levels IH]; intros acc Hls Hacc; [done|]. simpl.
    apply IH.
    - intros l' Hl'. apply Hls. by right.
    - apply largerStep_bestOk; [|done]. apply Hls. by left. }
  apply Hgen; [apply levelsAboveRange_bounds|done].
Qed.

(** No wrap-around in the crop of [tileFromLarger] while the scaled tile
    size fits 32 bits: the offset is minus the position of the target cell
    inside the ancestor, in pixels. *)
Lemma crop_offset (tileSize c levelsAbove : Z) :
  int32 c → 0 < tileSize → 0 ≤ levelsAbove → tileSize * 2 ^ levelsAbove < 2 ^ 31 →
  shl tileSize levelsAbove = tileSize * 2 ^ levelsAbove
  ∧ (shl (sar c levelsAbove) levelsAbove - c) * tileSize
    = - (c `mod` 2 ^ levelsAbove) * tileSize
  ∧ 0 ≤ (c `mod` 2 ^ levelsAbove) * tileSize ≤ tileSize * 2 ^ levelsAbove - tileSize.
Proof.
  intros Hc Hts Hla Hfit.
  assert (Hpow : 0 < 2 ^ levelsAbove) by (apply Z.pow_pos_nonneg; lia).
  assert (Hla31 : levelsAbove < 31).
  { apply (Z.pow_lt_mono_r_iff 2); [lia|lia|nia]. }
  assert (Hsplit : 2 ^ 31 = 2 ^ (31 - levelsAbove) * 2 ^ levelsAbove).
  { rewrite <- Z.pow_add_r by lia. f_equal. lia. }
  assert (Hpow' : 0 < 2 ^ (31 - levelsAbove)) by (apply Z.pow_pos_nonneg; lia).
  pose proof (Z.div_mod c (2 ^ levelsAbove) ltac:(lia)) as Hdm.
  pose proof (Z.mod_pos_bound c (2 ^ levelsAbove) Hpow) as Hmod.
  unfold int32 in Hc.
  assert (Hq : - 2 ^ (31 - levelsAbove) ≤ c `div` 2 ^ levelsAbove < 2 ^ (31 - levelsAbove)).
  { split.
    - apply Z.div_le_lower_bound; [done|]. nia.
    - apply Z.div_lt_upper_bound; [done|]. nia. }
  split_and!.
  - apply shl_mul; unfold int32; try lia; nia.
  - rewrite sar_div by (unfold int32; lia).
    rewrite shl_mul; [nia| | |].
    + unfold int32. nia.
    + lia.
    + unfold int32. nia.
  - nia.
  - nia.
Qed.

(** C7 as stated does not hold.  First, the offset is not in
    [[0, tileSize << levelsAbove)]: for the target (zoom 1, (1, 1)) and the
    ancestor (zoom 0, (0, 0)) the ancestor image is drawn 512 wide at
    offset -256 in both axes.  Second, [tileSize << levelsAbove] wraps at
    32 bits: for the target (zoom 23, (0, 0)) and the same ancestor the
    scaled size is -2147483648, so the interval is empty. *)
Lemma tileFromLarger_offset_not_in_range :
  (tileFromLarger 1 (mkPoint 1 1) 0 stateWithCoarseTile).1
  = (Some (mkCanvas 3%nat 256 [mkDraw 2%nat (mkRect (-256) (-256) 512 512)]), Some 0)
  ∧ (tileFromLarger 23 (mkPoint 0 0) 0 stateWithCoarseTile).1
    = (Some (mkCanvas 3%nat 256
               [mkDraw 2%nat (mkRect 0 0 (-2147483648) (-2147483648))]),
       Some 22).
Proof. vm_compute. done. Qed.

(** C7 (amended): when [tileFromLarger] selects an ancestor, it is
    [levelsAbove] levels above the target with [0 <= levelsAbove <= zoom]
    (its zoom is at most the requested zoom and not negative), it is the
    cell [coord >> levelsAbove], the cache holds the chosen image for that
    cell, and the whole image is drawn once, scaled to
    [tileSize << levelsAbove], at the offset
    [((ancestorCoord << levelsAbove) - coord) * tileSize].  As long as the
    coordinates are 32-bit integers and the scaled size does not wrap
    ([0 < tileSize], [tileSize * 2^levelsAbove < 2^31]), that offset lies in
    [(-(tileSize << levelsAbove), 0]] in both axes: it is minus the pixel
    position of the target cell inside the scaled ancestor, so the
    tile-sized window [[-offset, -offset + tileSize)] that the canvas shows
    lies within [[0, tileSize << levelsAbove]]. *)
Theorem tileFromLarger_crop (st : State) (zoom : Z) (coord : Point) (lod : Z)
    (canvas : Canvas) (difference : option Z) (st' : State) :
  tileFromLarger zoom coord lod st = ((Some canvas, difference), st') →
  ∃ (levelsAbove : Z) (image : Image) (l : nat) (r : Rect),
    0 ≤ levelsAbove ≤ zoom
    ∧ cacheGet (imageCache st) (zoom - levelsAbove) (sar (py coord) levelsAbove)
        (sar (px coord) levelsAbove) (Z.of_nat l) = Some image
    ∧ cSize canvas = tileSize st
    ∧ cDraws canvas = [mkDraw image r]
    ∧ r = mkRect
            ((shl (sar (px coord) levelsAbove) levelsAbove - px coord) * tileSize st)
            ((shl (sar (py coord) levelsAbove) levelsAbove - py coord) * tileSize st)
            (shl (tileSize st) levelsAbove) (shl (tileSize st) levelsAbove)
    ∧ (int32 (px coord) → int32 (py coord) →
       0 < tileSize st → tileSize st * 2 ^ levelsAbove < 2 ^ 31 →
       rw r = tileSize st * 2 ^ levelsAbove
       ∧ rh r = tileSize st * 2 ^ levelsAbove
       ∧ rx r = - (px coord `mod` 2 ^ levelsAbove) * tileSize st
       ∧ ry r = - (py coord `mod` 2 ^ levelsAbove) * tileSize st
       ∧ - rw r < rx r ≤ 0
       ∧ - rh r < ry r ≤ 0
       ∧ - rx r + tileSize st ≤ rw r
       ∧ - ry r + tileSize st ≤ rh r).
Proof.
  unfold tileFromLarger. pose proof (largerSearch_bestOk (imageCache st) zoom coord lod) as Hok.
  destruct (largerSearch _ _ _ _) as [bd [best|]]; [|done].
  simpl in Hok. destruct Hok as (Hla & HX & HY & l & Hl).
  intros [= <- _ _].
  exists (bLevelsAbove best), (bImage best), l. eexists.
  split; [done|]. split; [by rewrite <- HX, <- HY|]. split; [done|].
  split; [reflexivity|]. unfold largerRect. rewrite HX, HY. split; [done|].
  intros Hx Hy Hts Hfit. cbn [rx ry rw rh].
  destruct (crop_offset (tileSize st) (px coord) (bLevelsAbove best))
    as (Hds & Hox & Hbx); [done|done|lia|done|].
  destruct (crop_offset (tileSize st) (py coord) (bLevelsAbove best))
    as (_ & Hoy & Hby); [done|done|lia|done|].
  rewrite Hds, Hox, Hoy. split_and!; try done; lia.
Qed.

(** C7 at a concrete input: the target (zoom 1, (1, 1)) under the ancestor
    (zoom 0, (0, 0)). *)
Lemma tileFromLarger_crop_witness :
  tileFromLarger 1 (mkPoint 1 1) 0 stateWithCoarseTile
  = ((Some (mkCanvas 3%nat 256 [mkDraw 2%nat (mkRect (-256) (-256) 512 512)]), Some 0),
     (tileFromLarger 1 (mkPoint 1 1) 0 stateWithCoarseTile).2)
  ∧ ∃ (levelsAbove : Z) (image : Image) (l : nat) (r : Rect),
      0 ≤ levelsAbove ≤ 1
      ∧ cacheGet (imageCache stateWithCoarseTile) (1 - levelsAbove)
          (sar (py (mkPoint 1 1)) levelsAbove) (sar (px (mkPoint 1 1)) levelsAbove)
          (Z.of_nat l) = Some image
      ∧ [mkDraw 2%nat (mkRect (-256) (-256) 512 512)] = [mkDraw image r].
Proof.
  assert (Hrun : tileFromLarger 1 (mkPoint 1 1) 0 stateWithCoarseTile
            = ((Some (mkCanvas 3%nat 256 [mkDraw 2%nat (mkRect (-256) (-256) 512 512)]),
                Some 0),
               (tileFromLarger 1 (mkPoint 1 1) 0 stateWithCoarseTile).2))
    by (vm_compute; reflexivity).
  split; [exact Hrun|].
  destruct (tileFromLarger_crop stateWithCoarseTile 1 (mkPoint 1 1) 0 _ _ _ Hrun)
    as (levelsAbove & image & l & r & Hla & Hget & _ & Hdraws & _).
  exists levelsAbove, image, l, r. split; [exact Hla|]. split; [exact Hget|]. exact Hdraws.
Defined.

(** * Further properties *)

(** ** The [url] property *)

Lemma sliceLast_snoc (value : JsString) (unit : N) : sliceLast (value ++ [unit]) = [unit].
Proof. unfold sliceLast. by rewrite last_snoc. Qed.

(** X1: the [url] setter stores a string that ends in ["?"]: a value that
    already ends in ["?"] is stored as it is, any other value (the empty
    string too) gets exactly one ["?"] appended.  Setting the stored value
    again changes nothing, and a base address gives the same [url] with and
    without its trailing ["?"]. *)
Theorem setUrl_question_mark (value : JsString) :
  sliceLast (setUrl value) = questionMark
  ∧ setUrl (setUrl value) = setUrl value
  ∧ setUrl value
    = (if decide (sliceLast value = questionMark) then value else value ++ questionMark)
  ∧ setUrl (value ++ questionMark) = value ++ questionMark
  ∧ setUrl [] = questionMark.
Proof.
  assert (Hend : sliceLast (setUrl value) = questionMark).
  { unfold setUrl. case_decide as Hlast.
    - apply sliceLast_snoc.
    - by destruct (decide (sliceLast value = questionMark)). }
  split_and!.
  - done.
  - unfold setUrl at 1. by rewrite decide_False by (by intros []).
  - unfold setUrl. by repeat case_decide.
  - unfold setUrl. rewrite decide_False; [done|]. intros []. apply sliceLast_snoc.
  - reflexivity.
Qed.

(** ** Mipmap search, continued *)

Lemma lodDistance_zero (targetLod : Z) (lod : nat) :
  lodDistance targetLod lod = 0 ↔ targetLod = Z.of_nat lod.
Proof. unfold lodDistance. lia. Qed.

(** X2: the bound of [findNearestLod] only ever tightens.  With a defined
    [betterThan] the returned difference is defined and not larger; an
    image is returned exactly when the difference went strictly down, and
    it is then not negative.  With [betterThan] undefined the result is
    [[undefined, undefined]] exactly when the mipmap holds no image at
    all. *)
Theorem findNearestLod_bound_tightens (mipmap : Mipmap) (targetLod : Z)
    (betterThan : option Z) :
  match betterThan, findNearestLod mipmap targetLod betterThan with
  | Some b, (proxy, Some b') =>
      b' ≤ b ∧ (is_Some proxy ↔ b' < b) ∧ (is_Some proxy → 0 ≤ b')
  | Some b, (proxy, None) => False
  | None, (Some image, Some d) => 0 ≤ d ∧ ∃ lod : nat, entry mipmap lod = Some image
  | None, (None, None) => ∀ lod : nat, entry mipmap lod = None
  | None, _ => False
  end.
Proof.
  unfold findNearestLod, forEach.
  destruct betterThan as [b|];
    [destruct (forEachFrom_nearest targetLod mipmap 0 None (Some b))
       as [[Hr Hall]|(k & image & Hk & Hr & Hel & _)]
    |destruct (forEachFrom_nearest targetLod mipmap 0 None None)
       as [[Hr Hall]|(k & image & Hk & Hr & Hel & _)]];
    cbv zeta in Hr; rewrite Hr.
  - split; [lia|]. split; [|by intros [? ?]]. split; [by intros [? ?]|lia].
  - unfold eligible, lodDistance in *. split; [lia|]. split; [|lia]. split; [done|eauto].
  - intros lod. destruct (entry mipmap lod) as [image|] eqn:Hlod; [|done].
    by destruct (Hall lod image Hlod).
  - unfold eligible, lodDistance in *. split; [lia|eauto].
Qed.

(** X3: [findNearestLod] returns an image with difference 0 exactly when
    the mipmap holds that image at the target LOD itself and the bound
    admits difference 0 (it is undefined or positive). *)
Theorem findNearestLod_exact (mipmap : Mipmap) (targetLod : Z)
    (betterThan : option Z) (image : Image) :
  findNearestLod mipmap targetLod betterThan = (Some image, Some 0)
  ↔ mipmapGet mipmap targetLod = Some image ∧ eligible betterThan 0.
Proof.
  unfold findNearestLod, forEach.
  destruct (forEachFrom_nearest targetLod mipmap 0 None betterThan)
    as [[Hr Hall]|(k & image' & Hk & Hr & Hel & Hmin)]; cbv zeta in Hr; rewrite Hr;
    simpl in *.
  - split; [done|]. intros [Hget Hel]. exfalso.
    unfold mipmapGet in Hget. destruct (Z.ltb_spec targetLod 0); [done|].
    apply (Hall (Z.to_nat targetLod) image Hget).
    by replace (lodDistance targetLod (Z.to_nat targetLod)) with 0
      by (unfold lodDistance; lia).
  - split.
    + intros [= -> Hd]. apply lodDistance_zero in Hd. subst targetLod.
      rewrite mipmapGet_entry. split; [done|].
      by replace 0 with (lodDistance (Z.of_nat k) k) by (unfold lodDistance; lia).
    + intros [Hget Hel0].
      unfold mipmapGet in Hget. destruct (Z.ltb_spec targetLod 0); [done|].
      assert (Hd : lodDistance targetLod (Z.to_nat targetLod) = 0)
        by (unfold lodDistance; lia).
      destruct (Hmin (Z.to_nat targetLod) image Hget) as [Hlt|[Heq Hle]].
      * by rewrite Hd.
      * unfold lodDistance in Hlt, Hd. lia.
      * rewrite Hd in Heq. pose proof Heq as Hk0. apply lodDistance_zero in Hk0.
        assert (k = Z.to_nat targetLod) as -> by lia.
        unfold entry in Hk. rewrite Hk in Hget. injection Hget as ->.
        by rewrite Heq.
Qed.

(** ** Larger-tile resolver: which ancestor is chosen *)

Lemma ancestorEntry_mipmap cache zoom coord levelsAbove l :
  ancestorEntry cache zoom coord levelsAbove l
  = cacheMipmap cache (zoom - levelsAbove) (sar (py coord) levelsAbove)
      (sar (px coord) levelsAbove) ≫= (λ mipmap, entry mipmap l).
Proof.
  unfold ancestorEntry, cacheGet.
  destruct (cacheMipmap _ _ _ _) as [mipmap|]; [|done]. simpl.
  apply mipmapGet_entry.
Qed.

Lemma largerStep_searched cache zoom coord lod (levelsAbove : Z) acc :
  0 ≤ levelsAbove →
  searched cache zoom coord lod levelsAbove acc →
  searched cache zoom coord lod (levelsAbove + 1)
    (largerStep cache zoom coord lod acc levelsAbove).
Proof.
  intros Hla Hacc. unfold largerStep. cbn [px py].
  pose proof (ancestorEntry_mipmap cache zoom coord levelsAbove) as Hentry.
  destruct (cacheMipmap _ _ _ _) as [mipmap|] eqn:Hm; simpl in Hentry.
  2:{ (* no mipmap at this level *)
    destruct acc as [[d|] [best|]]; simpl in *; try done.
    - destruct Hacc as (Hb & Hx & Hy & l & Hl & Hd & Hbest).
      do 3 (split; [lia || done|]). exists l. do 2 (split; [done|]).
      intros la l' image Hla' Hl'.
      destruct (decide (la = levelsAbove)) as [->|Hne].
      + by rewrite Hentry in Hl'.
      + apply (Hbest la l' image); [lia|done].
    - intros la l Hla'. destruct (decide (la = levelsAbove)) as [->|Hne]; [done|].
      apply Hacc. lia. }
  unfold findNearestLod, forEach.
  destruct (forEachFrom_nearest (lod + levelsAbove) mipmap 0 None acc.1)
    as [[Hr Hall]|(k & image & Hk & Hr & Hel & Hmin)]; cbv zeta in Hr; rewrite Hr;
    simpl in Hall || simpl in Hel, Hmin.
  - (* nothing better at this level *)
    destruct acc as [[d|] [best|]]; simpl in *; try done.
    + destruct Hacc as (Hb & Hx & Hy & l & Hl & Hd & Hbest).
      do 3 (split; [lia || done|]). exists l. do 2 (split; [done|]).
      intros la l' image Hla' Hl'.
      destruct (decide (la = levelsAbove)) as [->|Hne].
      * rewrite Hentry in Hl'. pose proof (Hall l' image Hl') as Hnot.
        unfold preferred, ancestorDifference. simpl. subst d.
        unfold ancestorDifference in Hnot. lia.
      * apply (Hbest la l' image); [lia|done].
    + intros la l Hla'. destruct (decide (la = levelsAbove)) as [->|Hne].
      * rewrite Hentry. destruct (entry mipmap l) as [image|] eqn:Hl; [|done].
        by destruct (Hall l image Hl).
      * apply Hacc. lia.
  - (* a better entry at this level *)
    simpl. do 3 (split; [lia || done|]). exists k. rewrite Hentry.
    do 2 (split; [done|]).
    intros la l' image' Hla' Hl'. unfold preferred, ancestorDifference. simpl.
    destruct (decide (la = levelsAbove)) as [->|Hne].
    + rewrite Hentry in Hl'.
      assert (Hcases : eligible acc.1 (lodDistance (lod + levelsAbove) l')
                ∨ lodDistance (lod + levelsAbove) k < lodDistance (lod + levelsAbove) l').
      { destruct acc as [[d|] best]; simpl in *; [lia|by left]. }
      destruct Hcases as [Hel'|Hlt]; [|by left].
      destruct (Hmin l' image' Hl' Hel') as [Hlt|[Heq Hle]]; [by left|right; lia].
    + destruct acc as [[d|] [best|]]; simpl in *; try done.
      * destruct Hacc as (Hb & Hx & Hy & l & Hl & Hd & Hbest).
        destruct (Hbest la l' image') as [Hlt|[Heq _]]; [lia|done|..];
          unfold ancestorDifference in *; simpl in *; lia.
      * specialize (Hacc la l' ltac:(lia)). by rewrite Hacc in Hl'.
Qed.

Lemma largerSearch_from cache zoom coord lod (n s : nat) acc :
  searched cache zoom coord lod (Z.of_nat s) acc →
  searched cache zoom coord lod (Z.of_nat (s + n))
    (foldl (largerStep cache zoom coord lod) acc (Z.of_nat <$> seq s n)).
Proof.
  revert s acc. induction n as [|n IH]; intros s acc Hacc; simpl.
  - by rewrite Nat.add_0_r.
  - replace (s + S n)%nat with (S s + n)%nat by lia. apply IH.
    replace (Z.of_nat (S s)) with (Z.of_nat s + 1) by lia.
    apply largerStep_searched; [lia|done].
Qed.

(** The search loop as a whole: the levels 0 .. [zoom]. *)
Lemma largerSearch_searched (cache : Cache) (zoom : Z) (coord : Point) (lod : Z) :
  searched cache zoom coord lod (Z.max (zoom + 1) 0) (largerSearch cache zoom coord lod).
Proof.
  unfold largerSearch, levelsAboveRange.
  replace (Z.max (zoom + 1) 0) with (Z.of_nat (0 + Z.to_nat (zoom + 1))) by lia.
  apply largerSearch_from. simpl. intros la l Hla. lia.
Qed.

(** X4: [tileFromLarger] returns [[null, undefined]] exactly when no
    ancestor cell on the levels 0 .. [zoom] above the target (the target
    cell itself included) holds any image.  Otherwise the one image it
    draws is the entry with the smallest difference
    [|l - (lod + levelsAbove)|] among all entries of all these cells, the
    nearest ancestor among equals and the lowest LOD within it, and the
    difference returned is that of the drawn entry. *)
Theorem tileFromLarger_nearest (zoom : Z) (coord : Point) (lod : Z) (st : State) :
  match (tileFromLarger zoom coord lod st).1 with
  | (None, None) =>
      ∀ levelsAbove l, 0 ≤ levelsAbove ≤ zoom →
        ancestorEntry (imageCache st) zoom coord levelsAbove l = None
  | (Some canvas, Some difference) =>
      ∃ (levelsAbove : Z) (l : nat) (image : Image),
        0 ≤ levelsAbove ≤ zoom
        ∧ ancestorEntry (imageCache st) zoom coord levelsAbove l = Some image
        ∧ dImage <$> cDraws canvas = [image]
        ∧ difference = ancestorDifference lod levelsAbove l
        ∧ ∀ levelsAbove' l' image', 0 ≤ levelsAbove' ≤ zoom →
            ancestorEntry (imageCache st) zoom coord levelsAbove' l' = Some image' →
            preferred lod (levelsAbove, l) (levelsAbove', l')
  | _ => False
  end.
Proof.
  unfold tileFromLarger.
  pose proof (largerSearch_searched (imageCache st) zoom coord lod) as Hs.
  destruct (largerSearch _ _ _ _) as [[d|] [best|]]; simpl in *; try done.
  - destruct Hs as (Hb & _ & _ & l & Hl & Hd & Hbest).
    exists (bLevelsAbove best), l, (bImage best).
    split; [lia|]. do 3 (split; [done|]).
    intros la' l' image' Hla' Hl'. apply (Hbest la' l' image'); [lia|done].
  - intros la l Hla. apply Hs. lia.
Qed.

(** ** Smaller-tile compositor: when the composite is complete *)

Lemma Covered_lod_nonneg cache cc zoom lod : Covered cache cc zoom lod → 0 ≤ lod.
Proof.
  induction 1 as [cc zoom lod [image Himage]|cc zoom lod _ IH].
  - unfold cacheGet, mipmapGet in Himage.
    destruct (cacheMipmap _ _ _ _); [|done]. simpl in Himage.
    destruct (Z.ltb_spec lod 0); [done|lia].
  - specialize (IH 0 0 ltac:(apply quadrants_cases; by left)). lia.
Qed.

(** Without an exact entry at a non-negative [lod], the bound that the
    proxy lookup passes on stays positive. *)
Lemma proxyLookup_positive (mipmap : option Mipmap) (lod b : Z) :
  mipmap ≫= (λ m : Mipmap, mipmapGet m lod) = None →
  0 ≤ lod → 1 ≤ b →
  1 ≤ (proxyLookup mipmap lod b).2.
Proof.
  intros Hexact Hlod Hb. unfold proxyLookup.
  destruct mipmap as [m|]; [|done]. simpl in Hexact.
  unfold findNearestLod, forEach.
  destruct (forEachFrom_nearest lod m 0 None (Some b))
    as [[Hr _]|(k & image & Hk & Hr & _)]; cbv zeta in Hr; rewrite Hr; [done|].
  simpl. destruct (decide (lod = Z.of_nat k)) as [->|Hne].
  - by rewrite mipmapGet_entry, Hk in Hexact.
  - unfold lodDistance. lia.
Qed.

Section CompositorCovered.
Context {C : Type} `{!CanvasRenderingContext2D C}.

Lemma compositeFromSmaller_of_covered cache (n : nat) :
  ∀ (canvas : C) coord drect zoom lod b,
    lod < Z.of_nat n → 1 ≤ b →
    (∀ j i, (j, i) ∈ quadrants → Covered cache (quadrantCoord coord i j) zoom lod) →
    ∃ canvas', compositeFromSmaller cache canvas coord drect zoom lod b
               = Some (true, canvas').
Proof.
  induction n as [|n IH]; intros canvas coord drect zoom lod b Hn Hb Hcov.
  { pose proof (Covered_lod_nonneg _ _ _ _ (Hcov 0 0 ltac:(apply quadrants_cases; by left))).
    lia. }
  assert (Hlod : 0 ≤ lod).
  { apply (Covered_lod_nonneg _ _ _ _ (Hcov 0 0 ltac:(apply quadrants_cases; by left))). }
  destruct (compositeFromSmaller_is_Some cache canvas coord drect zoom lod b)
    as [[complete canvas'] Hrun].
  exists canvas'. rewrite Hrun. f_equal. f_equal.
  rewrite compositeFromSmaller_unfold in Hrun. unfold compositeBody in Hrun.
  destruct (Z.ltb_spec (lod + b) 0); [lia|].
  apply foldOpt_quadrants_complete in Hrun; [|apply compositeFromSmaller_blind].
  apply Hrun. split; [done|]. intros [j i] Hq.
  unfold quadrantComplete. cbn [fst snd].
  destruct (cacheGet cache zoom (py (quadrantCoord coord i j)) (px (quadrantCoord coord i j)) lod)
    as [child|] eqn:Hchild; [left; eauto|right].
  specialize (Hcov j i Hq). inversion Hcov as [? ? ? [image Himage]|? ? ? Hsplit]; subst.
  { by rewrite Hchild in Himage. }
  exists canvas. apply IH; [lia| |done].
  apply proxyLookup_positive; [exact Hchild|done..].
Qed.

End CompositorCovered.

(** X5: under a positive bound, [compositeFromSmaller] reports a complete
    composite exactly when each of the four child cells is covered by exact
    hits: it holds an image at [lod] itself, or its own four children are
    covered one zoom level finer at [lod - 1], and so on.  Proxies found on
    the way never cut that descent short. *)
Theorem compositeFromSmaller_complete_iff_covered (cache : Cache) (canvas : list DrawOp)
    (coord : Point) (drect : Rect) (zoom lod b : Z) :
  1 ≤ b →
  (∃ canvas', compositeFromSmaller cache canvas coord drect zoom lod b = Some (true, canvas'))
  ↔ ∀ j i, (j, i) ∈ quadrants → Covered cache (quadrantCoord coord i j) zoom lod.
Proof.
  intros Hb. split.
  - intros [canvas' Hrun] j i Hq.
    by apply (compositeFromSmaller_fuel_covered _ _ _ _ _ _ _ _ _ Hrun).
  - intros Hcov. apply (compositeFromSmaller_of_covered cache (S (Z.to_nat lod))); [lia|done..].
Qed.

(** X5 at a concrete input: on [cacheThreeAndFour] three quadrants are
    exact hits and the fourth is tiled by its four children. *)
Lemma compositeFromSmaller_complete_iff_covered_witness :
  1 ≤ 3
  ∧ ((∃ canvas', compositeFromSmaller cacheThreeAndFour ([] : list DrawOp) (mkPoint 0 0)
                   (mkRect 0 0 256 256) 1 1 3 = Some (true, canvas'))
     ↔ ∀ j i, (j, i) ∈ quadrants →
         Covered cacheThreeAndFour (quadrantCoord (mkPoint 0 0) i j) 1 1).
Proof.
  assert (Hb : 1 ≤ 3) by lia.
  split; [exact Hb|].
  exact (compositeFromSmaller_complete_iff_covered cacheThreeAndFour [] (mkPoint 0 0)
           (mkRect 0 0 256 256) 1 1 3 Hb).
Defined.

(** ** Smaller-tile compositor: what is drawn *)

Lemma insideRect_quadrant (drect : Rect) (j i : Z) :
  0 ≤ rw drect < 2 ^ 31 → 0 ≤ rh drect < 2 ^ 31 → (j, i) ∈ quadrants →
  insideRect (quadrantRect drect i j) drect
  ∧ 0 ≤ rw (quadrantRect drect i j) < 2 ^ 31
  ∧ 0 ≤ rh (quadrantRect drect i j) < 2 ^ 31.
Proof.
  intros Hw Hh Hq.
  pose proof (sar_1_half _ Hw) as Hsw. pose proof (sar_1_half _ Hh) as Hsh.
  assert (0 ≤ rw drect `div` 2 ≤ rw drect).
  { pose proof (Z.div_mod (rw drect) 2 ltac:(lia)).
    pose proof (Z.mod_pos_bound (rw drect) 2 ltac:(lia)). lia. }
  assert (0 ≤ rh drect `div` 2 ≤ rh drect).
  { pose proof (Z.div_mod (rh drect) 2 ltac:(lia)).
    pose proof (Z.mod_pos_bound (rh drect) 2 ltac:(lia)). lia. }
  apply quadrants_cases in Hq.
  destruct Hq as [Hq|[Hq|[Hq|Hq]]]; injection Hq as -> ->;
    unfold insideRect, quadrantRect; simpl; rewrite Hsw, Hsh; lia.
Qed.

Lemma paintsInside_refl cache drect zoom upto canvas :
  paintsInside cache drect zoom upto canvas canvas.
Proof. exists []. by rewrite app_nil_r. Qed.

Lemma paintsInside_trans cache drect zoom upto canvas1 canvas2 canvas3 :
  paintsInside cache drect zoom upto canvas1 canvas2 →
  paintsInside cache drect zoom upto canvas2 canvas3 →
  paintsInside cache drect zoom upto canvas1 canvas3.
Proof.
  intros (d1 & -> & H1) (d2 & -> & H2). exists (d1 ++ d2).
  split; [by rewrite app_assoc|by apply Forall_app].
Qed.

Lemma paintsInside_draw cache drect zoom upto canvas image r :
  insideRect r drect → cachedFrom cache zoom upto image →
  paintsInside cache drect zoom upto canvas (drawImage canvas image r).
Proof.
  intros Hr Himage. exists [mkDraw image r]. split; [done|].
  by apply Forall_singleton.
Qed.

(** A composite over a part of [drect], one zoom level finer. *)
Lemma paintsInside_sub cache sub drect zoom upto upto' canvas canvas' :
  insideRect sub drect → upto' ≤ upto →
  paintsInside cache sub (zoom + 1) upto' canvas canvas' →
  paintsInside cache drect zoom upto canvas canvas'.
Proof.
  intros Hsub Hupto (draws & -> & Hdraws). exists draws. split; [done|].
  eapply Forall_impl; [exact Hdraws|]. intros d [Hin (z & y & x & l & Hz & Hget)].
  split.
  - unfold insideRect in *. lia.
  - exists z, y, x, l. split; [lia|done].
Qed.

Lemma proxyLookup_candidate (mipmap : option Mipmap) lod b image :
  (proxyLookup mipmap lod b).1 = Some image →
  ∃ (m : Mipmap) (l : nat), mipmap = Some m ∧ entry m l = Some image.
Proof.
  unfold proxyLookup. destruct mipmap as [m|]; [|done].
  destruct (findNearestLod m lod (Some b)) as [proxy [nb|]] eqn:Hfind; simpl;
    intros ->; apply findNearestLod_candidate in Hfind as [l Hl]; eauto.
Qed.

Lemma compositeFromSmaller_fuel_paints (fuel : nat) cache :
  ∀ (canvas : list DrawOp) coord drect zoom lod b complete canvas',
    0 ≤ rw drect < 2 ^ 31 → 0 ≤ rh drect < 2 ^ 31 →
    compositeFromSmaller_fuel fuel cache canvas coord drect zoom lod b
    = Some (complete, canvas') →
    paintsInside cache drect zoom (zoom + lod + b) canvas canvas'.
Proof.
  induction fuel as [|fuel IH];
    intros canvas coord drect zoom lod b complete canvas' Hw Hh; [done|].
  simpl. unfold compositeBody.
  destruct (Z.ltb_spec (lod + b) 0) as [|Hguard];
    [intros [= <- <-]; apply paintsInside_refl|].
  assert (Hfold : ∀ qs complete0 canvas0 complete1 canvas1,
            (∀ ji, ji ∈ qs → ji ∈ quadrants) →
            foldOpt (quadrantBody (compositeFromSmaller_fuel fuel cache) cache coord
                       drect zoom lod b) (complete0, canvas0) qs
            = Some (complete1, canvas1) →
            paintsInside cache drect zoom (zoom + lod + b) canvas0 canvas1).
  { induction qs as [|[j i] qs IHqs]; intros complete0 canvas0 complete1 canvas1 Hqs.
    { simpl. intros [= <- <-]. apply paintsInside_refl. }
    cbn [foldOpt].
    destruct (quadrantBody _ _ _ _ _ _ _ _ _) as [[complete2 canvas2]|] eqn:Hbody; [|done].
    intros Hrest. eapply paintsInside_trans;
      [|eapply IHqs; [intros ji Hji; apply Hqs; by right|exact Hrest]].
    clear Hrest IHqs.
    destruct (insideRect_quadrant drect j i Hw Hh ltac:(apply Hqs; by left))
      as (Hin & Hqw & Hqh).
    unfold quadrantBody in Hbody.
    set (cc := quadrantCoord coord i j) in *.
    destruct (cacheMipmap cache zoom (py cc) (px cc) ≫= _) as [child|] eqn:Hchild.
    - injection Hbody as <- <-. apply paintsInside_draw; [done|].
      exists zoom, (py cc), (px cc), lod. split; [lia|done].
    - destruct (proxyLookup _ _ _) as [proxy nb] eqn:Hproxy.
      destruct (compositeFromSmaller_fuel fuel cache _ _ _ _ _ _) as [[sub cv]|] eqn:Hself;
        [|done].
      injection Hbody as <- <-.
      apply IH in Hself; [|done..].
      pose proof (proxyLookup_le (cacheMipmap cache zoom (py cc) (px cc)) lod b) as Hnb.
      rewrite Hproxy in Hnb. simpl in Hnb.
      eapply paintsInside_trans; [|eapply paintsInside_sub; [exact Hin| |exact Hself]; lia].
      destruct proxy as [proxy|]; [|apply paintsInside_refl].
      apply paintsInside_draw; [done|].
      destruct (proxyLookup_candidate (cacheMipmap cache zoom (py cc) (px cc)) lod b proxy)
        as (m & l & Hm & Hl); [by rewrite Hproxy|].
      exists zoom, (py cc), (px cc), (Z.of_nat l). split; [lia|].
      unfold cacheGet. rewrite Hm. simpl. by rewrite mipmapGet_entry. }
  intros Hrun. by apply (Hfold quadrants _ _ _ _ ltac:(done) Hrun).
Qed.

(** X6: [compositeFromSmaller] only adds to the canvas: what was drawn
    before stays, in order.  For a destination rectangle whose width and
    height are non-negative and below 2^31, every draw it adds lies inside
    that rectangle, and every image it draws is one the cache holds, in a
    cell of a zoom level from the [zoom] it was called for to
    [zoom + lod + proxyBetterThan]: the bound caps how deep the composite
    looks. *)
Theorem compositeFromSmaller_paints_inside (cache : Cache) (canvas : list DrawOp)
    (coord : Point) (drect : Rect) (zoom lod b : Z) :
  0 ≤ rw drect < 2 ^ 31 →
  0 ≤ rh drect < 2 ^ 31 →
  ∃ complete canvas',
    compositeFromSmaller cache canvas coord drect zoom lod b = Some (complete, canvas')
    ∧ paintsInside cache drect zoom (zoom + lod + b) canvas canvas'.
Proof.
  intros Hw Hh.
  destruct (compositeFromSmaller_is_Some cache canvas coord drect zoom lod b)
    as [[complete canvas'] Hrun].
  exists complete, canvas'. split; [done|].
  by apply (compositeFromSmaller_fuel_paints _ _ _ _ _ _ _ _ _ _ Hw Hh Hrun).
Qed.

(** X6 at a concrete input: the composite of [cacheThreeAndFour] on a
    256 x 256 canvas. *)
Lemma compositeFromSmaller_paints_inside_witness :
  0 ≤ rw (mkRect 0 0 256 256) < 2 ^ 31
  ∧ 0 ≤ rh (mkRect 0 0 256 256) < 2 ^ 31
  ∧ ∃ complete canvas',
      compositeFromSmaller cacheThreeAndFour [] (mkPoint 0 0) (mkRect 0 0 256 256) 1 1 3
      = Some (complete, canvas')
      ∧ paintsInside cacheThreeAndFour (mkRect 0 0 256 256) 1 (1 + 1 + 3) [] canvas'.
Proof.
  assert (Hw : 0 ≤ rw (mkRect 0 0 256 256) < 2 ^ 31) by (simpl; lia).
  assert (Hh : 0 ≤ rh (mkRect 0 0 256 256) < 2 ^ 31) by (simpl; lia).
  split; [exact Hw|]. split; [exact Hh|].
  exact (compositeFromSmaller_paints_inside cacheThreeAndFour [] (mkPoint 0 0)
           (mkRect 0 0 256 256) 1 1 3 Hw Hh).
Defined.

(** ** The engine: which misses start a fetch *)

(** The difference that [tileFromLarger] returns is never negative, and it
    is 0 exactly when some ancestor cell holds the matching LOD. *)
Lemma tileFromLarger_difference zoom coord lod st :
  match (tileFromLarger zoom coord lod st).1.2 with
  | Some difference =>
      0 ≤ difference
      ∧ (difference = 0
         ↔ ∃ levelsAbove (l : nat), 0 ≤ levelsAbove ≤ zoom
             ∧ Z.of_nat l = lod + levelsAbove
             ∧ is_Some (ancestorEntry (imageCache st) zoom coord levelsAbove l))
  | None =>
      ∀ levelsAbove l, 0 ≤ levelsAbove ≤ zoom →
        ancestorEntry (imageCache st) zoom coord levelsAbove l = None
  end.
Proof.
  unfold tileFromLarger.
  pose proof (largerSearch_searched (imageCache st) zoom coord lod) as Hs.
  destruct (largerSearch _ _ _ _) as [[d|] [best|]]; simpl in *; try done.
  - destruct Hs as (Hb & _ & _ & l & Hl & -> & Hbest).
    unfold ancestorDifference, lodDistance. split; [lia|]. split.
    + intros Hd. exists (bLevelsAbove best), l. split; [lia|]. split; [lia|].
      rewrite Hl. eauto.
    + intros (la & l' & Hla & Heq & [image Himage]).
      specialize (Hbest la l' image ltac:(lia) Himage).
      unfold preferred, ancestorDifference, lodDistance in Hbest. simpl in Hbest. lia.
  - intros la l Hla. apply Hs. lia.
Qed.

(** The completeness answer of [tileFromSmaller] for the bound that
    [createTileContent] passes. *)
Lemma compositeFromSmaller_complete_covered cache (canvas : list DrawOp) coord drect
    zoom lod b complete canvas' :
  1 ≤ b ∨ lod < 0 →
  compositeFromSmaller cache canvas coord drect zoom lod b = Some (complete, canvas') →
  complete = true
  ↔ ∀ j i, (j, i) ∈ quadrants → Covered cache (quadrantCoord coord i j) zoom lod.
Proof.
  intros Hb Hrun. split.
  - intros ->. intros j i Hq.
    by apply (compositeFromSmaller_fuel_covered _ _ _ _ _ _ _ _ _ Hrun).
  - intros Hcov.
    pose proof (Covered_lod_nonneg _ _ _ _ (Hcov 0 0 ltac:(apply quadrants_cases; by left)))
      as Hlod.
    destruct Hb as [Hb|Hneg]; [|lia].
    destruct (compositeFromSmaller_of_covered cache (S (Z.to_nat lod)) canvas coord drect
                zoom lod b ltac:(lia) Hb Hcov) as [cv Hcv].
    rewrite Hcv in Hrun. by injection Hrun as <- _.
Qed.

(** The two ways [getTileContent] ends.  Either the cache alone shows the
    tile: one layer, nothing fetched.  Or it does not: the layers are the
    crop that [tileFromLarger] returned, if any, then the canvas holding
    the incomplete composite of [compositeFromSmaller], then the image of
    the one fetch that is started. *)
Lemma getTileContent_paths (coord : Point) (zoom : Z) (st : State) :
  ∃ content st',
    getTileContent coord zoom st = Some (content, st')
    ∧ ((servedFromCache (imageCache st) coord zoom (targetLod st zoom)
        ∧ pending st' = pending st
        ∧ ∃ layer, content = [layer])
       ∨ (¬ servedFromCache (imageCache st) coord zoom (targetLod st zoom)
          ∧ ∃ (fromSmaller : Canvas) (image : Image),
              content
              = match (tileFromLarger zoom coord (targetLod st zoom) st).1.1 with
                | Some canvas => [CanvasEl canvas]
                | None => []
                end ++ [CanvasEl fromSmaller; ImageEl image]
              ∧ cSize fromSmaller = tileSize st
              ∧ compositeFromSmaller (imageCache st) [] coord
                  (mkRect 0 0 (tileSize st) (tileSize st)) (zoom + 1)
                  (targetLod st zoom - 1)
                  (orElse (tileFromLarger zoom coord (targetLod st zoom) st).1.2
                     (maxOversample st + 1))
                = Some (false, cDraws fromSmaller)
              ∧ pending st'
                = pending st ++ [mkFetch zoom coord (targetLod st zoom) image])).
Proof.
  pose proof (targetLod_nonneg st zoom) as Hlod.
  unfold getTileContent, servedFromCache.
  destruct (cacheGet _ _ _ _ _) as [cached|] eqn:Hcached.
  { eexists _, _. split; [done|]. left. split; [left; eauto|]. split; [done|eauto]. }
  destruct (createTileContent_cases coord zoom (targetLod st zoom) st)
    as (fromLarger & difference & h & fromSmaller & complete & Hlarger & Hsmaller & ->).
  pose proof (tileFromLarger_difference zoom coord (targetLod st zoom) st) as Hdiff.
  rewrite Hlarger in Hdiff |- *. simpl in Hdiff. cbn [fst snd].
  assert (Hexact : isZero difference = true
            ↔ ∃ levelsAbove, 0 ≤ levelsAbove ≤ zoom
                ∧ is_Some (cacheGet (imageCache st) (zoom - levelsAbove)
                             (sar (py coord) levelsAbove) (sar (px coord) levelsAbove)
                             (targetLod st zoom + levelsAbove))).
  { destruct difference as [d|]; simpl.
    - destruct Hdiff as [_ Hzero]. rewrite Z.eqb_eq, Hzero. split.
      + intros (la & l & Hla & Hl & Hsome). unfold ancestorEntry in Hsome.
        rewrite Hl in Hsome. eauto.
      + intros (la & Hla & Hsome). exists la, (Z.to_nat (targetLod st zoom + la)).
        split; [done|]. split; [lia|]. unfold ancestorEntry.
        by replace (Z.of_nat (Z.to_nat (targetLod st zoom + la)))
          with (targetLod st zoom + la) by lia.
    - split; [done|]. intros (la & Hla & [image Hsome]).
      specialize (Hdiff la (Z.to_nat (targetLod st zoom + la)) Hla).
      unfold ancestorEntry in Hdiff.
      replace (Z.of_nat (Z.to_nat (targetLod st zoom + la)))
        with (targetLod st zoom + la) in Hdiff by lia.
      by rewrite Hdiff in Hsome. }
  destruct (tileFromSmaller_total zoom coord (targetLod st zoom)
              (orElse difference (maxOversample st + 1)) (setNextHandle h st))
    as (draws & complete' & Hcomposite & Hsmaller').
  rewrite Hsmaller in Hsmaller'. injection Hsmaller' as -> <-.
  simpl in Hcomposite.
  pose proof Hcomposite as Hcovered.
  apply compositeFromSmaller_complete_covered in Hcovered.
  2:{ destruct difference as [d|]; simpl.
      - destruct (Z.eqb_spec d 0) as [->|Hne]; [|lia].
        unfold targetLod in *. lia.
      - unfold targetLod in *. lia. }
  destruct (isZero difference) eqn:Hzero.
  { eexists _, _. split; [done|]. simpl. left.
    split; [right; left; by apply Hexact|]. split; [done|eauto]. }
  destruct complete.
  { eexists _, _. split; [done|]. simpl. left.
    split; [right; right; by apply Hcovered|]. split; [done|eauto]. }
  eexists _, _. split; [done|]. simpl. right. split.
  - intros [[image Himage]|[Hlarger'|Hcov]].
    + done.
    + apply Hexact in Hlarger'. done.
    + apply Hcovered in Hcov. done.
  - eexists _, _. split; [reflexivity|]. simpl. split; [done|]. split; [exact Hcomposite|done].
Qed.

(** C9: [getTileContent] always returns, for every state, coord and zoom: a
    list of layers that is not empty and holds only drawable elements (no
    [null]).  Whenever the cache alone cannot show the tile at its target
    LOD (no exact entry, no exactly matching ancestor, children not all
    covered), the list is the crop of an ancestor image if
    [tileFromLarger] found one, then a tile-size canvas holding the
    incomplete composite of the smaller tiles, possibly blank, then the
    image of the fetch that this call starts, which is the one fetch added
    to the pending ones.  Otherwise it is a single layer and nothing is
    fetched.  On the empty cache the composite is blank and the list is
    this canvas and the image. *)
Theorem getTileContent_always_content (st : State) (coord : Point) (zoom : Z) :
  ∃ content st',
    getTileContent coord zoom st = Some (content, st')
    ∧ content ≠ []
    ∧ (NullEl ∉ content)
    ∧ (servedFromCache (imageCache st) coord zoom (targetLod st zoom) →
       pending st' = pending st ∧ ∃ layer, content = [layer])
    ∧ (¬ servedFromCache (imageCache st) coord zoom (targetLod st zoom) →
       ∃ (fromSmaller : Canvas) (image : Image),
         content
         = match (tileFromLarger zoom coord (targetLod st zoom) st).1.1 with
           | Some canvas => [CanvasEl canvas]
           | None => []
           end ++ [CanvasEl fromSmaller; ImageEl image]
         ∧ cSize fromSmaller = tileSize st
         ∧ compositeFromSmaller (imageCache st) [] coord
             (mkRect 0 0 (tileSize st) (tileSize st)) (zoom + 1)
             (targetLod st zoom - 1)
             (orElse (tileFromLarger zoom coord (targetLod st zoom) st).1.2
                (maxOversample st + 1))
           = Some (false, cDraws fromSmaller)
         ∧ pending st' = pending st ++ [mkFetch zoom coord (targetLod st zoom) image])
    ∧ (imageCache st = ∅ →
       content = [CanvasEl (mkCanvas (nextHandle st) (tileSize st) []);
                  ImageEl (S (nextHandle st))]
       ∧ pending st'
         = pending st ++ [mkFetch zoom coord (targetLod st zoom) (S (nextHandle st))]).
Proof.
  destruct (getTileContent_drawable st coord zoom)
    as (content & st' & Hget & Hne & Hnull & Hempty).
  destruct (getTileContent_paths coord zoom st)
    as (content' & st'' & Hget' & Hpaths).
  rewrite Hget in Hget'. injection Hget' as <- <-.
  exists content, st'. split; [done|]. split; [done|]. split; [done|].
  destruct Hpaths as [(Hserved & Hpending & Hlayer)|(Hmiss & Hlayers)].
  - split; [done|]. split; [|done]. intros Hnot. by destruct Hnot.
  - split; [|split; [done|done]]. intros Hserved. by destruct Hmiss.
Qed.

(** X7: [getTileContent] starts a fetch exactly when the cache alone cannot
    show the tile at its target LOD: the cell holds no image at that LOD, no
    ancestor cell holds the LOD that matches exactly ([lod + levelsAbove]),
    and the four children are not all covered by exact hits one zoom level
    finer and one LOD lower.  The fetch is then for this cell at the target
    LOD, and its image is the last layer of the content. *)
Theorem getTileContent_fetch_iff (coord : Point) (zoom : Z) (st : State) :
  ∃ content st',
    getTileContent coord zoom st = Some (content, st')
    ∧ (pending st' = pending st
       ↔ servedFromCache (imageCache st) coord zoom (targetLod st zoom))
    ∧ (pending st' = pending st
       ∨ ∃ image, pending st' = pending st ++ [mkFetch zoom coord (targetLod st zoom) image]
                  ∧ last content = Some (ImageEl image)).
Proof.
  pose proof (targetLod_nonneg st zoom) as Hlod.
  unfold getTileContent, servedFromCache.
  destruct (cacheGet _ _ _ _ _) as [cached|] eqn:Hcached.
  { eexists _, _. split; [done|]. split; [|by left]. split; [eauto|done]. }
  destruct (createTileContent_cases coord zoom (targetLod st zoom) st)
    as (fromLarger & difference & h & fromSmaller & complete & Hlarger & Hsmaller & ->).
  pose proof (tileFromLarger_difference zoom coord (targetLod st zoom) st) as Hdiff.
  rewrite Hlarger in Hdiff. simpl in Hdiff.
  assert (Hexact : isZero difference = true
            ↔ ∃ levelsAbove, 0 ≤ levelsAbove ≤ zoom
                ∧ is_Some (cacheGet (imageCache st) (zoom - levelsAbove)
                             (sar (py coord) levelsAbove) (sar (px coord) levelsAbove)
                             (targetLod st zoom + levelsAbove))).
  { destruct difference as [d|]; simpl.
    - destruct Hdiff as [_ Hzero]. rewrite Z.eqb_eq, Hzero. split.
      + intros (la & l & Hla & Hl & Hsome). unfold ancestorEntry in Hsome.
        rewrite Hl in Hsome. eauto.
      + intros (la & Hla & Hsome). exists la, (Z.to_nat (targetLod st zoom + la)).
        split; [done|]. split; [lia|]. unfold ancestorEntry.
        by replace (Z.of_nat (Z.to_nat (targetLod st zoom + la)))
          with (targetLod st zoom + la) by lia.
    - split; [done|]. intros (la & Hla & [image Hsome]).
      specialize (Hdiff la (Z.to_nat (targetLod st zoom + la)) Hla).
      unfold ancestorEntry in Hdiff.
      replace (Z.of_nat (Z.to_nat (targetLod st zoom + la)))
        with (targetLod st zoom + la) in Hdiff by lia.
      by rewrite Hdiff in Hsome. }
  destruct (tileFromSmaller_total zoom coord (targetLod st zoom)
              (orElse difference (maxOversample st + 1)) (setNextHandle h st))
    as (draws & complete' & Hcomposite & Hsmaller').
  rewrite Hsmaller in Hsmaller'. injection Hsmaller' as -> <-.
  simpl in Hcomposite.
  apply compositeFromSmaller_complete_covered in Hcomposite.
  2:{ destruct difference as [d|]; simpl.
      - destruct (Z.eqb_spec d 0) as [->|Hne]; [|lia].
        unfold targetLod in *. lia.
      - unfold targetLod in *. lia. }
  destruct (isZero difference) eqn:Hzero.
  { eexists _, _. split; [done|]. simpl. split; [|by left].
    split; [|done]. intros _. right. left. by apply Hexact. }
  destruct complete.
  { eexists _, _. split; [done|]. simpl. split; [|by left].
    split; [|done]. intros _. right. right. by apply Hcomposite. }
  eexists _, _. split; [done|]. simpl. split.
  - split.
    + intros Hpending. apply (f_equal length) in Hpending.
      rewrite length_app in Hpending. simpl in Hpending. lia.
    + intros [[image Himage]|[Hlarger'|Hcov]].
      * done.
      * apply Hexact in Hlarger'. done.
      * apply Hcomposite in Hcov. done.
  - right. exists (S h). split; [done|].
    destruct fromLarger; reflexivity.
Qed.

(** ** The engine: from the request to the cached image *)

(** What a request leaves pending. *)
Lemma getTileContent_pending coord zoom st content st' :
  getTileContent coord zoom st = Some (content, st') →
  pending st' = pending st
  ∨ ∃ image, pending st' = pending st ++ [mkFetch zoom coord (targetLod st zoom) image]
             ∧ last content = Some (ImageEl image).
Proof.
  unfold getTileContent.
  destruct (cacheGet _ _ _ _ _) as [cached|]; [intros [= <- <-]; by left|].
  destruct (createTileContent_cases coord zoom (targetLod st zoom) st)
    as (fromLarger & difference & h & fromSmaller & complete & _ & _ & ->).
  destruct (isZero difference); [intros [= <- <-]; by left|].
  destruct complete; [intros [= <- <-]; by left|].
  intros [= <- <-]. right. exists (S h). split; [done|]. by destruct fromLarger.
Qed.

Lemma step_options st ev st' :
  step st ev = Some st' → keepsOptions ev = true →
  levelOfDetail st' = levelOfDetail st ∧ maxOversample st' = maxOversample st.
Proof.
  destruct ev as [coord zoom|coord zoom|tile| |v|v|k|k]; simpl; try done.
  - unfold getTile, createElement.
    destruct (getTileContent _ _ _) as [[content st1]|] eqn:Hget; [|done].
    intros [= <-] _. apply getTileContent_quiet in Hget as (_ & _ & Hl & Hm & _).
    simpl in *. done.
  - destruct (getTileContent _ _ _) as [[content st1]|] eqn:Hget; [|done].
    intros [= <-] _. by apply getTileContent_quiet in Hget as (_ & _ & Hl & Hm & _).
  - by intros [= <-] _.
  - destruct (refreshTiles st) as [[r st1]|] eqn:Hr; [|done].
    intros [= <-] _. by apply refreshTiles_quiet in Hr as (_ & _ & Hl & Hm & _).
  - unfold decodeFulfilled. destruct (pending st !! k); [|done]. by intros [= <-] _.
  - unfold decodeRejected. destruct (pending st !! k); [|done]. by intros [= <-] _.
Qed.

Lemma run_options st evs st' :
  run st evs = Some st' → Forall (λ ev, keepsOptions ev = true) evs →
  levelOfDetail st' = levelOfDetail st ∧ maxOversample st' = maxOversample st.
Proof.
  unfold run. revert st. induction evs as [|ev evs IH]; intros st; simpl.
  - by intros [= <-].
  - destruct (step st ev) as [st1|] eqn:Hstep; [|done].
    intros Hrun [Hev Hevs]%Forall_cons.
    destruct (IH _ Hrun Hevs) as [-> ->]. by apply (step_options _ _ _ Hstep).
Qed.

(** X8: the image that a request shows as its top layer while it loads is
    the very element that the cache serves afterwards.  When a request
    has started a fetch, then after any further calls and decode
    completions that leave [levelOfDetail] and [maxOversample] as they
    were, the completion of this fetch makes the next request for the
    same tile return that image alone, with no new element, no drawing
    and no new fetch. *)
Theorem fetched_image_served (coord : Point) (zoom : Z) (st st1 st2 : State)
    (content : list Element) (f : Fetch) (evs : list Event) (k : nat) :
  getTileContent coord zoom st = Some (content, st1) →
  pending st1 = pending st ++ [f] →
  run st1 evs = Some st2 →
  Forall (λ ev, keepsOptions ev = true) evs →
  pending st2 !! k = Some f →
  last content = Some (ImageEl (fImage f))
  ∧ ∃ st3, step st2 (DecodeFulfilled k) = Some st3
           ∧ getTileContent coord zoom st3 = Some ([ImageEl (fImage f)], st3).
Proof.
  intros Hget Hpending Hrun Hevs Hk.
  pose proof (getTileContent_quiet _ _ _ _ _ Hget) as (_ & _ & Hl1 & Hm1 & _).
  destruct (getTileContent_pending _ _ _ _ _ Hget) as [Hsame|(image & Hstarted & Hlast)].
  { rewrite Hsame in Hpending. apply (f_equal length) in Hpending.
    rewrite length_app in Hpending. simpl in Hpending. lia. }
  rewrite Hstarted in Hpending. apply app_inv_head in Hpending. injection Hpending as <-.
  split; [done|].
  destruct (run_options _ _ _ Hrun Hevs) as [Hl2 Hm2].
  simpl. unfold decodeFulfilled. rewrite Hk. eexists. split; [done|].
  unfold getTileContent, targetLod. simpl. rewrite Hl2, Hm2, Hl1, Hm1.
  rewrite cacheGet_store. rewrite decide_True; [done|].
  unfold targetLod. split_and!; try done. lia.
Qed.

(** X8 at a concrete input: the first tile of a fresh map type, with
    another tile requested before its image is decoded. *)
Lemma fetched_image_served_witness :
  getTileContent (mkPoint 0 0) 0 (newWmsMapType None None None)
  = Some ([CanvasEl (mkCanvas 0%nat 256 []); ImageEl 1%nat], stateRequested)
  ∧ pending stateRequested
    = pending (newWmsMapType None None None) ++ [mkFetch 0 (mkPoint 0 0) 0 1%nat]
  ∧ run stateRequested [GetTile (mkPoint 1 0) 1] = Some stateRequestedNext
  ∧ pending stateRequestedNext !! 0%nat = Some (mkFetch 0 (mkPoint 0 0) 0 1%nat)
  ∧ ∃ st3, step stateRequestedNext (DecodeFulfilled 0%nat) = Some st3
           ∧ getTileContent (mkPoint 0 0) 0 st3 = Some ([ImageEl 1%nat], st3).
Proof.
  assert (Hget : getTileContent (mkPoint 0 0) 0 (newWmsMapType None None None)
            = Some ([CanvasEl (mkCanvas 0%nat 256 []); ImageEl 1%nat], stateRequested))
    by (vm_compute; reflexivity).
  assert (Hpending : pending stateRequested
            = pending (newWmsMapType None None None) ++ [mkFetch 0 (mkPoint 0 0) 0 1%nat])
    by (vm_compute; reflexivity).
  assert (Hrun : run stateRequested [GetTile (mkPoint 1 0) 1] = Some stateRequestedNext)
    by (vm_compute; reflexivity).
  assert (Hevs : Forall (λ ev, keepsOptions ev = true) [GetTile (mkPoint 1 0) 1])
    by (repeat constructor).
  assert (Hk : pending stateRequestedNext !! 0%nat = Some (mkFetch 0 (mkPoint 0 0) 0 1%nat))
    by (vm_compute; reflexivity).
  split; [exact Hget|]. split; [exact Hpending|]. split; [exact Hrun|]. split; [exact Hk|].
  exact (proj2 (fetched_image_served (mkPoint 0 0) 0 (newWmsMapType None None None)
                  stateRequested stateRequestedNext _ _ _ 0%nat Hget Hpending Hrun Hevs Hk)).
Defined.

(** ** The engine: elements and handles *)

Lemma started_refl st : started st st.
Proof.
  exists (nextHandle st), []. split; [by destruct st; unfold setPending; simpl; rewrite app_nil_r|].
  split; [done|]. split; [constructor|constructor].
Qed.

Lemma started_trans st1 st2 st3 : started st1 st2 → started st2 st3 → started st1 st3.
Proof.
  intros (h1 & f1 & -> & Hh1 & Hnd1 & Hf1) (h2 & f2 & -> & Hh2 & Hnd2 & Hf2).
  simpl in *. exists h2, (f1 ++ f2). split; [by rewrite app_assoc|].
  split; [lia|]. split.
  - rewrite fmap_app. apply NoDup_app. split; [done|]. split; [|done].
    intros image (f & -> & Hin1)%list_elem_of_fmap (f' & Heq & Hin2)%list_elem_of_fmap.
    rewrite Forall_forall in Hf1, Hf2.
    specialize (Hf1 _ Hin1). specialize (Hf2 _ Hin2). lia.
  - apply Forall_app. split.
    + eapply Forall_impl; [exact Hf1|]. simpl. intros f [Hi Hlod]. split; [lia|done].
    + eapply Forall_impl; [exact Hf2|]. simpl. intros f [Hi Hlod]. split; [lia|done].
Qed.

Lemma started_createElement st : started st (createElement st).2.
Proof.
  exists (S (nextHandle st)), []. simpl.
  split; [by unfold setPending; simpl; rewrite app_nil_r|].
  split; [lia|]. split; constructor.
Qed.

Lemma tileFromLarger_started zoom coord lod st :
  started st (tileFromLarger zoom coord lod st).2.
Proof.
  unfold tileFromLarger. destruct (largerSearch _ _ _ _) as [d [best|]]; simpl.
  - apply started_createElement.
  - apply started_refl.
Qed.

Lemma createTileContent_started coord zoom lod st content st' :
  lod = targetLod st zoom →
  createTileContent coord zoom lod st = Some (content, st') → started st st'.
Proof.
  intros Hlod.
  destruct (createTileContent_cases coord zoom lod st)
    as (fromLarger & difference & h & fromSmaller & complete & Hlarger & _ & ->).
  pose proof (tileFromLarger_started zoom coord lod st) as Hst.
  rewrite Hlarger in Hst. simpl in Hst.
  destruct Hst as (h' & fetches & Heq & Hh & _ & _).
  assert (h' = h) as -> by (apply (f_equal nextHandle) in Heq; simpl in Heq; done).
  destruct (isZero difference); [|destruct complete]; intros [= <- <-].
  - exists h, []. split; [by unfold setPending; simpl; rewrite app_nil_r|].
    split; [done|]. split; constructor.
  - exists (S h), []. split; [by unfold setPending; simpl; rewrite app_nil_r|].
    split; [lia|]. split; constructor.
  - exists (S (S h)), [mkFetch zoom coord lod (S h)]. split; [done|].
    split; [lia|]. split.
    + apply NoDup_singleton.
    + apply Forall_singleton. simpl. split; [lia|done].
Qed.

Lemma getTileContent_started coord zoom st content st' :
  getTileContent coord zoom st = Some (content, st') → started st st'.
Proof.
  unfold getTileContent. destruct (cacheGet _ _ _ _ _).
  - intros [= <- <-]. apply started_refl.
  - by apply createTileContent_started.
Qed.

Lemma refreshTiles_started st r st' : refreshTiles st = Some (r, st') → started st st'.
Proof.
  unfold refreshTiles. generalize (activeTiles st) as tiles.
  enough (Hgen : ∀ tiles acc r st',
            started st acc.2 →
            foldOpt
              (λ (acc : list (Handle * list Element) * State) (e : Handle * TileParams),
                 match getTileContent (tpCoord e.2) (tpZoom e.2) acc.2 with
                 | Some (content, st') => Some (acc.1 ++ [(e.1, content)], st')
                 | None => None
                 end) acc tiles = Some (r, st') →
            started st st').
  { intros tiles. apply Hgen. apply started_refl. }
  clear r st'. induction tiles as [|e tiles IH]; intros acc r st' Hacc; simpl.
  - intros [= ->]. exact Hacc.
  - destruct (getTileContent _ _ _) as [[content st1]|] eqn:Hget; [|done].
    apply IH. simpl. eapply started_trans; [exact Hacc|].
    by eapply getTileContent_started.
Qed.

(** ** The engine: every element is created once *)

(** Dropping [div]s or loading images keeps the handles in order. *)
Lemma handlesOk_shrink st st' :
  handlesOk st →
  imageCache st' = imageCache st → nextHandle st' = nextHandle st →
  divs st' `sublist_of` divs st → loading st' `sublist_of` loading st →
  handlesOk st'.
Proof.
  intros (Hnd & Hlt & Hcached & Hinj) Hcache Hnext Hdivs Hloading.
  pose proof (sublist_app _ _ _ _ Hdivs Hloading) as Hsub.
  unfold handlesOk. rewrite Hcache, Hnext. split_and!.
  - by eapply sublist_NoDup.
  - rewrite Forall_forall in Hlt |- *. intros h Hh. apply Hlt. by eapply elem_of_sublist.
  - intros image Himage. destruct (Hcached image Himage) as [Hi Hnot]. split; [done|].
    intros Hin. apply Hnot. by eapply elem_of_sublist.
  - done.
Qed.

Lemma handlesOk_started st st' : handlesOk st → started st st' → handlesOk st'.
Proof.
  intros (Hnd & Hlt & Hcached & Hinj) (h & fetches & -> & Hh & Hndf & Hf).
  unfold handlesOk, divs, loading in *. simpl.
  rewrite fmap_app, app_assoc.
  assert (Hnew : ∀ image, image ∈ fImage <$> fetches → (nextHandle st ≤ image < h)%nat).
  { intros image (f & -> & Hin)%list_elem_of_fmap. rewrite Forall_forall in Hf.
    by destruct (Hf _ Hin). }
  rewrite Forall_forall in Hlt.
  split_and!.
  - apply NoDup_app. split; [done|]. split; [|done].
    intros image Hold Hin. specialize (Hlt _ Hold). specialize (Hnew _ Hin). lia.
  - rewrite Forall_forall. intros image [Hold|Hin]%elem_of_app.
    + specialize (Hlt _ Hold). lia.
    + specialize (Hnew _ Hin). lia.
  - intros image Himage. destruct (Hcached image Himage) as [Hi Hnot].
    split; [lia|]. intros [Hold|Hin]%elem_of_app; [done|].
    specialize (Hnew _ Hin). lia.
  - done.
Qed.

Lemma mapSet_fresh {V} (key : Handle) (v : V) (m : list (Handle * V)) :
  key ∉ m.*1 → mapSet key v m = m ++ [(key, v)].
Proof.
  induction m as [|[k w] m IH]; simpl; [done|].
  intros Hnot. apply not_elem_of_cons in Hnot as [Hne Hnot].
  rewrite decide_False by done. by rewrite IH.
Qed.

(** What [getTile] does to the state: the [div] is a new element, its
    content is what [getTileContent] returns next, and the [div] is
    registered last. *)
Lemma getTile_registers coord zoom st div content st' :
  handlesOk st →
  getTile coord zoom st = Some ((div, content), st') →
  div = nextHandle st
  ∧ (div ∉ divs st)
  ∧ activeTiles st' = activeTiles st ++ [(div, mkTileParams coord zoom)]
  ∧ ∃ st1, getTileContent coord zoom (createElement st).2 = Some (content, st1)
           ∧ st' = setActiveTiles (activeTiles st ++ [(div, mkTileParams coord zoom)]) st1.
Proof.
  intros (_ & Hlt & _) Hget. unfold getTile in Hget. simpl in Hget.
  destruct (getTileContent _ _ _) as [[content1 st1]|] eqn:Hcontent; [|done].
  injection Hget as <- <- <-.
  pose proof (getTileContent_quiet _ _ _ _ _ Hcontent) as (_ & _ & _ & _ & Hreg & _).
  simpl in Hreg.
  assert (Hfresh : nextHandle st ∉ divs st).
  { intros Hin. rewrite Forall_forall in Hlt.
    specialize (Hlt (nextHandle st) ltac:(apply elem_of_app; by left)). lia. }
  rewrite Hreg, mapSet_fresh by done.
  split; [done|]. split; [done|]. split; [done|]. by exists st1.
Qed.

Lemma handlesOk_register st div params :
  handlesOk st → div = nextHandle st →
  handlesOk (setActiveTiles (activeTiles st ++ [(div, params)]) (setNextHandle (S div) st)).
Proof.
  intros (Hnd & Hlt & Hcached & Hinj) ->.
  unfold handlesOk, divs, loading in *. simpl. rewrite fmap_app. simpl.
  rewrite Forall_forall in Hlt.
  assert (Hfresh : nextHandle st ∉ (activeTiles st).*1 ++ (fImage <$> pending st)).
  { intros Hin. specialize (Hlt _ Hin). lia. }
  split_and!.
  - rewrite <- app_assoc. simpl.
    apply NoDup_app in Hnd as (Hnd1 & Hdis & Hnd2).
    apply NoDup_app. split; [done|]. split.
    + intros h Hh [->|Hin]%elem_of_cons; [|by apply (Hdis h)].
      apply Hfresh, elem_of_app. by left.
    + apply NoDup_cons. split; [|done]. intros Hin. apply Hfresh, elem_of_app. by right.
  - rewrite Forall_forall. intros h Hh.
    rewrite <- app_assoc in Hh. simpl in Hh.
    apply elem_of_app in Hh as [Hh|[->|Hh]%elem_of_cons]; [|lia|].
    + specialize (Hlt h ltac:(apply elem_of_app; by left)). lia.
    + specialize (Hlt h ltac:(apply elem_of_app; by right)). lia.
  - intros image Himage. destruct (Hcached image Himage) as [Hi Hnot].
    split; [lia|]. rewrite <- app_assoc. simpl.
    intros [Hin|[->|Hin]%elem_of_cons]%elem_of_app; [|lia|].
    + apply Hnot, elem_of_app. by left.
    + apply Hnot, elem_of_app. by right.
  - done.
Qed.

Lemma handlesOk_getTile coord zoom st r st' :
  handlesOk st → getTile coord zoom st = Some (r, st') → handlesOk st'.
Proof.
  intros Hok Hget. destruct r as [div content].
  destruct (getTile_registers _ _ _ _ _ _ Hok Hget) as (Hdiv & _ & _ & st1 & Hcontent & ->).
  apply getTileContent_started in Hcontent as (h & fetches & -> & Hh & Hndf & Hf).
  simpl in *.
  apply (handlesOk_started
           (setActiveTiles (activeTiles st ++ [(div, mkTileParams coord zoom)])
              (setNextHandle (S div) st))).
  - by apply handlesOk_register.
  - exists h, fetches. simpl. subst div. done.
Qed.

Lemma divs_releaseTile tile st : divs (releaseTile tile st) = filter (λ h, h ≠ tile) (divs st).
Proof.
  unfold divs, releaseTile. simpl. induction (activeTiles st) as [|[k v] m IH]; [done|].
  rewrite filter_cons. simpl. rewrite filter_cons. simpl.
  destruct (decide (k ≠ tile)); simpl; by f_equal.
Qed.

Lemma handlesOk_decodeFulfilled k st st' :
  handlesOk st → Forall (λ f, 0 ≤ fLod f) (pending st) →
  decodeFulfilled k st = Some st' → handlesOk st'.
Proof.
  intros (Hnd & Hlt & Hcached & Hinj) Hlods. unfold decodeFulfilled.
  destruct (pending st !! k) as [f|] eqn:Hk; [|done]. intros [= <-].
  assert (Hf : fImage f ∈ loading st).
  { apply list_elem_of_fmap. exists f. split; [done|]. by eapply list_elem_of_lookup_2. }
  assert (Hlod : 0 ≤ fLod f) by (rewrite Forall_forall in Hlods; apply Hlods;
                                   by eapply list_elem_of_lookup_2).
  assert (Hnotcached : ¬ cached (imageCache st) (fImage f)).
  { intros Hc. destruct (Hcached _ Hc) as [_ Hnot]. apply Hnot, elem_of_app. by right. }
  assert (Hgone : fImage f ∉ delete k (loading st)).
  { unfold loading in *. apply NoDup_app in Hnd as (_ & _ & Hnd2).
    rewrite delete_take_drop. intros [Hin|Hin]%elem_of_app.
    - apply list_elem_of_lookup in Hin as [i Hi].
      pose proof (lookup_lt_Some _ _ _ Hi) as Hlen. rewrite length_take in Hlen.
      rewrite lookup_take_lt in Hi by lia.
      assert (Hk' : (fImage <$> pending st) !! k = Some (fImage f))
        by (by rewrite list_lookup_fmap, Hk).
      pose proof (NoDup_lookup _ _ _ _ Hnd2 Hi Hk'). lia.
    - apply list_elem_of_lookup in Hin as [i Hi]. rewrite lookup_drop in Hi.
      assert (Hk' : (fImage <$> pending st) !! k = Some (fImage f))
        by (by rewrite list_lookup_fmap, Hk).
      pose proof (NoDup_lookup _ _ _ _ Hnd2 Hi Hk'). lia. }
  assert (Hsub : divs st ++ delete k (loading st) `sublist_of` divs st ++ loading st).
  { apply sublist_app; [done|apply sublist_delete]. }
  unfold handlesOk, divs, loading in *. simpl. rewrite list_fmap_delete.
  rewrite Forall_forall in Hlt.
  assert (Hnew : ∀ zoom y x lod image,
            cacheGet (cacheStore (imageCache st) (fZoom f) (py (fCoord f)) (px (fCoord f))
                        (Z.to_nat (fLod f)) (fImage f)) zoom y x lod = Some image →
            (image = fImage f
             ∧ zoom = fZoom f ∧ y = py (fCoord f) ∧ x = px (fCoord f) ∧ lod = fLod f)
            ∨ (image ≠ fImage f ∧ cacheGet (imageCache st) zoom y x lod = Some image)).
  { intros zoom y x lod image. rewrite cacheGet_store. case_decide as Hcell.
    - intros [= <-]. left. split; [done|]. destruct Hcell as (-> & -> & -> & ->).
      split_and!; try done. lia.
    - intros Hold. right. split; [|done]. intros ->. apply Hnotcached.
      by exists zoom, y, x, lod. }
  split_and!.
  - by eapply sublist_NoDup.
  - rewrite Forall_forall. intros h Hh. apply Hlt. by eapply elem_of_sublist.
  - intros image (zoom & y & x & lod & Hget).
    destruct (Hnew _ _ _ _ _ Hget) as [(-> & _)|[Hne Hold]].
    + split; [apply Hlt, elem_of_app; by right|].
      intros [Hin|Hin]%elem_of_app; [|done].
      apply NoDup_app in Hnd as (_ & Hdis & _). by apply (Hdis (fImage f)).
    + destruct (Hcached image) as [Hi Hnot]; [by exists zoom, y, x, lod|].
      split; [done|]. intros Hin. apply Hnot. by eapply elem_of_sublist.
  - intros zoom y x lod zoom' y' x' lod' image Hget Hget'.
    destruct (Hnew _ _ _ _ _ Hget) as [(-> & -> & -> & -> & ->)|[Hne Hold]];
      destruct (Hnew _ _ _ _ _ Hget') as [(Heq & -> & -> & -> & ->)|[Hne' Hold']];
      try done.
    by apply (Hinj _ _ _ _ _ _ _ _ image).
Qed.

Lemma handlesOk_step st ev st' :
  handlesOk st → Forall (λ f, 0 ≤ fLod f) (pending st) →
  step st ev = Some st' → handlesOk st'.
Proof.
  intros Hok Hlods.
  destruct ev as [coord zoom|coord zoom|tile| |v|v|k|k]; simpl.
  - destruct (getTile coord zoom st) as [[r st1]|] eqn:Hget; [|done].
    intros [= <-]. by eapply handlesOk_getTile.
  - destruct (getTileContent coord zoom st) as [[content st1]|] eqn:Hget; [|done].
    intros [= <-]. eapply handlesOk_started; [done|]. by eapply getTileContent_started.
  - intros [= <-]. apply (handlesOk_shrink st); [done..| |done].
    rewrite divs_releaseTile. apply sublist_filter.
  - destruct (refreshTiles st) as [[r st1]|] eqn:Hr; [|done].
    intros [= <-]. eapply handlesOk_started; [done|]. by eapply refreshTiles_started.
  - by intros [= <-].
  - by intros [= <-].
  - by apply handlesOk_decodeFulfilled.
  - unfold decodeRejected. destruct (pending st !! k); [|done]. intros [= <-].
    apply (handlesOk_shrink st); [done..|].
    unfold loading. simpl. rewrite list_fmap_delete. apply sublist_delete.
Qed.

(** The handles stay in order along every run. *)
Lemma handlesOk_reachable (st : State) : reachable st → handlesOk st.
Proof.
  induction 1 as [ts l m|st ev st' Hreach IH Hstep].
  - unfold handlesOk, divs, loading, cached. simpl. split_and!.
    + constructor.
    + constructor.
    + intros image (zoom & y & x & lod & Hget). unfold cacheGet in Hget.
      by rewrite cacheMipmap_empty in Hget.
    + intros zoom y x lod zoom' y' x' lod' image Hget. unfold cacheGet in Hget.
      by rewrite cacheMipmap_empty in Hget.
  - apply (handlesOk_step st ev); [done|by apply fetch_lod_nonneg|done].
Qed.

(** X9: elements are created once and used once.  In every state the
    engine can reach, the registered [div]s and the images still loading
    are pairwise different elements, a cached image is neither a
    registered [div] nor still loading, no image is cached under two
    places (zoom, y, x, LOD), and every one of these elements was created
    before. *)
Theorem reachable_handlesOk (st : State) : reachable st → handlesOk st.
Proof. apply handlesOk_reachable. Qed.

(** X9 at a concrete input: one image cached, one loading, two [div]s
    registered. *)
Lemma reachable_handlesOk_witness :
  reachable stateOneOfTwoDecoded ∧ handlesOk stateOneOfTwoDecoded.
Proof.
  assert (Hreach : reachable stateOneOfTwoDecoded).
  { apply (run_reachable (newWmsMapType None None None)
             [GetTile (mkPoint 0 0) 0; GetTile (mkPoint 0 0) 0; DecodeFulfilled 0%nat]).
    - apply reachable_new.
    - vm_compute. reflexivity. }
  split; [exact Hreach|]. exact (reachable_handlesOk stateOneOfTwoDecoded Hreach).
Defined.

(** ** The registry of live tiles *)

Lemma filter_registered (m : list (Handle * TileParams)) div params :
  div ∉ m.*1 →
  filter (λ e : Handle * TileParams, e.1 ≠ div) (m ++ [(div, params)]) = m.
Proof.
  intros Hnot. rewrite filter_app, filter_cons. simpl.
  rewrite decide_False by (by intros []). rewrite filter_nil, app_nil_r.
  induction m as [|[k v] m IH]; [done|].
  simpl in Hnot. apply not_elem_of_cons in Hnot as [Hne Hnot].
  rewrite filter_cons. simpl. rewrite decide_True by done. by rewrite IH.
Qed.

(** X10: [getTile] wraps the content in a new [div] and registers it last,
    after the tiles registered before; [releaseTile] of that [div] puts
    the registry back as it was.  Releasing the tile cancels nothing: a
    fetch that [getTile] started stays pending, so its image will still be
    cached, and the cache is as before. *)
Theorem getTile_then_releaseTile (coord : Point) (zoom : Z) (st st' : State)
    (div : Handle) (content : list Element) :
  reachable st →
  getTile coord zoom st = Some ((div, content), st') →
  (div ∉ divs st)
  ∧ activeTiles st' = activeTiles st ++ [(div, mkTileParams coord zoom)]
  ∧ activeTiles (releaseTile div st') = activeTiles st
  ∧ pending (releaseTile div st') = pending st'
  ∧ (∃ fetches, pending st' = pending st ++ fetches)
  ∧ imageCache (releaseTile div st') = imageCache st.
Proof.
  intros Hreach Hget.
  pose proof (getTile_quiet _ _ _ _ _ Hget) as (Hcache & fetches & Hpending & _).
  destruct (getTile_registers _ _ _ _ _ _ (handlesOk_reachable st Hreach) Hget)
    as (_ & Hfresh & Hreg & _).
  split; [done|]. split; [done|]. split.
  { unfold releaseTile. simpl. rewrite Hreg. by apply filter_registered. }
  split; [done|]. split; [eauto|]. done.
Qed.

(** X10 at a concrete input: the first tile of a fresh map type. *)
Lemma getTile_then_releaseTile_witness :
  reachable (newWmsMapType None None None)
  ∧ getTile (mkPoint 0 0) 0 (newWmsMapType None None None)
    = Some ((0%nat, [CanvasEl (mkCanvas 1%nat 256 []); ImageEl 2%nat]), stateFirstTile)
  ∧ activeTiles stateFirstTile = [(0%nat, mkTileParams (mkPoint 0 0) 0)]
  ∧ activeTiles (releaseTile 0%nat stateFirstTile) = []
  ∧ pending (releaseTile 0%nat stateFirstTile) = pending stateFirstTile.
Proof.
  assert (Hreach : reachable (newWmsMapType None None None)) by apply reachable_new.
  assert (Hget : getTile (mkPoint 0 0) 0 (newWmsMapType None None None)
            = Some ((0%nat, [CanvasEl (mkCanvas 1%nat 256 []); ImageEl 2%nat]),
                    stateFirstTile)) by (vm_compute; reflexivity).
  split; [exact Hreach|]. split; [exact Hget|].
  destruct (getTile_then_releaseTile (mkPoint 0 0) 0 (newWmsMapType None None None)
              stateFirstTile 0%nat _ Hreach Hget) as (_ & Hreg & Hrel & Hpending & _).
  split; [exact Hreg|]. split; [exact Hrel|]. exact Hpending.
Defined.

(** *** [refreshTiles] *)

Lemma refreshTiles_fold (tiles : list (Handle * TileParams)) :
  ∀ (acc : list (Handle * list Element) * State) r st',
    foldOpt
      (λ (acc : list (Handle * list Element) * State) (e : Handle * TileParams),
         match getTileContent (tpCoord e.2) (tpZoom e.2) acc.2 with
         | Some (content, st') => Some (acc.1 ++ [(e.1, content)], st')
         | None => None
         end) acc tiles = Some (r, st') →
    ∃ new, r = acc.1 ++ new
      ∧ new.*1 = tiles.*1
      ∧ Forall (λ rc : Handle * list Element, rc.2 ≠ []) new
      ∧ (length (pending st') ≤ length (pending acc.2) + length tiles)%nat
      ∧ ((∀ e, e ∈ tiles → is_Some (cachedTile acc.2 e.2)) →
         st' = acc.2
         ∧ new = (λ e : Handle * TileParams,
                    (e.1, match cachedTile acc.2 e.2 with
                          | Some image => [ImageEl image]
                          | None => []
                          end)) <$> tiles).
Proof.
  induction tiles as [|e tiles IH]; intros acc r st'; simpl.
  - intros [= ->]. exists []. simpl. rewrite app_nil_r.
    split; [done|]. split; [done|]. split; [constructor|]. split; [lia|done].
  - destruct (getTileContent _ _ _) as [[content st1]|] eqn:Hget; [|done].
    intros Hfold. destruct (IH _ _ _ Hfold) as (new & -> & Hkeys & Hne & Hlen & Hcached).
    simpl in *. exists ((e.1, content) :: new).
    split; [by rewrite <- app_assoc|]. split; [by rewrite fmap_cons, Hkeys|].
    assert (Hcontent : content ≠ []).
    { intros ->. revert Hget. unfold getTileContent.
      destruct (cacheGet _ _ _ _ _); [done|].
      destruct (createTileContent_cases (tpCoord e.2) (tpZoom e.2)
                  (targetLod acc.2 (tpZoom e.2)) acc.2)
        as (fromLarger & difference & h & fromSmaller & complete & _ & _ & ->).
      destruct (isZero difference); [done|]. destruct complete; [done|].
      by destruct fromLarger. }
    split; [by constructor|]. split.
    { destruct (getTileContent_pending _ _ _ _ _ Hget) as [Heq|(image & Heq & _)];
        rewrite Heq in Hlen; [lia|]. rewrite length_app in Hlen. simpl in Hlen. lia. }
    intros Hall.
    destruct (Hall e ltac:(by left)) as [image Himage].
    unfold getTileContent in Hget. unfold cachedTile in Himage. rewrite Himage in Hget.
    injection Hget as <- <-.
    destruct Hcached as [-> ->]; [intros e' He'; apply Hall; by right|].
    split; [done|]. unfold cachedTile at 2. by rewrite Himage.
Qed.

(** X11: [refreshTiles] gives new content to every registered [div], once
    each and in the order of registration, and no content is empty.  It
    changes neither the registry nor the cache nor the options; it only
    creates elements and starts at most one fetch per registered tile. *)
Theorem refreshTiles_every_tile (st : State) :
  ∃ r st',
    refreshTiles st = Some (r, st')
    ∧ r.*1 = divs st
    ∧ Forall (λ rc : Handle * list Element, rc.2 ≠ []) r
    ∧ started st st'
    ∧ (length (pending st') ≤ length (pending st) + length (activeTiles st))%nat.
Proof.
  destruct (refreshTiles_is_Some st) as [[r st'] Hr]. exists r, st'.
  split; [done|].
  pose proof (refreshTiles_started _ _ _ Hr) as Hstarted.
  unfold refreshTiles in Hr.
  apply refreshTiles_fold in Hr as (new & -> & Hkeys & Hne & Hlen & _). simpl in *.
  done.
Qed.



(** ** The engine: one LOD per zoom level while the options stay *)

Lemma lodsCurrent_started st st' : lodsCurrent st → started st st' → lodsCurrent st'.
Proof.
  intros [Hcache Hpending] (h & fetches & -> & _ & _ & Hf). split; simpl.
  - exact Hcache.
  - apply Forall_app. split; [done|]. eapply Forall_impl; [exact Hf|]. by intros f [_ ?].
Qed.

Lemma lodsCurrent_step st ev st' :
  lodsCurrent st → keepsOptions ev = true → step st ev = Some st' → lodsCurrent st'.
Proof.
  intros Hok Hev.
  destruct ev as [coord zoom|coord zoom|tile| |v|v|k|k]; simpl; try done.
  - unfold getTile. simpl.
    destruct (getTileContent _ _ _) as [[content st1]|] eqn:Hget; [|done].
    intros [= <-]. apply getTileContent_started in Hget.
    apply (lodsCurrent_started (setNextHandle (S (nextHandle st)) st)) in Hget; [|done].
    exact Hget.
  - destruct (getTileContent coord zoom st) as [[content st1]|] eqn:Hget; [|done].
    intros [= <-]. eapply lodsCurrent_started; [done|]. by eapply getTileContent_started.
  - by intros [= <-].
  - destruct (refreshTiles st) as [[r st1]|] eqn:Hr; [|done].
    intros [= <-]. eapply lodsCurrent_started; [done|]. by eapply refreshTiles_started.
  - unfold decodeFulfilled. destruct (pending st !! k) as [f|] eqn:Hk; [|done].
    intros [= <-]. destruct Hok as [Hcache Hpending].
    assert (Hf : fLod f = targetLod st (fZoom f)).
    { rewrite Forall_forall in Hpending. apply Hpending. by eapply list_elem_of_lookup_2. }
    split; simpl.
    + intros zoom y x lod image. rewrite cacheGet_store. case_decide as Hcell.
      * intros _. destruct Hcell as (-> & _ & _ & ->).
        pose proof (targetLod_nonneg st (fZoom f)). unfold targetLod in *. simpl. lia.
      * apply Hcache.
    + by apply Forall_delete.
  - unfold decodeRejected. destruct (pending st !! k); [|done]. intros [= <-].
    destruct Hok as [Hcache Hpending]. split; simpl; [done|by apply Forall_delete].
Qed.

Lemma lodsCurrent_run st evs st' :
  lodsCurrent st → Forall (λ ev, keepsOptions ev = true) evs →
  run st evs = Some st' → lodsCurrent st'.
Proof.
  unfold run. revert st. induction evs as [|ev evs IH]; intros st Hok Hevs; simpl.
  - by intros [= <-].
  - destruct (step st ev) as [st1|] eqn:Hstep; [|done].
    apply Forall_cons in Hevs as [Hev Hevs].
    apply IH; [|done]. by apply (lodsCurrent_step st ev).
Qed.

(** X13: as long as [levelOfDetail] and [maxOversample] are not assigned
    after construction, every image is cached under the LOD that is
    requested for its zoom level, so a cell never holds images of two
    LODs and a request that finds the cell populated is an exact hit; the
    images still loading are for that LOD too. *)
Theorem lods_current_while_options_stay (tileSize levelOfDetail maxOversample : option Z)
    (evs : list Event) (st : State) :
  Forall (λ ev, keepsOptions ev = true) evs →
  run (newWmsMapType tileSize levelOfDetail maxOversample) evs = Some st →
  lodsCurrent st
  ∧ (∀ zoom y x lod lod',
       is_Some (cacheGet (imageCache st) zoom y x lod) →
       is_Some (cacheGet (imageCache st) zoom y x lod') → lod = lod')
  ∧ (∀ coord zoom lod image,
       cacheGet (imageCache st) zoom (py coord) (px coord) lod = Some image →
       getTileContent coord zoom st = Some ([ImageEl image], st)).
Proof.
  intros Hevs Hrun.
  assert (Hok : lodsCurrent st).
  { apply (lodsCurrent_run (newWmsMapType tileSize levelOfDetail maxOversample) evs);
      [|done..].
    split; simpl; [|constructor].
    intros zoom y x lod image Hget. unfold cacheGet in Hget.
    by rewrite cacheMipmap_empty in Hget. }
  split; [done|]. destruct Hok as [Hcache _]. split.
  - intros zoom y x lod lod' [image Himage] [image' Himage'].
    rewrite (Hcache _ _ _ _ _ Himage). by rewrite (Hcache _ _ _ _ _ Himage').
  - intros coord zoom lod image Himage. unfold getTileContent.
    rewrite <- (Hcache _ _ _ _ _ Himage). by rewrite Himage.
Qed.

(** X13 at a concrete input: two requests for the first tile and the
    decode of the first image. *)
Lemma lods_current_while_options_stay_witness :
  Forall (λ ev, keepsOptions ev = true)
    [GetTile (mkPoint 0 0) 0; GetTile (mkPoint 0 0) 0; DecodeFulfilled 0%nat]
  ∧ run (newWmsMapType None None None)
      [GetTile (mkPoint 0 0) 0; GetTile (mkPoint 0 0) 0; DecodeFulfilled 0%nat]
    = Some stateOneOfTwoDecoded
  ∧ lodsCurrent stateOneOfTwoDecoded.
Proof.
  assert (Hevs : Forall (λ ev, keepsOptions ev = true)
            [GetTile (mkPoint 0 0) 0; GetTile (mkPoint 0 0) 0; DecodeFulfilled 0%nat])
    by (repeat constructor).
  assert (Hrun : run (newWmsMapType None None None)
            [GetTile (mkPoint 0 0) 0; GetTile (mkPoint 0 0) 0; DecodeFulfilled 0%nat]
            = Some stateOneOfTwoDecoded) by (vm_compute; reflexivity).
  split; [exact Hevs|]. split; [exact Hrun|].
  exact (proj1 (lods_current_while_options_stay None None None _ _ Hevs Hrun)).
Defined.

(** ** The tile request: size and bounds *)

Lemma pow2_le_mono (a b : Z) : 0 ≤ a ≤ b → 2 ^ a ≤ 2 ^ b.
Proof. intros Hab. apply Z.pow_le_mono_r; lia. Qed.

(** X14: with a non-negative [maxOversample], the LOD that
    [getTileContent] requests lies between 0 and [maxOversample], it is
    [levelOfDetail - zoom] wherever that lies in this range, and it is 0
    from zoom level [levelOfDetail] on.  With a positive tile size whose
    [maxOversample]-fold doubling stays below 2^31, the pixel size sent
    for this LOD is [tileSize * 2^lod], at least the tile size and at most
    [tileSize * 2^maxOversample]. *)
Theorem requested_size_capped (st : State) (zoom : Z) :
  0 < tileSize st →
  0 ≤ maxOversample st →
  tileSize st * 2 ^ maxOversample st < 2 ^ 31 →
  0 ≤ targetLod st zoom ≤ maxOversample st
  ∧ (0 ≤ levelOfDetail st - zoom ≤ maxOversample st →
     targetLod st zoom = levelOfDetail st - zoom)
  ∧ (levelOfDetail st ≤ zoom → targetLod st zoom = 0)
  ∧ tileSizeParam st (targetLod st zoom) = tileSize st * 2 ^ targetLod st zoom
  ∧ tileSize st ≤ tileSizeParam st (targetLod st zoom) ≤ tileSize st * 2 ^ maxOversample st.
Proof.
  intros Hts Hmo Hfit.
  assert (Hlod : 0 ≤ targetLod st zoom ≤ maxOversample st) by (unfold targetLod; lia).
  assert (Hmo32 : maxOversample st < 31).
  { destruct (Z.lt_ge_cases (maxOversample st) 31) as [|Hge]; [done|].
    pose proof (pow2_le_mono 31 (maxOversample st) ltac:(lia)). nia. }
  pose proof (pow2_le_mono 0 (targetLod st zoom) ltac:(lia)) as Hlow.
  pose proof (pow2_le_mono (targetLod st zoom) (maxOversample st) ltac:(lia)) as Hhigh.
  rewrite Z.pow_0_r in Hlow.
  assert (Hparam : tileSizeParam st (targetLod st zoom)
            = tileSize st * 2 ^ targetLod st zoom).
  { unfold tileSizeParam. apply shl_mul; unfold int32; [nia|lia|nia]. }
  split; [done|]. split; [unfold targetLod; lia|]. split; [unfold targetLod; lia|].
  split; [done|]. rewrite Hparam. nia.
Qed.

(** X14 at a concrete input: [levelOfDetail = 5] at zoom 0 asks for
    1024 x 1024 pixels, the cap of the default [maxOversample = 2]. *)
Lemma requested_size_capped_witness :
  0 < tileSize stateDetailed
  ∧ 0 ≤ maxOversample stateDetailed
  ∧ tileSize stateDetailed * 2 ^ maxOversample stateDetailed < 2 ^ 31
  ∧ targetLod stateDetailed 0 = 2
  ∧ tileSizeParam stateDetailed (targetLod stateDetailed 0) = 1024.
Proof.
  assert (Hts : 0 < tileSize stateDetailed) by (simpl; lia).
  assert (Hmo : 0 ≤ maxOversample stateDetailed) by (simpl; lia).
  assert (Hfit : tileSize stateDetailed * 2 ^ maxOversample stateDetailed < 2 ^ 31)
    by (simpl; lia).
  split; [exact Hts|]. split; [exact Hmo|]. split; [exact Hfit|].
  split; [reflexivity|].
  rewrite (proj1 (proj2 (proj2 (proj2 (requested_size_capped stateDetailed 0 Hts Hmo Hfit))))).
  reflexivity.
Defined.

(** X15: the shift count of [xyzToBounds] is taken modulo 32.  For zoom
    levels 0 to 23 the tile extent is divided by [2^(zoom + 7)]; at zoom
    level 24 the divisor is [-2^31], at zoom level 25 it is 1 again, and
    the bounds of zoom level [zoom + 32] are those of [zoom].  At every
    zoom level neighbouring tiles share their edge exactly, whatever the
    rounding of the arithmetic: the right edge of tile [x] is the left
    edge of tile [x + 1], and the lower edge of tile [y] is the upper edge
    of tile [y + 1]. *)
Theorem xyzToBounds_zoom_32_bits {F : Type} (ofZ : Z → F) (fadd fsub fmul fdiv : F → F → F)
    (fneg : F → F) (extent : F) (x y y' x' zoom tileSize : Z) :
  let bounds := xyzToBounds ofZ fadd fsub fmul fdiv fneg extent in
  (0 ≤ zoom ≤ 23 → boundsDivisor zoom = 2 ^ (zoom + 7))
  ∧ boundsDivisor 24 = - 2 ^ 31
  ∧ boundsDivisor 25 = 1
  ∧ bounds x y (zoom + 32) tileSize = bounds x y zoom tileSize
  ∧ bounds x y zoom tileSize !! 2%nat = bounds (x + 1) y' zoom tileSize !! 0%nat
  ∧ bounds x y zoom tileSize !! 1%nat = bounds x' (y + 1) zoom tileSize !! 3%nat.
Proof.
  split_and!.
  - intros Hzoom. unfold boundsDivisor.
    rewrite shl_mul; [lia|unfold int32; lia|lia|].
    pose proof (pow2_le_mono (zoom + 7) 30 ltac:(lia)).
    pose proof (Z.pow_pos_nonneg 2 (zoom + 7) ltac:(lia) ltac:(lia)).
    unfold int32. lia.
  - reflexivity.
  - reflexivity.
  - unfold xyzToBounds, boundsDivisor, shl.
    replace ((zoom + 32 + 7) `mod` 32) with ((zoom + 7) `mod` 32); [done|].
    replace (zoom + 32 + 7) with (zoom + 7 + 1 * 32) by lia.
    by rewrite Z.mod_add.
  - reflexivity.
  - reflexivity.
Qed.

(** ** The layers of a tile *)

(** X16: [tileFromSmaller] always produces a canvas, also when no smaller
    tile is cached: a new element of [tileSize] x [tileSize] pixels, and
    nothing else in the state changes.  For a tile size below 2^31 its
    draws all lie inside the canvas and show cached images of the zoom
    levels [zoom + 1] to [zoom + lod + proxyBetterThan]. *)
Theorem tileFromSmaller_canvas (zoom : Z) (coord : Point) (lod b : Z) (st : State) :
  0 ≤ tileSize st < 2 ^ 31 →
  ∃ canvas complete,
    tileFromSmaller zoom coord lod b st
    = Some ((canvas, complete), setNextHandle (S (nextHandle st)) st)
    ∧ cHandle canvas = nextHandle st
    ∧ cSize canvas = tileSize st
    ∧ paintsInside (imageCache st) (mkRect 0 0 (tileSize st) (tileSize st)) (zoom + 1)
        (zoom + lod + b) [] (cDraws canvas).
Proof.
  intros Hts.
  destruct (tileFromSmaller_total zoom coord lod b st)
    as (draws & complete & Hcomposite & ->).
  eexists _, _. split; [done|]. simpl. split; [done|]. split; [done|].
  replace (zoom + lod + b) with (zoom + 1 + (lod - 1) + b) by lia.
  eapply compositeFromSmaller_fuel_paints; [| |exact Hcomposite]; done.
Qed.

(** X16 at a concrete input: the default tile size. *)
Lemma tileFromSmaller_canvas_witness :
  0 ≤ tileSize (newWmsMapType None None None) < 2 ^ 31
  ∧ ∃ canvas complete,
      tileFromSmaller 0 (mkPoint 0 0) 0 3 (newWmsMapType None None None)
      = Some ((canvas, complete), setNextHandle 1%nat (newWmsMapType None None None))
      ∧ cSize canvas = 256.
Proof.
  assert (Hts : 0 ≤ tileSize (newWmsMapType None None None) < 2 ^ 31) by (simpl; lia).
  split; [exact Hts|].
  destruct (tileFromSmaller_canvas 0 (mkPoint 0 0) 0 3 (newWmsMapType None None None) Hts)
    as (canvas & complete & Hrun & _ & Hsize & _).
  exists canvas, complete. split; [exact Hrun|exact Hsize].
Defined.

(** X17: the layers of a tile that is being fetched, bottom to top: the
    crop of the best ancestor image when any ancestor cell (the target cell
    included) holds an image, then the composite of the smaller tiles, then
    the image that is loading.  There are three layers exactly when such an
    ancestor image exists and two otherwise; both canvases have the tile
    size, and the three elements are new and different. *)
Theorem getTileContent_layers (coord : Point) (zoom : Z) (st st' : State)
    (content : list Element) :
  getTileContent coord zoom st = Some (content, st') →
  pending st' ≠ pending st →
  ∃ (fromSmaller : Canvas) (image : Image),
    cSize fromSmaller = tileSize st
    ∧ (nextHandle st ≤ cHandle fromSmaller < image)%nat
    ∧ (image < nextHandle st')%nat
    ∧ ((∃ fromLarger : Canvas,
          content = [CanvasEl fromLarger; CanvasEl fromSmaller; ImageEl image]
          ∧ cSize fromLarger = tileSize st
          ∧ (nextHandle st ≤ cHandle fromLarger < cHandle fromSmaller)%nat
          ∧ length (cDraws fromLarger) = 1%nat
          ∧ ∃ levelsAbove l, 0 ≤ levelsAbove ≤ zoom
              ∧ is_Some (ancestorEntry (imageCache st) zoom coord levelsAbove l))
       ∨ (content = [CanvasEl fromSmaller; ImageEl image]
          ∧ ∀ levelsAbove l, 0 ≤ levelsAbove ≤ zoom →
              ancestorEntry (imageCache st) zoom coord levelsAbove l = None)).
Proof.
  unfold getTileContent.
  destruct (cacheGet _ _ _ _ _) as [cached|]; [by intros [= <- <-]|].
  destruct (createTileContent_cases coord zoom (targetLod st zoom) st)
    as (fromLarger & difference & h & fromSmaller & complete & Hlarger & Hsmaller & ->).
  destruct (isZero difference); [by intros [= <- <-]|].
  destruct complete; [by intros [= <- <-]|].
  intros [= <- <-] _.
  destruct (tileFromSmaller_total zoom coord (targetLod st zoom)
              (orElse difference (maxOversample st + 1)) (setNextHandle h st))
    as (draws & complete & _ & Hsmaller').
  rewrite Hsmaller in Hsmaller'. injection Hsmaller' as -> _.
  pose proof (largerSearch_searched (imageCache st) zoom coord (targetLod st zoom)) as Hnear.
  revert Hlarger Hnear. unfold tileFromLarger.
  destruct (largerSearch _ _ _ _) as [d [best|]]; simpl.
  - intros [= <- <- <-]. destruct d as [d|]; [|done].
    intros (Hla & _ & _ & l & Hentry & _).
    eexists _, _. refine (conj _ (conj _ (conj _ _))).
    4:{ left. eexists. split; [reflexivity|]. simpl. split; [done|]. split; [lia|].
        split; [done|]. exists (bLevelsAbove best), l. split; [lia|].
        rewrite Hentry. eauto. }
    all: simpl; lia || done.
  - intros [= <- <- Hst] Hnone. destruct d as [d|]; [done|].
    apply (f_equal nextHandle) in Hst. simpl in Hst. subst h.
    eexists _, _. refine (conj _ (conj _ (conj _ _))).
    4:{ right. split; [reflexivity|]. intros la l Hla. apply Hnone. lia. }
    all: simpl; lia || done.
Qed.

(** X17 at a concrete input: the child (zoom 6, (14, 6)) of the one cached
    tile gets three layers. *)
Lemma getTileContent_layers_witness :
  getTileContent (mkPoint 14 6) 6 stateWithTile
  = Some ([CanvasEl (mkCanvas 0%nat 256 [mkDraw 9%nat (mkRect 0 0 512 512)]);
           CanvasEl (mkCanvas 1%nat 256 []); ImageEl 2%nat], stateWithTileChild)
  ∧ pending stateWithTileChild ≠ pending stateWithTile
  ∧ ∃ levelsAbove l, 0 ≤ levelsAbove ≤ 6
      ∧ is_Some (ancestorEntry (imageCache stateWithTile) 6 (mkPoint 14 6) levelsAbove l).
Proof.
  assert (Hget : getTileContent (mkPoint 14 6) 6 stateWithTile
            = Some ([CanvasEl (mkCanvas 0%nat 256 [mkDraw 9%nat (mkRect 0 0 512 512)]);
                     CanvasEl (mkCanvas 1%nat 256 []); ImageEl 2%nat], stateWithTileChild))
    by (vm_compute; reflexivity).
  assert (Hne : pending stateWithTileChild ≠ pending stateWithTile)
    by (vm_compute; discriminate).
  split; [exact Hget|]. split; [exact Hne|].
  destruct (getTileContent_layers (mkPoint 14 6) 6 stateWithTile stateWithTileChild _
              Hget Hne) as (fromSmaller & image & _ & _ & _ & [Hthree|[Htwo _]]).
  - destruct Hthree as (fromLarger & _ & _ & _ & _ & Hancestor). exact Hancestor.
  - discriminate Htwo.
Defined.

(** ** Cells: children and parents *)

Lemma child_parent (x i : Z) :
  - 2 ^ 30 ≤ x < 2 ^ 30 → 0 ≤ i ≤ 1 →
  shl x 1 = 2 * x ∧ sar (shl x 1 + i) 1 = x.
Proof.
  intros Hx Hi.
  assert (Hshl : shl x 1 = 2 * x).
  { rewrite shl_mul; unfold int32; lia. }
  split; [done|]. rewrite Hshl, sar_div by (unfold int32; lia).
  change (2 ^ 1) with 2.
  symmetry. apply (Z.div_unique_pos (2 * x + i) 2 x i); lia.
Qed.

(** X18: the two resolvers address the same tree of cells.  For a cell
    whose coordinates lie in [-2^30, 2^30), the four child cells that
    [compositeFromSmaller] visits one zoom level finer are exactly the
    cells (with 32-bit coordinates) whose ancestor one level up, as
    [tileFromLarger] computes it with [>> 1], is that cell; so the crop of
    a child from its parent and the composite of the parent from its
    children read the same cache entries. *)
Theorem quadrantCoord_children_of (coord c : Point) :
  - 2 ^ 30 ≤ px coord < 2 ^ 30 →
  - 2 ^ 30 ≤ py coord < 2 ^ 30 →
  int32 (px c) → int32 (py c) →
  (sar (px c) 1 = px coord ∧ sar (py c) 1 = py coord)
  ↔ ∃ j i, (j, i) ∈ quadrants ∧ c = quadrantCoord coord i j.
Proof.
  intros Hx Hy Hcx Hcy. split.
  - intros [Hpx Hpy].
    rewrite sar_div in Hpx, Hpy by (done || lia). change (2 ^ 1) with 2 in *.
    pose proof (Z.div_mod (px c) 2 ltac:(lia)) as Hdx.
    pose proof (Z.mod_pos_bound (px c) 2 ltac:(lia)) as Hmx.
    pose proof (Z.div_mod (py c) 2 ltac:(lia)) as Hdy.
    pose proof (Z.mod_pos_bound (py c) 2 ltac:(lia)) as Hmy.
    exists (py c `mod` 2), (px c `mod` 2). split.
    + apply quadrants_cases.
      assert (px c `mod` 2 = 0 ∨ px c `mod` 2 = 1) as [-> | ->] by lia;
        assert (py c `mod` 2 = 0 ∨ py c `mod` 2 = 1) as [-> | ->] by lia; tauto.
    + unfold quadrantCoord. destruct c as [cx cy]. simpl in *. f_equal.
      * destruct (child_parent (px coord) 0 Hx ltac:(lia)) as [-> _]. lia.
      * destruct (child_parent (py coord) 0 Hy ltac:(lia)) as [-> _]. lia.
  - intros (j & i & Hq & ->). unfold quadrantCoord. simpl.
    apply quadrants_cases in Hq.
    assert (0 ≤ i ≤ 1 ∧ 0 ≤ j ≤ 1) as [Hi Hj].
    { destruct Hq as [Hq|[Hq|[Hq|Hq]]]; injection Hq as -> ->; lia. }
    split; by apply child_parent.
Qed.

(** X18 at a concrete input: (14, 6) is a child of (7, 3). *)
Lemma quadrantCoord_children_of_witness :
  - 2 ^ 30 ≤ px (mkPoint 7 3) < 2 ^ 30
  ∧ - 2 ^ 30 ≤ py (mkPoint 7 3) < 2 ^ 30
  ∧ int32 (px (mkPoint 14 6)) ∧ int32 (py (mkPoint 14 6))
  ∧ ((sar (px (mkPoint 14 6)) 1 = px (mkPoint 7 3)
      ∧ sar (py (mkPoint 14 6)) 1 = py (mkPoint 7 3))
     ↔ ∃ j i, (j, i) ∈ quadrants ∧ mkPoint 14 6 = quadrantCoord (mkPoint 7 3) i j).
Proof.
  assert (Hx : - 2 ^ 30 ≤ px (mkPoint 7 3) < 2 ^ 30) by (simpl; lia).
  assert (Hy : - 2 ^ 30 ≤ py (mkPoint 7 3) < 2 ^ 30) by (simpl; lia).
  assert (Hcx : int32 (px (mkPoint 14 6))) by (unfold int32; simpl; lia).
  assert (Hcy : int32 (py (mkPoint 14 6))) by (unfold int32; simpl; lia).
  split; [exact Hx|]. split; [exact Hy|]. split; [exact Hcx|]. split; [exact Hcy|].
  exact (quadrantCoord_children_of (mkPoint 7 3) (mkPoint 14 6) Hx Hy Hcx Hcy).
Defined.

(** ** Decode completions in either order *)

Lemma mipmapSet_lookup (mipmap : Mipmap) (lod : nat) image (i : nat) :
  mipmapSet mipmap lod image !! i
  = if decide (i = lod) then Some (Some image)
    else if decide (i < length mipmap)%nat then mipmap !! i
    else if decide (i < lod)%nat then Some None
    else None.
Proof.
  unfold mipmapSet. destruct (Nat.ltb_spec lod (length mipmap)) as [Hin|Hout].
  - rewrite list_lookup_insert. destruct (decide (i = lod)) as [->|Hne].
    + by rewrite decide_True by done.
    + rewrite decide_False by (intros [? ?]; congruence).
      destruct (decide (i < length mipmap)%nat); [done|].
      rewrite decide_False by lia. apply lookup_ge_None_2. lia.
  - destruct (decide (i < length mipmap)%nat) as [Hi|Hi].
    + rewrite lookup_app_l by done. by rewrite decide_False by lia.
    + rewrite lookup_app_r by lia.
      destruct (decide (i < lod)%nat) as [Hlt|Hge].
      * rewrite decide_False by lia. rewrite lookup_app_l by (rewrite length_replicate; lia).
        apply lookup_replicate. split; [done|lia].
      * rewrite lookup_app_r by (rewrite length_replicate; lia).
        rewrite length_replicate. case_decide as Heq.
        -- subst i. by replace (lod - length mipmap - (lod - length mipmap))%nat with 0%nat by lia.
        -- apply lookup_ge_None_2. simpl. lia.
Qed.

Lemma mipmapSet_length (mipmap : Mipmap) (lod : nat) image :
  length (mipmapSet mipmap lod image) = (length mipmap `max` S lod)%nat.
Proof.
  unfold mipmapSet. destruct (Nat.ltb_spec lod (length mipmap)) as [Hin|Hout].
  - rewrite length_insert. lia.
  - rewrite !length_app, length_replicate. simpl. lia.
Qed.

Lemma mipmapSet_comm (mipmap : Mipmap) (lod lod' : nat) image image' :
  lod ≠ lod' →
  mipmapSet (mipmapSet mipmap lod image) lod' image'
  = mipmapSet (mipmapSet mipmap lod' image') lod image.
Proof.
  intros Hne. apply list_eq. intros i.
  rewrite !mipmapSet_lookup, !mipmapSet_length.
  repeat case_decide; try done; try lia.
Qed.

Lemma cacheStore_comm cache zoom y x (lod : nat) image zoom' y' x' (lod' : nat) image' :
  ¬ (zoom = zoom' ∧ y = y' ∧ x = x' ∧ lod = lod') →
  cacheStore (cacheStore cache zoom y x lod image) zoom' y' x' lod' image'
  = cacheStore (cacheStore cache zoom' y' x' lod' image') zoom y x lod image.
Proof.
  intros Hne. unfold cacheStore. cbv zeta.
  destruct (decide (zoom = zoom')) as [<-|Hzoom].
  2:{ rewrite !lookup_insert_ne by congruence. by rewrite insert_insert_ne by congruence. }
  rewrite !lookup_insert_eq, !insert_insert_eq. cbn [from_option id]. f_equal.
  set (rows := default ∅ (cache !! zoom)).
  destruct (decide (y = y')) as [<-|Hy].
  2:{ rewrite !lookup_insert_ne by congruence. by rewrite insert_insert_ne by congruence. }
  rewrite !lookup_insert_eq, !insert_insert_eq. cbn [from_option id]. f_equal.
  set (cols := default ∅ (rows !! y)).
  destruct (decide (x = x')) as [<-|Hx].
  2:{ rewrite !lookup_insert_ne by congruence. by rewrite insert_insert_ne by congruence. }
  rewrite !lookup_insert_eq, !insert_insert_eq. cbn [from_option id]. f_equal.
  apply mipmapSet_comm. intros ->. by apply Hne.
Qed.

Lemma delete_delete_lt {A} (l : list A) (i j : nat) :
  (i < j)%nat → delete (j - 1)%nat (delete i l) = delete i (delete j l).
Proof.
  intros Hij. apply list_eq. intros k. rewrite !list_lookup_delete.
  repeat case_decide; try lia; f_equal; lia.
Qed.

(** X19: decode completions for different cache entries commute.  When
    two pending images are for different places (zoom, y, x, LOD), the
    state after both completions is the same whichever image is decoded
    first: the same cache, with both images stored, and the same images
    left pending. *)
Theorem decodes_commute (st : State) (i j : nat) (fi fj : Fetch) :
  pending st !! i = Some fi →
  pending st !! j = Some fj →
  (i < j)%nat →
  0 ≤ fLod fi → 0 ≤ fLod fj →
  (fZoom fi, fCoord fi, fLod fi) ≠ (fZoom fj, fCoord fj, fLod fj) →
  ∃ st', run st [DecodeFulfilled i; DecodeFulfilled (j - 1)%nat] = Some st'
         ∧ run st [DecodeFulfilled j; DecodeFulfilled i] = Some st'
         ∧ cacheGet (imageCache st') (fZoom fi) (py (fCoord fi)) (px (fCoord fi)) (fLod fi)
           = Some (fImage fi)
         ∧ cacheGet (imageCache st') (fZoom fj) (py (fCoord fj)) (px (fCoord fj)) (fLod fj)
           = Some (fImage fj).
Proof.
  intros Hi Hj Hij Hli Hlj Hne.
  assert (Hcells : ¬ (fZoom fi = fZoom fj ∧ py (fCoord fi) = py (fCoord fj)
                      ∧ px (fCoord fi) = px (fCoord fj)
                      ∧ Z.to_nat (fLod fi) = Z.to_nat (fLod fj))).
  { intros (Hz & Hy & Hx & Hl). apply Hne.
    destruct fi as [zi [xi yi] li ii], fj as [zj [xj yj] lj ij]. simpl in *.
    assert (li = lj) by lia. by subst. }
  set (store := λ (f : Fetch) (cache : Cache),
         cacheStore cache (fZoom f) (py (fCoord f)) (px (fCoord f)) (Z.to_nat (fLod f))
           (fImage f)).
  set (sti := setPending (delete i (pending st)) (setImageCache (store fi (imageCache st)) st)).
  set (stj := setPending (delete j (pending st)) (setImageCache (store fj (imageCache st)) st)).
  assert (Hsti : decodeFulfilled i st = Some sti) by (unfold decodeFulfilled; by rewrite Hi).
  assert (Hstj : decodeFulfilled j st = Some stj) by (unfold decodeFulfilled; by rewrite Hj).
  assert (Hstij : decodeFulfilled (j - 1) sti
            = Some (setPending (delete (j - 1)%nat (delete i (pending st)))
                      (setImageCache (store fj (store fi (imageCache st))) st))).
  { unfold decodeFulfilled. simpl. rewrite list_lookup_delete_ge by lia.
    replace (S (j - 1)) with j by lia. by rewrite Hj. }
  assert (Hstji : decodeFulfilled i stj
            = Some (setPending (delete i (delete j (pending st)))
                      (setImageCache (store fi (store fj (imageCache st))) st))).
  { unfold decodeFulfilled. simpl. rewrite list_lookup_delete_lt by lia. by rewrite Hi. }
  unfold run. cbn [foldOpt step]. rewrite Hsti, Hstj, Hstij, Hstji.
  rewrite delete_delete_lt by done. unfold store.
  rewrite (cacheStore_comm (imageCache st) _ _ _ _ _ _ _ _ _ _ Hcells).
  eexists. split; [done|]. split; [done|]. simpl.
  rewrite !cacheGet_store.
  rewrite decide_True by (split_and!; try done; lia).
  rewrite decide_False.
  - rewrite decide_True by (split_and!; try done; lia). done.
  - intros (Hz & Hy & Hx & Hl). apply Hcells. split_and!; try done. lia.
Qed.

(** X19 at a concrete input: the images of the tiles (zoom 0, (0, 0)) and
    (zoom 1, (1, 0)) are both loading. *)
Lemma decodes_commute_witness :
  pending stateRequestedNext !! 0%nat = Some (mkFetch 0 (mkPoint 0 0) 0 1%nat)
  ∧ pending stateRequestedNext !! 1%nat = Some (mkFetch 1 (mkPoint 1 0) 0 4%nat)
  ∧ ∃ st', run stateRequestedNext [DecodeFulfilled 0%nat; DecodeFulfilled 0%nat] = Some st'
           ∧ run stateRequestedNext [DecodeFulfilled 1%nat; DecodeFulfilled 0%nat] = Some st'
           ∧ cacheGet (imageCache st') 0 0 0 0 = Some 1%nat
           ∧ cacheGet (imageCache st') 1 0 1 0 = Some 4%nat.
Proof.
  assert (Hi : pending stateRequestedNext !! 0%nat = Some (mkFetch 0 (mkPoint 0 0) 0 1%nat))
    by (vm_compute; reflexivity).
  assert (Hj : pending stateRequestedNext !! 1%nat = Some (mkFetch 1 (mkPoint 1 0) 0 4%nat))
    by (vm_compute; reflexivity).
  split; [exact Hi|]. split; [exact Hj|].
  apply (decodes_commute stateRequestedNext 0%nat 1%nat _ _ Hi Hj); simpl; try lia.
  discriminate.
Defined.
